(** * The per-frame compositing pipeline of js-segment

    A shallow embedding of [src/components/Segmentation.tsx] (the
    [SegmentationTF] component with its helpers [enhanceGamma] and
    [blurMask]), of the drawing code and the interface state of
    [src/App.tsx] ([onResults], [applyEnhancement], [createBackground],
    [loadModel], [startCamera]) and of the drawing code of the
    still-image component ([applyEnhancement], [replaceBackground]).

    Typed arrays live in a store and are addressed by identity, so that
    in-place updates and fresh allocations are told apart.  Canvas
    bitmaps, video frames and decoded images are values; a 2D context is
    a bitmap with its drawing state. *)

From Stdlib Require Import ZArith Lia QArith Qminmax Qround Lqa.
From stdpp Require Import base list strings.

Set Default Proof Using "Type".

(** ** Typed arrays *)

Module TypedArray.

(** Identity of a typed array: its position in the store. *)
Abbreviation loc := nat (only parsing).

(** Every typed array allocated so far, oldest first. *)
Abbreviation store := (list (list Z)) (only parsing).

(** [new Uint8ClampedArray(n)] and [new Uint32Array(n)]: a fresh array
    of [n] zeros. *)
Definition alloc (σ : store) (n : nat) : store * loc :=
  (σ ++ [replicate n 0%Z], length σ).

(** A fresh array holding a copy of [xs]. *)
Definition alloc_copy (σ : store) (xs : list Z) : store * loc :=
  (σ ++ [xs], length σ).

(** [a.length] *)
Definition len (σ : store) (l : loc) : nat :=
  length (default [] (σ !! l)).

(** [a[i]] as a number.  An index past the end reads [undefined]; where
    the functions modelled here can read past the end, the value goes
    into an integer array, which stores 0 for it. *)
Definition rd (σ : store) (l : loc) (i : nat) : Z :=
  default 0%Z (σ !! l ≫= (.!! i)).

(** [a[i] = v] after the conversion of the array type; an index past
    the end is ignored. *)
Definition wr (σ : store) (l : loc) (i : nat) (v : Z) : store :=
  alter (<[i := v]>) l σ.

(** Conversion performed by a store into a [Uint8ClampedArray]. *)
Definition clamp8 (v : Z) : Z := Z.max 0 (Z.min 255 v).

(** Conversion performed by a store into a [Uint32Array]. *)
Definition to_u32 (v : Z) : Z := (v mod 2 ^ 32)%Z.

Definition is_byte (v : Z) : Prop := (0 ≤ v ≤ 255)%Z.

End TypedArray.
Import TypedArray.

(** ** ImageData *)

(** An [ImageData] object: its dimensions and the identity of its
    [Uint8ClampedArray]. *)
Record ImageData := mkImageData {
  width : nat;
  height : nat;
  data : loc;
}.

(** [Math.round(sum / cnt)] for integers [sum >= 0], [cnt > 0]: the
    quotient rounded to the nearest integer, halves upwards. *)
Definition round_div (sum cnt : Z) : Z := ((2 * sum + cnt) / (2 * cnt))%Z.

(** The integers [lo, lo+1, ..., hi] of a loop
    [for (i = lo; i <= hi; i++)]. *)
Definition upto (lo hi : nat) : list nat := seq lo (S hi - lo).

(** ** [enhanceGamma] *)

(** [Math.min(255, Math.pow(v / 255, 1 / 1.5) * 255)] stored into a
    [Uint8ClampedArray], for a byte [v].  The real value is the cube root
    of [255 * v^2]; the array keeps the nearest integer [n], which is the
    number of [k] in [0..254] with [(2k+1)^3 <= 8 * 255 * v^2].  The two
    sides of that comparison have different parity, so the real value is
    never within [1e-9] of a rounding boundary and the double-precision
    evaluation rounds to the same byte. *)
Definition gamma_byte (v : Z) : Z :=
  Z.of_nat (length (filter (λ k : nat, ((2 * Z.of_nat k + 1) ^ 3 <=? 2040 * v * v)%Z)
                           (seq 0 255))).

(** [enhanceGamma(imageData)] with the default [gamma = 1.5]: updates the
    three colour bytes of every pixel in place and returns the same
    object. *)
Definition enhanceGamma (imageData : ImageData) (σ : store) : store * ImageData :=
  let d := data imageData in
  let σ' :=
    foldl (λ σ p,
             foldl (λ σ c, wr σ d (4 * p + c) (clamp8 (gamma_byte (rd σ d (4 * p + c)))))
                   σ (seq 0 3))
          σ (seq 0 (Nat.div (len σ d + 3) 4)) in
  (σ', imageData).

(** ** [blurMask] *)

(** The body of the two inner loops of [blurMask] for the pixel [(x, y)]:
    the sum and the count of the samples of [tmp] in the clipped window.
    On naturals [x - r] stops at 0, which is the value of
    [Math.max(0, x - r)]. *)
Definition window_sum_cnt (σ : store) (tmp : loc) (w h r x y : nat) : Z * Z :=
  foldl (λ acc yy,
           foldl (λ '(sum, cnt) xx, ((sum + rd σ tmp (yy * w + xx))%Z, (cnt + 1)%Z))
                 acc (upto (Nat.max 0 (x - r)) (Nat.min (w - 1) (x + r))))
        (0%Z, 0%Z) (upto (Nat.max 0 (y - r)) (Nat.min (h - 1) (y + r))).

(** One iteration of the [x] loop of [blurMask]. *)
Definition blur_pixel (tmp out : loc) (w h r : nat) (y : nat) (σ : store) (x : nat) : store :=
  let '(sum, cnt) := window_sum_cnt σ tmp w h r x y in
  let v := round_div sum cnt in
  let idx := (y * w + x) * 4 in
  let σ := wr σ out (idx + 2) (clamp8 0) in
  let σ := wr σ out (idx + 1) (clamp8 0) in
  let σ := wr σ out idx (clamp8 0) in
  wr σ out (idx + 3) (clamp8 v).

(** [blurMask(imageData, radius)] *)
Definition blurMask (imageData : ImageData) (radius : nat) (σ : store) : store * ImageData :=
  let w := width imageData in
  let h := height imageData in
  let d := data imageData in
  let '(σ, out) := alloc σ (len σ d) in
  let '(σ, tmp) := alloc σ (w * h) in
  let σ := foldl (λ σ i, wr σ tmp i (to_u32 (rd σ d (i * 4 + 3)))) σ (seq 0 (w * h)) in
  let σ := foldl (λ σ y, foldl (blur_pixel tmp out w h radius y) σ (seq 0 w))
                 σ (seq 0 h) in
  (σ, mkImageData w h out).

(** ** Canvas bitmaps *)

(** The pixels of a canvas, of a decoded image or of a video frame:
    row-major RGBA bytes, not premultiplied. *)
Record Bitmap := mkBitmap {
  bw : nat;
  bh : nat;
  px : list Z;
}.

Definition pixel : Type := Z * Z * Z * Z.

Definition transparent : pixel := (0, 0, 0, 0)%Z.

(** The pixel [(x, y)] of a bitmap. *)
Definition px_at (b : Bitmap) (x y : nat) : pixel :=
  let i := (y * bw b + x) * 4 in
  (default 0%Z (px b !! i), default 0%Z (px b !! (i + 1)),
   default 0%Z (px b !! (i + 2)), default 0%Z (px b !! (i + 3))).

(** The bitmap of [w] by [h] pixels whose pixel [(x, y)] is [f x y]. *)
Definition tabulate (w h : nat) (f : nat → nat → pixel) : Bitmap :=
  mkBitmap w h (i ← seq 0 (w * h);
                let '(r, g, b, a) := f (i mod w) (i / w) in [r; g; b; a]).

(** A canvas whose [width] or [height] has just been assigned, also to
    the value it already had: the bitmap is reset to transparent black
    (HTML Standard, the canvas element, "set bitmap dimensions"). *)
Definition blank (w h : nat) : Bitmap := mkBitmap w h (replicate (4 * (w * h)) 0%Z).

Definition same_size (b : Bitmap) (w h : nat) : bool :=
  (bw b =? w) && (bh b =? h).

(** Source-over compositing of one pixel [s] onto [d] (Compositing and
    Blending, section 5.1), evaluated exactly and quantised once to a
    byte.  User agents that keep premultiplied bytes give the same pixel
    where the alpha of the source is 0 or 255, and may differ from it in
    the last place of a colour channel in between. *)
Definition source_over (s d : pixel) : pixel :=
  let '(sr, sg, sb, sa) := s in
  let '(dr, dg, db, da) := d in
  let A := (255 * sa + da * (255 - sa))%Z in
  let mix (cs cd : Z) := round_div (255 * cs * sa + cd * da * (255 - sa)) A in
  (mix sr dr, mix sg dg, mix sb db, round_div A 255).

(** The smoothing filter of the user agent: [sampler src w h x y] is the
    pixel [(x, y)] of [src] resampled to [w] by [h] pixels. *)
Definition Sampler : Type := Bitmap → nat → nat → nat → nat → pixel.

Definition clamp_px (p : pixel) : pixel :=
  let '(r, g, b, a) := p in (clamp8 r, clamp8 g, clamp8 b, clamp8 a).

(** The source of [drawImage(src, 0, 0, w, h)]: [src] itself when it
    already measures [w] by [h], and its resampling otherwise. *)
Definition scaled (sampler : Sampler) (src : Bitmap) (w h : nat) : Bitmap :=
  if same_size src w h then src
  else tabulate w h (λ x y, clamp_px (sampler src w h x y)).

Definition inside (w h x y : nat) : bool := (x <? w) && (y <? h).

(** [ctx.drawImage(src, 0, 0, w, h)] on the canvas [c]. *)
Definition ctx_drawImage (sampler : Sampler) (c src : Bitmap) (w h : nat) : Bitmap :=
  let s := scaled sampler src w h in
  tabulate (bw c) (bh c)
    (λ x y, if inside w h x y then source_over (px_at s x y) (px_at c x y) else px_at c x y).

(** [ctx.clearRect(0, 0, w, h)] *)
Definition ctx_clearRect (c : Bitmap) (w h : nat) : Bitmap :=
  tabulate (bw c) (bh c) (λ x y, if inside w h x y then transparent else px_at c x y).

(** [ctx.fillStyle = colour; ctx.fillRect(0, 0, w, h)] *)
Definition ctx_fillRect (c : Bitmap) (colour : pixel) (w h : nat) : Bitmap :=
  tabulate (bw c) (bh c)
    (λ x y, if inside w h x y then source_over colour (px_at c x y) else px_at c x y).

(** [ctx.getImageData(0, 0, w, h)]: a new [ImageData] with a copy of the
    rectangle; pixels outside the canvas are transparent black. *)
Definition ctx_getImageData (c : Bitmap) (w h : nat) (σ : store) : store * ImageData :=
  let copy :=
    if same_size c w h then px c
    else px (tabulate w h (λ x y, if inside (bw c) (bh c) x y then px_at c x y
                                   else transparent)) in
  let '(σ, l) := alloc_copy σ copy in
  (σ, mkImageData w h l).

(** [ctx.putImageData(imageData, 0, 0)] on the canvas [c].  The bytes
    are kept as they are given; a canvas that stores premultiplied bytes
    keeps the alpha byte of every pixel and the colour bytes of the
    opaque ones, and may round the colour bytes of the others. *)
Definition ctx_putImageData (c : Bitmap) (imageData : ImageData) (σ : store) : Bitmap :=
  let src := mkBitmap (width imageData) (height imageData)
                      (default [] (σ !! data imageData)) in
  if same_size c (width imageData) (height imageData) then src
  else tabulate (bw c) (bh c)
         (λ x y, if inside (width imageData) (height imageData) x y
                 then px_at src x y else px_at c x y).

(** CSS colours used by the components. *)
Definition css_green : pixel := (0, 128, 0, 255)%Z.
Definition css_f0f0f0 : pixel := (240, 240, 240, 255)%Z.

(** ** The asynchronous half of a cycle *)

(** Lines 240 to 261: the mask is put on a canvas of its own size,
    redrawn at the size of the frame when the sizes differ, read back and
    blurred with radius 1. *)
Definition reconcile_mask (sampler : Sampler) (w h : nat)
    (maskImageData : ImageData) (σ : store) : store * ImageData :=
  let maskCanvas :=
    ctx_putImageData (blank (width maskImageData) (height maskImageData))
                     maskImageData σ in
  let maskCanvas :=
    if negb (bw maskCanvas =? w) || negb (bh maskCanvas =? h)
    then ctx_drawImage sampler (blank w h) maskCanvas w h
    else maskCanvas in
  let '(σ, got) := ctx_getImageData maskCanvas w h σ in
  blurMask got 1 σ.

(** One iteration of the loop of lines 281 to 287. *)
Definition fill_out (videoData maskData out : loc) (σ : store) (i : nat) : store :=
  let idx := i * 4 in
  let σ := wr σ out idx (clamp8 (rd σ videoData idx)) in
  let σ := wr σ out (idx + 1) (clamp8 (rd σ videoData (idx + 1))) in
  let σ := wr σ out (idx + 2) (clamp8 (rd σ videoData (idx + 2))) in
  wr σ out (idx + 3) (clamp8 (rd σ maskData (idx + 3))).

(** Lines 263 to 296: the output canvas is cleared, the background (or
    the fallback fill) is drawn, and the current video frame, carrying
    the alpha of the mask, is drawn over it. *)
Definition composite (sampler : Sampler) (w h : nat) (bgImage : option Bitmap)
    (video : Bitmap) (finalMask : ImageData) (canvas : Bitmap) (σ : store)
    : store * Bitmap :=
  let canvas := ctx_clearRect canvas w h in
  let canvas :=
    match bgImage with
    | Some img => ctx_drawImage sampler canvas img w h
    | None => ctx_fillRect canvas css_green w h
    end in
  let fgCanvas := ctx_drawImage sampler (blank w h) video w h in
  let '(σ, videoData) := ctx_getImageData fgCanvas w h σ in
  let '(σ, outl) := alloc σ (4 * (w * h)) in
  let out := mkImageData w h outl in
  let σ := foldl (fill_out (data videoData) (data finalMask) outl) σ (seq 0 (w * h)) in
  let temp := ctx_putImageData (blank w h) out σ in
  (σ, ctx_drawImage sampler canvas temp w h).

(** The mask found in the segmentation result, as a value. *)
Definition mask_image (m : Bitmap) (σ : store) : store * ImageData :=
  let '(σ, l) := alloc_copy σ (px m) in
  (σ, mkImageData (bw m) (bh m) l).

(** Everything a cycle does to the output canvas once its mask [m] is
    there. *)
Definition draw_cycle (sampler : Sampler) (w h : nat) (bgImage : option Bitmap)
    (video m canvas : Bitmap) : Bitmap :=
  let '(σ, maskImageData) := mask_image m [] in
  let '(σ, finalMask) := reconcile_mask sampler w h maskImageData σ in
  (composite sampler w h bgImage video finalMask canvas σ).2.

(** The working copy handed to the segmenter (lines 194 to 204). *)
Definition enhance_offscreen (off : Bitmap) (w h : nat) : Bitmap :=
  let '(σ, id) := ctx_getImageData off w h [] in
  let '(σ, id) := enhanceGamma id σ in
  ctx_putImageData off id σ.

(** ** The component [SegmentationTF] *)

Inductive EnhanceMode := none | gamma.
Inductive ModelStatus := idle | loading | ready | error.

(** What an in-flight cycle captured when it started. *)
Record Cycle := mkCycle { cyc_width : nat; cyc_height : nat }.

Inductive LogEntry :=
| BackgroundLoadFailed
| ModelInitError
| SegmentationError.

(** State of the mounted component: React state, refs, the DOM elements
    it draws on, and what the browser has pending for it. *)
Record State := mkState {
  mounted : bool;  (* the component is mounted *)
  modelStatus : ModelStatus;  (* React state *)
  running : bool;  (* React state *)
  runningRef : bool;  (* mirror of [running] read by [processFrame] *)
  videoReadyRef : bool;  (* set by [loadeddata] *)
  enhanceRef : EnhanceMode;  (* mirror of the enhancement selection *)
  segmenterRef : bool;  (* a segmenter is stored *)
  bgImageRef : option Bitmap;  (* the loaded background, if any *)
  video : Bitmap;  (* current frame of the video element; 0 by 0 before the first one *)
  canvas : Bitmap;  (* the output canvas *)
  offscreen : Bitmap;  (* the working copy given to the segmenter *)
  rafPending : bool;  (* the callback [loop] is registered with requestAnimationFrame *)
  inflight : list Cycle;  (* cycles awaiting the segmenter *)
  console : list LogEntry;  (* console.warn and console.error, latest first *)
  tfScopes : nat;  (* open tf.engine() scopes *)
}.

Definition set_mounted (v : bool) (s : State) : State :=
  mkState
    v (modelStatus s) (running s) (runningRef s) (videoReadyRef s)
     (enhanceRef s) (segmenterRef s) (bgImageRef s) (video s) (canvas s)
     (offscreen s) (rafPending s) (inflight s) (console s) (tfScopes s).

Definition set_modelStatus (v : ModelStatus) (s : State) : State :=
  mkState
    (mounted s) v (running s) (runningRef s) (videoReadyRef s) (enhanceRef s)
     (segmenterRef s) (bgImageRef s) (video s) (canvas s) (offscreen s)
     (rafPending s) (inflight s) (console s) (tfScopes s).

Definition set_running (v : bool) (s : State) : State :=
  mkState
    (mounted s) (modelStatus s) v (runningRef s) (videoReadyRef s)
     (enhanceRef s) (segmenterRef s) (bgImageRef s) (video s) (canvas s)
     (offscreen s) (rafPending s) (inflight s) (console s) (tfScopes s).

Definition set_runningRef (v : bool) (s : State) : State :=
  mkState
    (mounted s) (modelStatus s) (running s) v (videoReadyRef s) (enhanceRef s)
     (segmenterRef s) (bgImageRef s) (video s) (canvas s) (offscreen s)
     (rafPending s) (inflight s) (console s) (tfScopes s).

Definition set_videoReadyRef (v : bool) (s : State) : State :=
  mkState
    (mounted s) (modelStatus s) (running s) (runningRef s) v (enhanceRef s)
     (segmenterRef s) (bgImageRef s) (video s) (canvas s) (offscreen s)
     (rafPending s) (inflight s) (console s) (tfScopes s).

Definition set_enhanceRef (v : EnhanceMode) (s : State) : State :=
  mkState
    (mounted s) (modelStatus s) (running s) (runningRef s) (videoReadyRef s) v
     (segmenterRef s) (bgImageRef s) (video s) (canvas s) (offscreen s)
     (rafPending s) (inflight s) (console s) (tfScopes s).

Definition set_segmenterRef (v : bool) (s : State) : State :=
  mkState
    (mounted s) (modelStatus s) (running s) (runningRef s) (videoReadyRef s)
     (enhanceRef s) v (bgImageRef s) (video s) (canvas s) (offscreen s)
     (rafPending s) (inflight s) (console s) (tfScopes s).

Definition set_bgImageRef (v : option Bitmap) (s : State) : State :=
  mkState
    (mounted s) (modelStatus s) (running s) (runningRef s) (videoReadyRef s)
     (enhanceRef s) (segmenterRef s) v (video s) (canvas s) (offscreen s)
     (rafPending s) (inflight s) (console s) (tfScopes s).

Definition set_video (v : Bitmap) (s : State) : State :=
  mkState
    (mounted s) (modelStatus s) (running s) (runningRef s) (videoReadyRef s)
     (enhanceRef s) (segmenterRef s) (bgImageRef s) v (canvas s) (offscreen s)
     (rafPending s) (inflight s) (console s) (tfScopes s).

Definition set_canvas (v : Bitmap) (s : State) : State :=
  mkState
    (mounted s) (modelStatus s) (running s) (runningRef s) (videoReadyRef s)
     (enhanceRef s) (segmenterRef s) (bgImageRef s) (video s) v (offscreen s)
     (rafPending s) (inflight s) (console s) (tfScopes s).

Definition set_offscreen (v : Bitmap) (s : State) : State :=
  mkState
    (mounted s) (modelStatus s) (running s) (runningRef s) (videoReadyRef s)
     (enhanceRef s) (segmenterRef s) (bgImageRef s) (video s) (canvas s) v
     (rafPending s) (inflight s) (console s) (tfScopes s).

Definition set_rafPending (v : bool) (s : State) : State :=
  mkState
    (mounted s) (modelStatus s) (running s) (runningRef s) (videoReadyRef s)
     (enhanceRef s) (segmenterRef s) (bgImageRef s) (video s) (canvas s)
     (offscreen s) v (inflight s) (console s) (tfScopes s).

Definition set_inflight (v : list Cycle) (s : State) : State :=
  mkState
    (mounted s) (modelStatus s) (running s) (runningRef s) (videoReadyRef s)
     (enhanceRef s) (segmenterRef s) (bgImageRef s) (video s) (canvas s)
     (offscreen s) (rafPending s) v (console s) (tfScopes s).

Definition set_console (v : list LogEntry) (s : State) : State :=
  mkState
    (mounted s) (modelStatus s) (running s) (runningRef s) (videoReadyRef s)
     (enhanceRef s) (segmenterRef s) (bgImageRef s) (video s) (canvas s)
     (offscreen s) (rafPending s) (inflight s) v (tfScopes s).

Definition set_tfScopes (v : nat) (s : State) : State :=
  mkState
    (mounted s) (modelStatus s) (running s) (runningRef s) (videoReadyRef s)
     (enhanceRef s) (segmenterRef s) (bgImageRef s) (video s) (canvas s)
     (offscreen s) (rafPending s) (inflight s) (console s) v.


(** What the segmenter and the extraction of the mask deliver to a
    cycle. *)
Inductive Outcome :=
| InferenceThrows            (* a call of the segmenter rejects *)
| NoSegmentation             (* [segmentationResult?.[0]] is missing *)
| NoMask                     (* [maskImageData] stays null *)
| MaskData (m : Bitmap).     (* the mask as an ImageData *)

(** How a piece of code hands control back. *)
Inductive Completion :=
| Normal
| Throws.

(** What the browser and the user can do to the component. *)
Inductive Event :=
| ModelInitStart                    (* [initModel] begins *)
| ModelInitOk                       (* [createSegmenter] resolves *)
| ModelInitFail                     (* [initModel] catches *)
| VideoLoadedData (frame : Bitmap)  (* [loadeddata] on the video *)
| VideoFrame (frame : Bitmap)       (* the camera delivers a frame *)
| BackgroundLoaded (img : Bitmap)   (* [img.onload] *)
| BackgroundError                   (* [img.onerror] *)
| SelectEnhance (m : EnhanceMode)
| ClickStartStop                    (* the Start/Stop button *)
| AnimationFrame                    (* the browser runs its frame callbacks *)
| Resolve (k : nat) (o : Outcome)   (* the awaits of in-flight cycle [k] settle *)
| Unmount.

(** The derived gate. *)
Definition canRun (s : State) : bool :=
  match modelStatus s with ready => true | _ => false end
  && videoReadyRef s && running s.

(** The effect with dependencies [modelStatus, running] (lines 306 to
    323), run again after one of the two changed: the clean-up of the
    previous run cancels the registered callback, then the body registers
    [loop] unless its guard returns. *)
Definition loop_effect (s : State) : State :=
  let s := set_rafPending false s in
  if match modelStatus s with ready => false | _ => true end
     || negb (videoReadyRef s) || negb (running s)
  then s
  else set_rafPending true s.

(** The synchronous part of [processFrame] (lines 174 to 206). *)
Definition processFrame (sampler : Sampler) (s : State) : State :=
  if negb (runningRef s) then s
  else if negb (mounted s) || negb (segmenterRef s) || (bw (video s) =? 0) then s
  else
    let w := bw (video s) in
    let h := bh (video s) in
    let s := set_canvas (blank w h) s in
    let off := ctx_drawImage sampler (blank w h) (video s) w h in
    let off :=
      match enhanceRef s with
      | gamma => enhance_offscreen off w h
      | none => off
      end in
    let s := set_offscreen off s in
    let s := set_tfScopes (S (tfScopes s)) s in
    set_inflight (inflight s ++ [mkCycle w h]) s.

(** The body of the [try] block of a cycle (lines 209 to 296), from the
    point where its awaits settle. *)
Definition cycle_body (sampler : Sampler) (cyc : Cycle) (o : Outcome) (s : State)
    : State * Completion :=
  match o with
  | InferenceThrows => (s, Throws)
  | NoSegmentation => (s, Normal)
  | NoMask => (s, Normal)
  | MaskData m =>
      (set_canvas (draw_cycle sampler (cyc_width cyc) (cyc_height cyc)
                              (bgImageRef s) (video s) m (canvas s)) s,
       Normal)
  end.

(** [try { ... } catch (err) { console.error(...) } finally { endScope() }] *)
Definition run_cycle (sampler : Sampler) (cyc : Cycle) (o : Outcome) (s : State)
    : State * Completion :=
  let '(s, c) := cycle_body sampler cyc o s in
  let s :=
    match c with
    | Throws => set_console (SegmentationError :: console s) s
    | Normal => s
    end in
  (set_tfScopes (pred (tfScopes s)) s, Normal).

Definition initial : State :=
  mkState true idle false false false gamma false None (blank 0 0)
          (blank 1280 720) (blank 1280 720) false [] [] 0.

(** One event.  The completion is what reaches the browser: an
    exception leaving a callback, or a rejected promise nobody handles. *)
Definition step (sampler : Sampler) (s : State) (e : Event) : State * Completion :=
  match e with
  | ModelInitStart =>
      if mounted s && match modelStatus s with idle => true | _ => false end
      then (loop_effect (set_modelStatus loading s), Normal)
      else (s, Normal)
  | ModelInitOk =>
      if mounted s && match modelStatus s with loading => true | _ => false end
      then (loop_effect (set_modelStatus ready (set_segmenterRef true s)), Normal)
      else (s, Normal)
  | ModelInitFail =>
      if mounted s && match modelStatus s with loading => true | _ => false end
      then (loop_effect (set_modelStatus error
                           (set_console (ModelInitError :: console s) s)), Normal)
      else (s, Normal)
  | VideoLoadedData frame =>
      if mounted s
      then (set_video frame (set_videoReadyRef true s), Normal)
      else (s, Normal)
  | VideoFrame frame =>
      if mounted s && negb (bw (video s) =? 0)
      then (set_video frame s, Normal)
      else (s, Normal)
  | BackgroundLoaded img => (set_bgImageRef (Some img) s, Normal)
  | BackgroundError =>
      (set_bgImageRef None (set_console (BackgroundLoadFailed :: console s) s), Normal)
  | SelectEnhance m =>
      if mounted s then (set_enhanceRef m s, Normal) else (s, Normal)
  | ClickStartStop =>
      if mounted s && match modelStatus s with ready => true | _ => false end
      then
        let r := negb (running s) in
        (loop_effect (set_runningRef r (set_running r s)), Normal)
      else (s, Normal)
  | AnimationFrame =>
      if rafPending s then (processFrame sampler s, Normal) else (s, Normal)
  | Resolve k o =>
      match inflight s !! k with
      | Some cyc => run_cycle sampler cyc o (set_inflight (delete k (inflight s)) s)
      | None => (s, Normal)
      end
  | Unmount =>
      if mounted s
      then (set_rafPending false
              (set_segmenterRef false
                 (set_videoReadyRef false (set_mounted false s))), Normal)
      else (s, Normal)
  end.

(** The state after a sequence of events. *)
Definition run (sampler : Sampler) (s : State) (tr : list Event) : State :=
  foldl (λ s e, (step sampler s e).1) s tr.

(** A sampler for closed evaluations: nearest neighbour. *)
Definition nearest : Sampler :=
  λ src w h x y, px_at src (x * bw src / w) (y * bh src / h).

(** ** Background placement *)

(** Destination rectangle of a [drawImage] call. *)
Record Rect := mkRect { rx : Q; ry : Q; rw : Q; rh : Q }.

(** [createBackground] in [App.tsx] and [replaceBackground] in the
    still-image component (their [onload] handlers): the rectangle into
    which a [bgw] by [bgh] image is drawn on a [cw] by [ch] canvas, in
    exact arithmetic.  The code computes it in double precision, with
    the same result where the larger quotient is an integer, and within
    rounding of it elsewhere. *)
Definition cover_rect (cw ch bgw bgh : Q) : Rect :=
  let scale := Qmax (cw / bgw) (ch / bgh) in
  let scaledWidth := (bgw * scale)%Q in
  let scaledHeight := (bgh * scale)%Q in
  let x := ((cw - scaledWidth) / 2)%Q in
  let y := ((ch - scaledHeight) / 2)%Q in
  mkRect x y scaledWidth scaledHeight.

(** [processFrame], line 265: [ctx.drawImage(bgImageRef.current, 0, 0,
    width, height)], the call that [composite] models by
    [ctx_drawImage _ _ img w h]. *)
Definition stretch_rect (w h : nat) : Rect :=
  mkRect 0%Q 0%Q (inject_Z (Z.of_nat w)) (inject_Z (Z.of_nat h)).

(** Horizontal and vertical magnification of an image drawn into a
    rectangle. *)
Definition scale_x (r : Rect) (bgw : Q) : Q := (rw r / bgw)%Q.
Definition scale_y (r : Rect) (bgh : Q) : Q := (rh r / bgh)%Q.

(** ** Auxiliary notions used to state what the loops compute *)

Definition sumZ (xs : list Z) : Z := foldr Z.add 0%Z xs.

(** The stores [a[k] = v] of a list, performed in order. *)
Definition apply_writes (a : list Z) (ws : list (nat * Z)) : list Z :=
  foldl (λ t kv, <[kv.1 := kv.2]> t) a ws.

(** The writes of one iteration of the [x] loop of [blurMask], given the
    sum and count of its window. *)
Definition pix_writes (sc : nat → nat → Z * Z) (w : nat) (y x : nat) : list (nat * Z) :=
  let idx := (y * w + x) * 4 in
  [(idx + 2, clamp8 0); (idx + 1, clamp8 0); (idx, clamp8 0);
   (idx + 3, clamp8 (round_div (sc x y).1 (sc x y).2))].

(** The copy of the alpha channel that [blurMask] keeps in [tmp]. *)
Definition blur_tmp (w h : nat) (d : list Z) : list Z :=
  (λ i, to_u32 (default 0%Z (d !! (i * 4 + 3)))) <$> seq 0 (w * h).

(** The array [out] that [blurMask] returns. *)
Definition blur_out (w h r : nat) (d : list Z) : list Z :=
  apply_writes (replicate (length d) 0%Z)
    (seq 0 h ≫= λ y, seq 0 w ≫= pix_writes (window_sum_cnt [blur_tmp w h d] 0 w h r) w y).

(** The writes of one iteration of the loop of [composite]. *)
Definition out_writes (vd md : list Z) (i : nat) : list (nat * Z) :=
  let idx := i * 4 in
  [(idx, clamp8 (default 0%Z (vd !! idx)));
   (idx + 1, clamp8 (default 0%Z (vd !! (idx + 1))));
   (idx + 2, clamp8 (default 0%Z (vd !! (idx + 2))));
   (idx + 3, clamp8 (default 0%Z (md !! (idx + 3))))].

(** *** The clipped window, as the specification words it *)

(** The positions [x - r, ..., x + r] that lie on an axis of [n] pixels:
    positions outside [0 .. n-1] are dropped, neither wrapped around nor
    replaced by a padding value. *)
Definition window_axis (n r x : nat) : list nat :=
  omap (λ k, let p := (Z.of_nat x - Z.of_nat r + Z.of_nat k)%Z in
             if decide (0 ≤ p < Z.of_nat n)%Z then Some (Z.to_nat p) else None)
       (seq 0 (2 * r + 1)).

(** The in-bounds pixels [(xx, yy)] of the square window of side [2r+1]
    centred on [(x, y)]. *)
Definition window (w h r x y : nat) : list (nat * nat) :=
  yy ← window_axis h r y; xx ← window_axis w r x; [(xx, yy)].

(** Alpha byte of the pixel [p = (x, y)] of a row-major RGBA array. *)
Definition alpha_of (d : list Z) (w : nat) (p : nat * nat) : Z :=
  default 0%Z (d !! ((p.2 * w + p.1) * 4 + 3)).

(** *** Well-formed images *)

(** The bytes of an image of [w] by [h] pixels. *)
Definition is_pixels (w h : nat) (d : list Z) : Prop :=
  length d = 4 * (w * h) ∧ Forall is_byte d.

Definition wf_bitmap (b : Bitmap) : Prop := is_pixels (bw b) (bh b) (px b).

(** Every pixel is fully opaque. *)
Definition opaque (b : Bitmap) : Prop :=
  ∀ x y, x < bw b → y < bh b → (px_at b x y).2 = 255%Z.

(** A decoded video frame of [w] by [h] pixels: video has no alpha
    channel, its pixels are opaque. *)
Definition is_frame (w h : nat) (f : Bitmap) : Prop :=
  bw f = w ∧ bh f = h ∧ wf_bitmap f ∧ opaque f.

Definition red (p : pixel) : Z := p.1.1.1.
Definition green (p : pixel) : Z := p.1.1.2.
Definition blue (p : pixel) : Z := p.1.2.
Definition alpha (p : pixel) : Z := p.2.

(** The four bytes of a pixel. *)
Definition px_list (p : pixel) : list Z :=
  let '(r, g, b, a) := p in [r; g; b; a].

(** The foreground canvas of [composite]. *)
Definition fg_canvas (sampler : Sampler) (w h : nat) (video : Bitmap) : Bitmap :=
  ctx_drawImage sampler (blank w h) video w h.

(** The output canvas of [composite] once the background is drawn. *)
Definition bg_canvas (sampler : Sampler) (w h : nat) (bgImage : option Bitmap)
    (canvas : Bitmap) : Bitmap :=
  match bgImage with
  | Some img => ctx_drawImage sampler (ctx_clearRect canvas w h) img w h
  | None => ctx_fillRect (ctx_clearRect canvas w h) css_green w h
  end.

(** The array of the image [out] of [composite] after its loop. *)
Definition out_array (w h : nat) (vd md : list Z) : list Z :=
  apply_writes (replicate (4 * (w * h)) 0%Z) (seq 0 (w * h) ≫= out_writes vd md).

(** The background of a pixel: the pixel of the background image, or the
    fallback fill. *)
Definition bg_pixel (bgImage : option Bitmap) (x y : nat) : pixel :=
  match bgImage with
  | Some img => px_at img x y
  | None => css_green
  end.

(** A background that is absent, or opaque and of the size of the
    canvas. *)
Definition bg_fits (w h : nat) (bgImage : option Bitmap) : Prop :=
  match bgImage with
  | Some img => bw img = w ∧ bh img = h ∧ opaque img
  | None => True
  end.


(** The bytes that [reconcile_mask] hands to [blurMask], for a mask with
    the pixels of [m]. *)
Definition reconcile_input (sampler : Sampler) (w h : nat) (m : Bitmap) : list Z :=
  if same_size m w h then px m
  else px (ctx_drawImage sampler (blank w h) m w h).

(** The bytes of an image after [enhanceGamma]: the colour bytes go
    through the gamma curve, alpha stays. *)
Definition gamma_array (a : list Z) : list Z :=
  imap (λ j v, if decide (j mod 4 ≠ 3) then clamp8 (gamma_byte v) else v) a.

(** The same, when only the first [k] pixels have been visited. *)
Definition gamma_upto (k : nat) (a : list Z) : list Z :=
  imap (λ j v, if decide (j < 4 * k ∧ j mod 4 ≠ 3) then clamp8 (gamma_byte v) else v) a.

(** One iteration of the outer loop of [enhanceGamma], on the array. *)
Definition gamma_px_step (p : nat) (t : list Z) : list Z :=
  let t := <[4 * p + 0 := clamp8 (gamma_byte (default 0%Z (t !! (4 * p + 0))))]> t in
  let t := <[4 * p + 1 := clamp8 (gamma_byte (default 0%Z (t !! (4 * p + 1))))]> t in
  <[4 * p + 2 := clamp8 (gamma_byte (default 0%Z (t !! (4 * p + 2))))]> t.

(** The part of the state that gates the loop. *)
Definition control (s : State) : bool * ModelStatus * bool * bool * bool * bool * bool :=
  (mounted s, modelStatus s, running s, runningRef s, videoReadyRef s,
   segmenterRef s, rafPending s).

(** When the guards of [processFrame] let it through. *)
Definition cycle_starts (s : State) : bool :=
  runningRef s && mounted s && segmenterRef s && negb (bw (video s) =? 0).

(** What every reachable state satisfies. *)
Definition loop_inv (s : State) : Prop :=
  (rafPending s = true → canRun s = true)
  ∧ runningRef s = running s
  ∧ (running s = true → modelStatus s = ready).

(** ** The 2D context with its drawing state

    [App.tsx] and the still-image component draw through contexts whose
    [globalCompositeOperation], [fillStyle] and [filter] they assign, and
    which they [save] and [restore]. *)

(** The values of [globalCompositeOperation] that the components
    assign. *)
Inductive CompositeOp := SourceOver | SourceIn | Difference.

(** Source-in compositing of one pixel [s] onto [d] (Compositing and
    Blending, the Porter-Duff operator source-in): the colour of the
    source, with the product of the two alphas; a pixel whose alpha
    becomes 0 is transparent black. *)
Definition source_in (s d : pixel) : pixel :=
  let '(sr, sg, sb, sa) := s in
  let a := round_div (sa * alpha d) 255 in
  if (a =? 0)%Z then transparent else (sr, sg, sb, a).

(** The [difference] blend mode, whose result is composited
    source-over: with [B = |cd - cs|] the colour is
    [as * ((1 - ad) * cs + ad * B) + (1 - as) * ad * cd] over the alpha of
    the result; evaluated exactly and quantised once, as [source_over]. *)
Definition difference (s d : pixel) : pixel :=
  let '(sr, sg, sb, sa) := s in
  let '(dr, dg, db, da) := d in
  let A := (255 * sa + da * (255 - sa))%Z in
  let mix (cs cd : Z) :=
    round_div (sa * ((255 - da) * cs + da * Z.abs (cd - cs)) + (255 - sa) * da * cd) A in
  (mix sr dr, mix sg dg, mix sb db, round_div A 255).

(** One canvas pixel [d] after a drawing operation whose source pixel
    there is [s]; [touched] tells whether the shape drawn reaches the
    pixel.  Source-in clears what the shape does not reach. *)
Definition paint (op : CompositeOp) (touched : bool) (s d : pixel) : pixel :=
  match op with
  | SourceOver => if touched then source_over s d else d
  | Difference => if touched then difference s d else d
  | SourceIn => if touched then source_in s d else transparent
  end.

(** The part of the drawing state that the components use. *)
Record DrawingState := mkDrawingState {
  ds_filter : string;
  ds_fillStyle : pixel;
  ds_operation : CompositeOp;
}.

(** The state of a context that has just been created or whose canvas
    has just been resized. *)
Definition default_state : DrawingState :=
  mkDrawingState "none" (0, 0, 0, 255)%Z SourceOver.

(** A canvas with its 2D context: the bitmap, the current drawing state
    and the states pushed by [save]. *)
Record Context2D := mkContext2D {
  cx_bitmap : Bitmap;
  cx_state : DrawingState;
  cx_saved : list DrawingState;
}.

(** [document.createElement('canvas')] sized to [w] by [h], with
    [getContext('2d')]. *)
Definition new_canvas (w h : nat) : Context2D :=
  mkContext2D (blank w h) default_state [].

(** [canvas.width = w] and [canvas.height = h]: each assignment clears
    the bitmap and resets the context to its default state. *)
Definition set_width (w : nat) (c : Context2D) : Context2D :=
  mkContext2D (blank w (bh (cx_bitmap c))) default_state [].
Definition set_height (h : nat) (c : Context2D) : Context2D :=
  mkContext2D (blank (bw (cx_bitmap c)) h) default_state [].

Definition set_bitmap (b : Bitmap) (c : Context2D) : Context2D :=
  mkContext2D b (cx_state c) (cx_saved c).

(** [ctx.filter = f], [ctx.fillStyle = colour] and
    [ctx.globalCompositeOperation = op]. *)
Definition set_filter (f : string) (c : Context2D) : Context2D :=
  mkContext2D (cx_bitmap c)
    (mkDrawingState f (ds_fillStyle (cx_state c)) (ds_operation (cx_state c)))
    (cx_saved c).
Definition set_fillStyle (colour : pixel) (c : Context2D) : Context2D :=
  mkContext2D (cx_bitmap c)
    (mkDrawingState (ds_filter (cx_state c)) colour (ds_operation (cx_state c)))
    (cx_saved c).
Definition set_operation (op : CompositeOp) (c : Context2D) : Context2D :=
  mkContext2D (cx_bitmap c)
    (mkDrawingState (ds_filter (cx_state c)) (ds_fillStyle (cx_state c)) op)
    (cx_saved c).

(** [ctx.save()] pushes a copy of the drawing state; [ctx.restore()] pops
    the latest one into the context and does nothing on an empty
    stack. *)
Definition ctx_save (c : Context2D) : Context2D :=
  mkContext2D (cx_bitmap c) (cx_state c) (cx_state c :: cx_saved c).
Definition ctx_restore (c : Context2D) : Context2D :=
  match cx_saved c with
  | st :: rest => mkContext2D (cx_bitmap c) st rest
  | [] => c
  end.

(** What the user agent decides: how an image drawn into a rectangle
    that is not its own size is resampled ([ua_place src r x y] is the
    source pixel arriving at the canvas pixel [(x, y)]), and what a
    filter other than ['none'] makes of a source pixel. *)
Record UserAgent := mkUserAgent {
  ua_place : Bitmap → Rect → nat → nat → pixel;
  ua_filter : string → pixel → pixel;
}.

Definition Qnat (n : nat) : Q := inject_Z (Z.of_nat n).

Definition Qlt_bool (a b : Q) : bool := negb (Qle_bool b a).

(** The destination of [drawImage(src, 0, 0)]: the source at its own
    size. *)
Definition natural (src : Bitmap) : Rect := stretch_rect (bw src) (bh src).

Definition is_natural (src : Bitmap) (r : Rect) : bool :=
  Qeq_bool (rx r) 0 && Qeq_bool (ry r) 0
  && Qeq_bool (rw r) (Qnat (bw src)) && Qeq_bool (rh r) (Qnat (bh src)).

(** Whether the rectangle [r] reaches the canvas pixel [(x, y)], the
    square from [(x, y)] to [(x + 1, y + 1)]. *)
Definition touches (r : Rect) (x y : nat) : bool :=
  Qlt_bool (rx r) (Qnat x + 1) && Qlt_bool (Qnat x) (rx r + rw r)
  && Qlt_bool (ry r) (Qnat y + 1) && Qlt_bool (Qnat y) (ry r + rh r).

(** The source pixel of [drawImage(src, rx, ry, rw, rh)] at the canvas
    pixel [(x, y)]: the pixel of [src] when it is drawn at its own size,
    and what the user agent samples otherwise. *)
Definition source_at (ua : UserAgent) (src : Bitmap) (r : Rect) (x y : nat) : pixel :=
  if is_natural src r then px_at src x y
  else clamp_px (ua_place ua src r x y).

(** The filter of the context applied to a source pixel. *)
Definition apply_filter (ua : UserAgent) (f : string) (p : pixel) : pixel :=
  if decide (f = "none") then p else clamp_px (ua_filter ua f p).

(** [ctx.drawImage(src, rx, ry, rw, rh)] for an image or a video
    frame. *)
Definition drawImage (ua : UserAgent) (src : Bitmap) (r : Rect) (c : Context2D)
    : Context2D :=
  let b := cx_bitmap c in
  let st := cx_state c in
  set_bitmap
    (tabulate (bw b) (bh b)
       (λ x y, paint (ds_operation st) (touches r x y)
                 (apply_filter ua (ds_filter st) (source_at ua src r x y))
                 (px_at b x y)))
    c.

(** [ctx.drawImage(canvas, 0, 0)] for a canvas: a canvas without pixels
    is refused with an [InvalidStateError]. *)
Definition drawCanvas (ua : UserAgent) (src : Bitmap) (c : Context2D)
    : Context2D * Completion :=
  if (bw src =? 0) || (bh src =? 0) then (c, Throws)
  else (drawImage ua src (natural src) c, Normal).

(** [ctx.fillRect(0, 0, w, h)] with the current [fillStyle]. *)
Definition fillRect (ua : UserAgent) (w h : nat) (c : Context2D) : Context2D :=
  let b := cx_bitmap c in
  let st := cx_state c in
  set_bitmap
    (tabulate (bw b) (bh b)
       (λ x y, paint (ds_operation st) (inside w h x y)
                 (apply_filter ua (ds_filter st) (ds_fillStyle st))
                 (px_at b x y)))
    c.

Definition css_white : pixel := (255, 255, 255, 255)%Z.

(** The [switch] of both [applyEnhancement] functions: the filter of an
    enhancement mode. *)
Definition filter_of_mode (mode : string) : string :=
  if decide (mode = "auto") then "brightness(1.2) contrast(1.1)"
  else if decide (mode = "low-light") then "brightness(1.5) contrast(1.3) saturate(1.2)"
  else if decide (mode = "vibrant") then "saturate(1.5) contrast(1.2)"
  else if decide (mode = "natural") then "brightness(1.1) contrast(1.05) saturate(1.1)"
  else "none".

(** The [onload] handlers of [createBackground] and [replaceBackground]
    up to their first [drawImage]: the background is drawn into the
    cover rectangle of a canvas of [cw] by [ch].  A background without
    width or height makes the scale infinite or undefined, and
    [drawImage] ignores a call with such arguments. *)
Definition draw_cover (ua : UserAgent) (bgImg : Bitmap) (cw ch : nat) (c : Context2D)
    : Context2D :=
  if (bw bgImg =? 0) || (bh bgImg =? 0) then c
  else drawImage ua bgImg
         (cover_rect (Qnat cw) (Qnat ch) (Qnat (bw bgImg)) (Qnat (bh bgImg))) c.

(** A user agent for closed evaluations: nearest-neighbour sampling at
    the centre of the canvas pixel, and no support for [filter]. *)
Definition nearest_place (src : Bitmap) (r : Rect) (x y : nat) : pixel :=
  let u := Qfloor ((Qnat x + (1 # 2) - rx r) * Qnat (bw src) / rw r) in
  let v := Qfloor ((Qnat y + (1 # 2) - ry r) * Qnat (bh src) / rh r) in
  if ((0 <=? u) && (u <? Z.of_nat (bw src)) && (0 <=? v) && (v <? Z.of_nat (bh src)))%Z
  then px_at src (Z.to_nat u) (Z.to_nat v)
  else transparent.

Definition plain_ua : UserAgent := mkUserAgent nearest_place (λ _ p, p).
(** ** [App.tsx]: the MediaPipe variant *)

Module App.

(** [applyEnhancement(ctx, mode)]: the filter is assigned between
    [ctx.save()] and [ctx.restore()]. *)
Definition applyEnhancement (ctx : Context2D) (mode : string) : Context2D :=
  let ctx := ctx_save ctx in
  let ctx := set_filter (filter_of_mode mode) ctx in
  ctx_restore ctx.

(** [createBackground(canvas, ctx, backgroundId)], the part that runs at
    once: a canvas of the size of the output canvas, on which one of the
    two handlers of the image draws later. *)
Definition createBackground (canvas : Context2D) : Context2D :=
  new_canvas (bw (cx_bitmap canvas)) (bh (cx_bitmap canvas)).

(** [bgImg.onload]: the image is drawn on the background canvas with the
    cover scale of the output canvas, and the background canvas on the
    output canvas.  The result is the background canvas, the output
    canvas and how the handler ends. *)
Definition bgImg_onload (ua : UserAgent) (bgImg : Bitmap) (bgCtx ctx : Context2D)
    : Context2D * Context2D * Completion :=
  let bgCtx := draw_cover ua bgImg (bw (cx_bitmap ctx)) (bh (cx_bitmap ctx)) bgCtx in
  let '(ctx, c) := drawCanvas ua (cx_bitmap bgCtx) ctx in
  (bgCtx, ctx, c).

(** [bgImg.onerror]: the background canvas is filled with ['#f0f0f0']
    and drawn on the output canvas. *)
Definition bgImg_onerror (ua : UserAgent) (bgCtx ctx : Context2D)
    : Context2D * Context2D * Completion :=
  let bgCtx := set_fillStyle css_f0f0f0 bgCtx in
  let bgCtx := fillRect ua (bw (cx_bitmap bgCtx)) (bh (cx_bitmap bgCtx)) bgCtx in
  let '(ctx, c) := drawCanvas ua (cx_bitmap bgCtx) ctx in
  (bgCtx, ctx, c).

(** [onResults(results)] with both refs set, up to the return of the
    function: the handlers of [createBackground] run after it. *)
Definition draw_results (ua : UserAgent) (enhancementMode : string) (video : Bitmap)
    (segmentationMask : option Bitmap) (ctx : Context2D) : Context2D * Completion :=
  let ctx := set_height (bh video) (set_width (bw video) ctx) in
  let w := bw (cx_bitmap ctx) in
  let h := bh (cx_bitmap ctx) in
  let ctx := drawImage ua video (stretch_rect w h) ctx in
  let ctx := applyEnhancement ctx enhancementMode in
  match segmentationMask with
  | Some mask =>
      let maskCtx := new_canvas w h in
      let maskCtx := drawImage ua mask (stretch_rect w h) maskCtx in
      let maskCtx := set_operation Difference maskCtx in
      let maskCtx := set_fillStyle css_white maskCtx in
      let maskCtx := fillRect ua w h maskCtx in
      let ctx := set_operation SourceIn ctx in
      match drawCanvas ua (cx_bitmap maskCtx) ctx with
      | (ctx, Normal) => (set_operation SourceOver ctx, Normal)
      | (ctx, Throws) => (ctx, Throws)
      end
  | None => (ctx, Normal)
  end.

(** [onResults(results)]: nothing happens while one of the refs is
    unset. *)
Definition onResults (ua : UserAgent) (enhancementMode : string)
    (canvasRef : option Context2D) (videoRef : option Bitmap)
    (segmentationMask : option Bitmap) : option Context2D * Completion :=
  match canvasRef, videoRef with
  | Some ctx, Some video =>
      let '(ctx, c) := draw_results ua enhancementMode video segmentationMask ctx in
      (Some ctx, c)
  | _, _ => (canvasRef, Normal)
  end.

End App.
(** ** The still-image component *)

Module Still.

(** [applyEnhancement(image, mode)]: the image is drawn on a canvas of
    its size, then once more with the filter of the mode. *)
Definition applyEnhancement (ua : UserAgent) (image : Bitmap) (mode : string)
    : Context2D :=
  let ctx := new_canvas (bw image) (bh image) in
  let ctx := drawImage ua image (natural image) ctx in
  let ctx := set_filter (filter_of_mode mode) ctx in
  let ctx := drawImage ua image (natural image) ctx in
  set_filter "none" ctx.

(** The canvas of [replaceBackground] once the handler of the background
    image that runs has drawn the background ([onload], with the decoded
    image) or the fallback fill ([onerror]). *)
Definition backdrop (ua : UserAgent) (image : Bitmap) (bgImg : option Bitmap)
    : Context2D :=
  let ctx := new_canvas (bw image) (bh image) in
  match bgImg with
  | Some bgImg => draw_cover ua bgImg (bw (cx_bitmap ctx)) (bh (cx_bitmap ctx)) ctx
  | None =>
      let ctx := set_fillStyle css_f0f0f0 ctx in
      fillRect ua (bw (cx_bitmap ctx)) (bh (cx_bitmap ctx)) ctx
  end.

(** [replaceBackground(image, mask, backgroundId)], from the handler of
    the background image that runs.  An exception leaves the handler and
    the promise is never resolved. *)
Definition replaceBackground (ua : UserAgent) (image mask : Bitmap)
    (bgImg : option Bitmap) : Context2D * Completion :=
  let ctx := backdrop ua image bgImg in
  let ctx := set_operation SourceIn ctx in
  match drawCanvas ua mask ctx with
  | (ctx, Normal) =>
      let ctx := set_operation SourceOver ctx in
      drawCanvas ua image ctx
  | (ctx, Throws) => (ctx, Throws)
  end.

End Still.
(** ** [App.tsx]: the state of the user interface *)

Module AppUI.

Record ProcessingState := mkProcessingState {
  isProcessing : bool;
  progress : Z;
  error : option string;
  resultImage : option string;
}.

(** React state and refs of [App]. *)
Record State := mkState {
  selectedBackground : string;
  enhancementMode : string;
  isCameraActive : bool;
  processingState : ProcessingState;
  modelLoaded : bool;
  isDarkMode : bool;
  segmenterRef : bool;  (* a segmenter is stored *)
}.

Definition set_processingState (f : ProcessingState → ProcessingState) (s : State)
    : State :=
  mkState (selectedBackground s) (enhancementMode s) (isCameraActive s)
          (f (processingState s)) (modelLoaded s) (isDarkMode s) (segmenterRef s).

Definition initial : State :=
  mkState "beach.jpg" "auto" false (mkProcessingState false 0 None None)
          false false false.

(** What the user and the browser can do to [App]. *)
Inductive Event :=
| LoadModel (ok : bool)        (* the mount effect; [ok] is false when the segmenter throws *)
| ClickCamera (granted : bool) (* the camera button; [granted]: the camera starts *)
| ClickCapture (dataURL : string)
| ClickReset
| ClickTheme
| SelectBackground (path : string)
| SelectEnhancement (id : string).

(** [loadModel] (lines 70 to 99). *)
Definition loadModel (ok : bool) (s : State) : State :=
  let s := set_processingState
             (λ prev, mkProcessingState true 10 (error prev) (resultImage prev)) s in
  if ok
  then
    let s := mkState (selectedBackground s) (enhancementMode s) (isCameraActive s)
                     (processingState s) true (isDarkMode s) true in
    set_processingState
      (λ prev, mkProcessingState false 100 (error prev) (resultImage prev)) s
  else
    set_processingState
      (λ prev, mkProcessingState false (progress prev)
                 (Some "Failed to load segmentation model. Please try again.")
                 (resultImage prev)) s.

(** [startCamera] (lines 102 to 138), with [granted] false when
    [getUserMedia] rejects or the set-up of the camera throws; the video
    element is rendered whenever the component is, so its ref is set. *)
Definition startCamera (granted : bool) (s : State) : State :=
  if negb (segmenterRef s) then s
  else if granted
  then mkState (selectedBackground s) (enhancementMode s) true (processingState s)
               (modelLoaded s) (isDarkMode s) (segmenterRef s)
  else
    set_processingState
      (λ prev, mkProcessingState (isProcessing prev) (progress prev)
                 (Some "Failed to access camera. Please allow camera permissions.")
                 (resultImage prev)) s.

(** One event.  The capture button and the two selects are disabled
    while the camera is off; the reset button is rendered with a
    captured image only. *)
Definition step (s : State) (e : Event) : State :=
  match e with
  | LoadModel ok => loadModel ok s
  | ClickCamera granted =>
      if isCameraActive s
      then mkState (selectedBackground s) (enhancementMode s) false (processingState s)
                   (modelLoaded s) (isDarkMode s) (segmenterRef s)
      else startCamera granted s
  | ClickCapture dataURL =>
      if isCameraActive s
      then set_processingState
             (λ prev, mkProcessingState (isProcessing prev) (progress prev) (error prev)
                        (Some dataURL)) s
      else s
  | ClickReset =>
      match resultImage (processingState s) with
      | Some _ =>
          set_processingState
            (λ prev, mkProcessingState (isProcessing prev) (progress prev) (error prev)
                       None) s
      | None => s
      end
  | ClickTheme =>
      mkState (selectedBackground s) (enhancementMode s) (isCameraActive s)
              (processingState s) (modelLoaded s) (negb (isDarkMode s)) (segmenterRef s)
  | SelectBackground path =>
      if isCameraActive s
      then mkState path (enhancementMode s) (isCameraActive s) (processingState s)
                   (modelLoaded s) (isDarkMode s) (segmenterRef s)
      else s
  | SelectEnhancement id =>
      if isCameraActive s
      then mkState (selectedBackground s) id (isCameraActive s) (processingState s)
                   (modelLoaded s) (isDarkMode s) (segmenterRef s)
      else s
  end.

Definition run (s : State) (tr : list Event) : State := foldl step s tr.

End AppUI.

(** * Properties *)

(** ** Reasoning about the store *)

Section store_lemmas.
Implicit Types (σ : list (list Z)) (l : nat) (a : list Z).

Lemma wr_insert σ l a i v :
  l < length σ → wr (<[l := a]> σ) l i v = <[l := <[i := v]> a]> σ.
Proof.
  intros Hl. unfold wr. apply list_eq. intros j.
  destruct (decide (l = j)) as [<-|Hne].
  - rewrite list_lookup_alter_eq, !list_lookup_insert_eq by (by rewrite ?length_insert).
    done.
  - by rewrite list_lookup_alter_ne, !list_lookup_insert_ne.
Qed.

Lemma rd_insert_ne σ l l' a i : l ≠ l' → rd (<[l := a]> σ) l' i = rd σ l' i.
Proof. intros Hne. unfold rd. by rewrite list_lookup_insert_ne. Qed.

Lemma rd_insert_eq σ l a i : l < length σ → rd (<[l := a]> σ) l i = default 0%Z (a !! i).
Proof. intros Hl. unfold rd. by rewrite list_lookup_insert_eq. Qed.

Lemma rd_lookup σ l a i : σ !! l = Some a → rd σ l i = default 0%Z (a !! i).
Proof. intros H. unfold rd. by rewrite H. Qed.

Lemma len_lookup σ l a : σ !! l = Some a → len σ l = length a.
Proof. intros H. unfold len. by rewrite H. Qed.

(** A loop whose body only rewrites the array [l], as a function [g] of
    the loop variable and of the previous contents of [l], is one update
    of [l]. *)
Lemma foldl_local {A} (f : list (list Z) → A → list (list Z)) (g : A → list Z → list Z)
    l σ (xs : list A) a :
  l < length σ →
  (∀ a' x, f (<[l := a']> σ) x = <[l := g x a']> σ) →
  foldl f (<[l := a]> σ) xs = <[l := foldl (λ t x, g x t) a xs]> σ.
Proof.
  intros Hl Hf. revert a. induction xs as [|x xs IH]; intros a; simpl; [done|].
  by rewrite Hf, IH.
Qed.

Lemma foldl_ext_in {A B} (f g : B → A → B) (xs : list A) b :
  (∀ b x, x ∈ xs → f b x = g b x) → foldl f b xs = foldl g b xs.
Proof.
  revert b. induction xs as [|x xs IH]; intros b Hfg; simpl; [done|].
  rewrite Hfg by left. apply IH. intros b' x' Hx'. apply Hfg. by right.
Qed.

End store_lemmas.

(** ** Sequences of array writes *)

Section apply_writes.
Implicit Types (a : list Z) (ws : list (nat * Z)).

Lemma apply_writes_length ws a : length (apply_writes a ws) = length a.
Proof.
  revert a. induction ws as [|[k v] ws IH]; intros a; simpl; [done|].
  unfold apply_writes in *. simpl. by rewrite IH, length_insert.
Qed.

Lemma apply_writes_app a ws1 ws2 :
  apply_writes a (ws1 ++ ws2) = apply_writes (apply_writes a ws1) ws2.
Proof. unfold apply_writes. by rewrite foldl_app. Qed.

(** When every write to index [j] stores [c], and either there is such a
    write or [c] was there before, [c] is read back. *)
Lemma apply_writes_lookup ws a j c :
  j < length a →
  (∀ v, (j, v) ∈ ws → v = c) →
  (∃ v, (j, v) ∈ ws) ∨ a !! j = Some c →
  apply_writes a ws !! j = Some c.
Proof.
  revert a. induction ws as [|[k v] ws IH]; intros a Hj Hall Hex.
  - destruct Hex as [[v Hv]|Ha]; [by apply elem_of_nil in Hv|done].
  - change (apply_writes (<[k := v]> a) ws !! j = Some c). apply IH.
    + by rewrite length_insert.
    + intros v' Hv'. apply Hall. by right.
    + destruct (decide (k = j)) as [->|Hne].
      * right. rewrite list_lookup_insert_eq by done. f_equal. apply Hall. by left.
      * rewrite list_lookup_insert_ne by done.
        destruct Hex as [[v' Hv']|Ha]; [left|by right].
        exists v'. apply elem_of_cons in Hv' as [Heq|Hin]; [congruence|done].
Qed.

(** Nested loops that perform the writes [W x]. *)
Lemma foldl_apply_writes {A} (W : A → list (nat * Z)) (xs : list A) a :
  foldl (λ t x, apply_writes t (W x)) a xs = apply_writes a (xs ≫= W).
Proof.
  revert a. induction xs as [|x xs IH]; intros a; simpl; [done|].
  by rewrite IH, apply_writes_app.
Qed.

Lemma fill_seq (val : nat → Z) n a :
  length a = n →
  foldl (λ t i, <[i := val i]> t) a (seq 0 n) = val <$> seq 0 n.
Proof.
  intros Hlen.
  change (foldl (λ t i, apply_writes t [(i, val i)]) a (seq 0 n) = val <$> seq 0 n).
  rewrite foldl_apply_writes. apply list_eq. intros j.
  destruct (decide (j < n)) as [Hj|Hj].
  - rewrite list_lookup_fmap, lookup_seq_lt by done. simpl.
    apply apply_writes_lookup; [lia| |].
    + intros v (i & Hi & Hv)%list_elem_of_bind.
      apply list_elem_of_singleton in Hi. by inversion Hi.
    + left. exists (val j). apply list_elem_of_bind. exists j. split.
      * by apply list_elem_of_singleton.
      * apply elem_of_seq. lia.
  - rewrite (lookup_ge_None_2 (val <$> _)) by (rewrite length_fmap, length_seq; lia).
    apply lookup_ge_None_2. rewrite apply_writes_length. lia.
Qed.

End apply_writes.

Lemma pixel_index_inj (w x y x' y' : nat) :
  x < w → x' < w → y * w + x = y' * w + x' → x = x' ∧ y = y'.
Proof.
  intros Hx Hx' Heq.
  assert (y = (y * w + x) / w) as Hy by (apply (Nat.div_unique _ _ _ x); lia).
  assert (y' = (y * w + x) / w) as Hy' by (apply (Nat.div_unique _ _ _ x'); lia).
  assert (y = y') by congruence. subst y'. lia.
Qed.

Lemma pixel_index_lt (w h x y : nat) : x < w → y < h → y * w + x < w * h.
Proof. intros Hx Hy. nia. Qed.

(** ** [blurMask]: what the loops compute *)

Section blur_loops.
Implicit Types (σ : list (list Z)) (a d t : list Z).

Lemma window_sum_cnt_ext σ σ' l l' w h r x y :
  (∀ k, rd σ l k = rd σ' l' k) →
  window_sum_cnt σ l w h r x y = window_sum_cnt σ' l' w h r x y.
Proof.
  intros Hrd. unfold window_sum_cnt.
  apply foldl_ext_in. intros acc yy _.
  apply foldl_ext_in. intros [s c] xx _. by rewrite Hrd.
Qed.

Lemma blur_pixel_insert σ tmp out w h r y x a :
  out < length σ → out ≠ tmp →
  blur_pixel tmp out w h r y (<[out := a]> σ) x
  = <[out := apply_writes a (pix_writes (window_sum_cnt σ tmp w h r) w y x)]> σ.
Proof.
  intros Hout Hne. unfold blur_pixel.
  rewrite (window_sum_cnt_ext _ σ tmp tmp) by (intros k; by apply rd_insert_ne).
  destruct (window_sum_cnt σ tmp w h r x y) as [sum cnt] eqn:Hsc.
  rewrite !wr_insert by done. unfold pix_writes. rewrite Hsc. done.
Qed.

Lemma blur_rows_insert σ tmp out w h r a :
  out < length σ → out ≠ tmp →
  foldl (λ σ y, foldl (blur_pixel tmp out w h r y) σ (seq 0 w)) (<[out := a]> σ) (seq 0 h)
  = <[out := apply_writes a
               (seq 0 h ≫= λ y, seq 0 w ≫= pix_writes (window_sum_cnt σ tmp w h r) w y)]> σ.
Proof.
  intros Hout Hne.
  rewrite (foldl_local _
    (λ y t, apply_writes t (seq 0 w ≫= pix_writes (window_sum_cnt σ tmp w h r) w y)))
    by (try done; intros a' y;
        rewrite (foldl_local _
          (λ x t, apply_writes t (pix_writes (window_sum_cnt σ tmp w h r) w y x)))
          by (try done; intros; by apply blur_pixel_insert);
        by rewrite foldl_apply_writes).
  by rewrite foldl_apply_writes.
Qed.

Lemma tmp_loop_insert σ tmp l n a :
  tmp < length σ → tmp ≠ l → length a = n →
  foldl (λ σ i, wr σ tmp i (to_u32 (rd σ l (i * 4 + 3)))) (<[tmp := a]> σ) (seq 0 n)
  = <[tmp := (λ i, to_u32 (rd σ l (i * 4 + 3))) <$> seq 0 n]> σ.
Proof.
  intros Htmp Hne Hlen.
  rewrite (foldl_local _ (λ i t, <[i := to_u32 (rd σ l (i * 4 + 3))]> t))
    by (try done; intros a' i; by rewrite wr_insert, rd_insert_ne).
  by rewrite fill_seq.
Qed.

End blur_loops.

(** [blurMask] allocates [out] and [tmp] and touches nothing else. *)
Lemma blurMask_eq (imageData : ImageData) (r : nat) (σ : list (list Z)) (d : list Z) :
  σ !! data imageData = Some d →
  blurMask imageData r σ
  = (σ ++ [blur_out (width imageData) (height imageData) r d;
           blur_tmp (width imageData) (height imageData) d],
     mkImageData (width imageData) (height imageData) (length σ)).
Proof.
  intros Hd. destruct imageData as [w h l]. simpl in *.
  assert (Hl : l < length σ) by (by eapply lookup_lt_Some).
  unfold blurMask, alloc. simpl. rewrite (len_lookup _ _ _ Hd). f_equal.
  assert (Hla : length (σ ++ [replicate (length d) 0%Z]) = S (length σ))
    by (rewrite length_app; simpl; lia).
  rewrite !Hla. clear Hla.
  set (σ2 := (σ ++ [replicate (length d) 0%Z]) ++ [replicate (w * h) 0%Z]).
  assert (Hlen2 : length σ2 = S (S (length σ))).
  { unfold σ2. rewrite !length_app. simpl. lia. }
  assert (Hd2 : ∀ k, rd σ2 l k = default 0%Z (d !! k)).
  { intros k. apply rd_lookup. unfold σ2. rewrite <- app_assoc. by apply lookup_app_l_Some. }
  assert (Ht2 : σ2 !! S (length σ) = Some (replicate (w * h) 0%Z)).
  { unfold σ2. rewrite lookup_app_r by (rewrite length_app; simpl; lia).
    rewrite length_app. simpl. by replace (S (length σ) - (length σ + 1)) with 0 by lia. }
  assert (Ho2 : σ2 !! length σ = Some (replicate (length d) 0%Z)).
  { unfold σ2. rewrite lookup_app_l by (rewrite length_app; simpl; lia).
    rewrite lookup_app_r by lia. by rewrite Nat.sub_diag. }
  rewrite <- (list_insert_id σ2 (S (length σ)) _ Ht2) at 1.
  rewrite tmp_loop_insert by (rewrite ?length_replicate; lia).
  assert (Htmp : (λ i, to_u32 (rd σ2 l (i * 4 + 3))) <$> seq 0 (w * h) = blur_tmp w h d).
  { unfold blur_tmp. apply list_fmap_ext. intros _ i _. by rewrite Hd2. }
  rewrite Htmp. set (σ3 := <[S (length σ) := blur_tmp w h d]> σ2).
  assert (Ho3 : σ3 !! length σ = Some (replicate (length d) 0%Z)).
  { unfold σ3. by rewrite list_lookup_insert_ne by lia. }
  rewrite <- (list_insert_id σ3 (length σ) _ Ho3) at 1.
  rewrite blur_rows_insert by (unfold σ3; rewrite ?length_insert; lia).
  assert (Hsc : ∀ x y, window_sum_cnt σ3 (S (length σ)) w h r x y
                       = window_sum_cnt [blur_tmp w h d] 0 w h r x y).
  { intros x y. apply window_sum_cnt_ext. intros k. unfold σ3.
    rewrite rd_insert_eq by lia. done. }
  assert (Hout : apply_writes (replicate (length d) 0%Z)
             (seq 0 h ≫= λ y, seq 0 w ≫= pix_writes (window_sum_cnt σ3 (S (length σ)) w h r) w y)
           = blur_out w h r d).
  { unfold blur_out. f_equal. apply list_bind_ext; [|done]. intros y.
    apply list_bind_ext; [|done]. intros x. unfold pix_writes. by rewrite Hsc. }
  rewrite Hout. unfold σ3, σ2. rewrite <- app_assoc. simpl.
  rewrite (insert_app_r_alt σ _ (S (length σ))) by lia.
  rewrite (insert_app_r_alt σ _ (length σ)) by lia.
  replace (S (length σ) - length σ) with 1 by lia. by rewrite Nat.sub_diag.
Qed.

(** ** [blurMask]: the returned array, byte by byte *)

Lemma elem_of_pix_writes (sc : nat → nat → Z * Z) (w h : nat) (kv : nat * Z) :
  kv ∈ (seq 0 h ≫= λ y, seq 0 w ≫= pix_writes sc w y)
  ↔ ∃ y x, y < h ∧ x < w ∧ kv ∈ pix_writes sc w y x.
Proof.
  rewrite list_elem_of_bind. split.
  - intros (y & (x & Hkv & Hx%elem_of_seq)%list_elem_of_bind & Hy%elem_of_seq).
    exists y, x. repeat split; [lia|lia|done].
  - intros (y & x & Hy & Hx & Hkv). exists y. split; [|apply elem_of_seq; lia].
    apply list_elem_of_bind. exists x. split; [done|apply elem_of_seq; lia].
Qed.

Lemma blur_out_length (w h r : nat) (d : list Z) :
  length (blur_out w h r d) = length d.
Proof. unfold blur_out. by rewrite apply_writes_length, length_replicate. Qed.

(** The alpha byte of pixel [(x, y)]. *)
Lemma blur_out_alpha (w h r : nat) (d : list Z) (x y : nat) :
  length d = 4 * (w * h) → x < w → y < h →
  blur_out w h r d !! ((y * w + x) * 4 + 3)
  = Some (clamp8 (round_div (window_sum_cnt [blur_tmp w h d] 0 w h r x y).1
                            (window_sum_cnt [blur_tmp w h d] 0 w h r x y).2)).
Proof.
  intros Hlen Hx Hy. unfold blur_out.
  pose proof (pixel_index_lt w h x y Hx Hy) as Hlt.
  apply apply_writes_lookup.
  - rewrite length_replicate. lia.
  - intros v (y' & x' & Hy' & Hx' & Hin)%elem_of_pix_writes.
    unfold pix_writes in Hin.
    rewrite !elem_of_cons, elem_of_nil in Hin.
    destruct Hin as [Hin|[Hin|[Hin|[Hin|[]]]]]; inversion Hin as [[Hk Hv]]; try lia.
    assert (y * w + x = y' * w + x') as Heq by lia.
    destruct (pixel_index_inj w x y x' y' Hx Hx' Heq) as [-> ->]. done.
  - left. eexists. apply elem_of_pix_writes. exists y, x.
    split; [done|]. split; [done|]. unfold pix_writes. do 3 right. left.
Qed.

(** The three colour bytes of every pixel. *)
Lemma blur_out_rgb (w h r : nat) (d : list Z) (j : nat) :
  j < length d → j mod 4 ≠ 3 → blur_out w h r d !! j = Some 0%Z.
Proof.
  intros Hj Hmod. unfold blur_out.
  apply apply_writes_lookup.
  - by rewrite length_replicate.
  - intros v (y' & x' & Hy' & Hx' & Hin)%elem_of_pix_writes.
    unfold pix_writes in Hin.
    rewrite !elem_of_cons, elem_of_nil in Hin.
    destruct Hin as [Hin|[Hin|[Hin|[Hin|[]]]]]; inversion Hin as [[Hk Hv]]; try done.
    exfalso. apply Hmod. rewrite Hk.
    replace ((y' * w + x') * 4 + 3) with (3 + (y' * w + x') * 4) by lia.
    by rewrite Nat.Div0.mod_add.
  - right. by apply lookup_replicate_2.
Qed.

(** ** The clipped window *)

Section window_lemmas.

Lemma omap_all_None {A B} (f : A → option B) (l : list A) :
  (∀ x, x ∈ l → f x = None) → omap f l = [].
Proof.
  induction l as [|x l IH]; intros Hf; simpl; [done|].
  rewrite (Hf x) by left. apply IH. intros x' Hx'. apply Hf. by right.
Qed.

Lemma omap_all_Some {A B} (f : A → option B) (g : A → B) (l : list A) :
  (∀ x, x ∈ l → f x = Some (g x)) → omap f l = g <$> l.
Proof.
  induction l as [|x l IH]; intros Hf; simpl; [done|].
  rewrite (Hf x) by left. simpl. f_equal. apply IH. intros x' Hx'. apply Hf. by right.
Qed.

Lemma window_axis_upto (n r x : nat) :
  x < n → window_axis n r x = upto (Nat.max 0 (x - r)) (Nat.min (n - 1) (x + r)).
Proof.
  intros Hx. unfold window_axis, upto.
  set (a := r - x). set (lo := Nat.max 0 (x - r)).
  set (m := S (Nat.min (n - 1) (x + r)) - lo).
  replace (2 * r + 1) with (a + (m + (2 * r + 1 - a - m))) by (unfold a, m, lo; lia).
  rewrite !seq_app, !omap_app. simpl.
  rewrite (omap_all_None _ (seq 0 a)); cycle 1.
  { intros k Hk%elem_of_seq. case_decide; [|done]. unfold a in *. lia. }
  rewrite (omap_all_None _ (seq (a + m) _)); cycle 1.
  { intros k Hk%elem_of_seq. case_decide; [|done]. unfold a, m, lo in *. lia. }
  rewrite (omap_all_Some _ (λ k, x + k - r) (seq a m)); cycle 1.
  { intros k Hk%elem_of_seq. case_decide.
    - f_equal. lia.
    - unfold a, m, lo in *. lia. }
  rewrite app_nil_r. simpl. apply list_eq. intros i.
  rewrite list_lookup_fmap.
  destruct (decide (i < m)) as [Hi|Hi].
  - rewrite !lookup_seq_lt by done. simpl. f_equal. unfold a, lo. lia.
  - by rewrite !lookup_seq_ge by lia.
Qed.

Lemma window_axis_0 (n x : nat) : x < n → window_axis n 0 x = [x].
Proof.
  intros Hx. unfold window_axis. simpl. case_decide; [|lia]. f_equal. f_equal. lia.
Qed.

Lemma window_axis_bound (n r x k : nat) : k ∈ window_axis n r x → k < n.
Proof.
  unfold window_axis. rewrite list_elem_of_omap.
  intros (j & _ & Hj). simpl in Hj. case_decide; [|done]. inversion Hj. lia.
Qed.

Lemma window_axis_nonempty (n r x : nat) : x < n → 0 < length (window_axis n r x).
Proof.
  intros Hx. rewrite window_axis_upto by done. unfold upto. rewrite length_seq. lia.
Qed.

Lemma elem_of_window (w h r x y : nat) (p : nat * nat) :
  p ∈ window w h r x y → p.1 < w ∧ p.2 < h.
Proof.
  unfold window. intros (yy & (xx & Hp & Hxx)%list_elem_of_bind & Hyy)%list_elem_of_bind.
  apply list_elem_of_singleton in Hp as ->. simpl.
  split; by eapply window_axis_bound.
Qed.

Lemma window_length (w h r x y : nat) :
  length (window w h r x y) = length (window_axis h r y) * length (window_axis w r x).
Proof.
  unfold window.
  assert (Hrow : ∀ (yy : nat) (xs : list nat),
             length (xs ≫= λ xx, [(xx, yy)]) = length xs).
  { intros yy xs. induction xs as [|xx xs IHx]; [done|].
    rewrite bind_cons. simpl. by rewrite IHx. }
  induction (window_axis h r y) as [|yy ys IH]; [done|].
  rewrite bind_cons, length_app, IH, Hrow. simpl. done.
Qed.

Lemma window_0 (w h x y : nat) : x < w → y < h → window w h 0 x y = [(x, y)].
Proof. intros Hx Hy. unfold window. by rewrite !window_axis_0. Qed.

End window_lemmas.


Lemma elem_of_window_axis (n r x k : nat) :
  k ∈ window_axis n r x
  ↔ k < n ∧ (Z.of_nat x - Z.of_nat r ≤ Z.of_nat k ≤ Z.of_nat x + Z.of_nat r)%Z.
Proof.
  unfold window_axis. rewrite list_elem_of_omap. split.
  - intros (j & Hj%elem_of_seq & Hk). simpl in Hk. case_decide; [|done].
    inversion Hk. lia.
  - intros [Hk Hr]. exists (Z.to_nat (Z.of_nat k - Z.of_nat x + Z.of_nat r)). split.
    + apply elem_of_seq. lia.
    + simpl. case_decide; [|lia]. f_equal. lia.
Qed.

Lemma NoDup_window_axis (n r x : nat) : x < n → NoDup (window_axis n r x).
Proof. intros Hx. rewrite window_axis_upto by done. apply NoDup_seq. Qed.

Lemma elem_of_window_iff (w h r x y xx yy : nat) :
  (xx, yy) ∈ window w h r x y ↔ xx ∈ window_axis w r x ∧ yy ∈ window_axis h r y.
Proof.
  unfold window. rewrite list_elem_of_bind. split.
  - intros (y' & (x' & Hp & Hx')%list_elem_of_bind & Hy').
    apply list_elem_of_singleton in Hp. inversion Hp. by subst.
  - intros [Hxx Hyy]. exists yy. split; [|done].
    apply list_elem_of_bind. exists xx. split; [|done]. by apply list_elem_of_singleton.
Qed.

Lemma NoDup_window (w h r x y : nat) : x < w → y < h → NoDup (window w h r x y).
Proof.
  intros Hx Hy. unfold window. apply NoDup_bind.
  - intros y1 y2 p _ _ (x1 & Hp1 & _)%list_elem_of_bind (x2 & Hp2 & _)%list_elem_of_bind.
    apply list_elem_of_singleton in Hp1, Hp2. congruence.
  - intros yy _. apply NoDup_bind.
    + intros x1 x2 p _ _ Hp1%list_elem_of_singleton Hp2%list_elem_of_singleton. congruence.
    + intros xx _. apply NoDup_singleton.
    + by apply NoDup_window_axis.
  - by apply NoDup_window_axis.
Qed.

(** ** Sums, counts and rounding *)

Lemma sumZ_app (l1 l2 : list Z) : sumZ (l1 ++ l2) = (sumZ l1 + sumZ l2)%Z.
Proof. unfold sumZ. induction l1 as [|x l1 IH]; simpl; [done|]. rewrite IH. lia. Qed.

Lemma sumZ_bytes (l : list Z) :
  Forall is_byte l → (0 ≤ sumZ l ≤ 255 * Z.of_nat (length l))%Z.
Proof.
  unfold sumZ, is_byte. induction 1 as [|x l Hx Hl IH]; simpl; lia.
Qed.

(** Closes [Forall is_byte l] for a literal list [l]. *)
Ltac solve_bytes := repeat constructor; unfold is_byte; lia.

Lemma to_u32_byte (v : Z) : is_byte v → to_u32 v = v.
Proof. unfold is_byte, to_u32. intros Hv. apply Z.mod_small. lia. Qed.

Lemma clamp8_byte (v : Z) : is_byte v → clamp8 v = v.
Proof. unfold is_byte, clamp8. lia. Qed.

Lemma clamp8_is_byte (v : Z) : is_byte (clamp8 v).
Proof. unfold is_byte, clamp8. lia. Qed.

Lemma round_div_nearest (s n : Z) :
  (0 < n)%Z →
  (2 * n * round_div s n - n ≤ 2 * s < 2 * n * round_div s n + n)%Z.
Proof.
  intros Hn. unfold round_div.
  pose proof (Z.div_mod (2 * s + n) (2 * n) ltac:(lia)) as Hdm.
  pose proof (Z.mod_pos_bound (2 * s + n) (2 * n) ltac:(lia)) as Hb.
  set (q := ((2 * s + n) / (2 * n))%Z) in *.
  set (m := ((2 * s + n) mod (2 * n))%Z) in *. nia.
Qed.

Lemma round_div_byte (s n : Z) :
  (0 < n)%Z → (0 ≤ s ≤ 255 * n)%Z → is_byte (round_div s n).
Proof.
  intros Hn Hs. pose proof (round_div_nearest s n Hn) as Hr.
  unfold is_byte. nia.
Qed.

Lemma round_div_1 (s : Z) : round_div s 1 = s.
Proof. pose proof (round_div_nearest s 1 ltac:(lia)). lia. Qed.

Lemma default_byte (d : list Z) (i : nat) :
  Forall is_byte d → is_byte (default 0%Z (d !! i)).
Proof.
  intros Hd. destruct (d !! i) as [v|] eqn:Hv; simpl.
  - by eapply Forall_lookup_1.
  - unfold is_byte. lia.
Qed.

Lemma fold_row (g : nat → Z) (X : list nat) (s c : Z) :
  foldl (λ '(sum, cnt) xx, ((sum + g xx)%Z, (cnt + 1)%Z)) (s, c) X
  = ((s + sumZ (g <$> X))%Z, (c + Z.of_nat (length X))%Z).
Proof.
  revert s c. induction X as [|x X IH]; intros s c.
  - simpl. f_equal; lia.
  - rewrite fmap_cons. cbn [foldl length]. rewrite IH.
    unfold sumZ. cbn [foldr]. f_equal; lia.
Qed.

Lemma row_fmap (g : nat * nat → Z) (X : list nat) (yy : nat) :
  g <$> (xx ← X; [(xx, yy)]) = (λ xx, g (xx, yy)) <$> X.
Proof.
  induction X as [|x X IHX]; [done|]. by rewrite bind_cons, fmap_app, IHX.
Qed.

Lemma row_length (X : list nat) (yy : nat) :
  length (xx ← X; [(xx, yy)]) = length X.
Proof.
  induction X as [|x X IHX]; [done|]. by rewrite bind_cons, length_app, IHX.
Qed.

Lemma fold_rows (g : nat * nat → Z) (Y X : list nat) (s c : Z) :
  foldl (λ acc yy, foldl (λ '(sum, cnt) xx, ((sum + g (xx, yy))%Z, (cnt + 1)%Z)) acc X)
        (s, c) Y
  = ((s + sumZ (g <$> (yy ← Y; xx ← X; [(xx, yy)])))%Z,
     (c + Z.of_nat (length (yy ← Y; xx ← X; [(xx, yy)])))%Z).
Proof.
  pose proof (row_fmap g X) as Hrow. pose proof (row_length X) as Hlen.
  revert s c. induction Y as [|y Y IH]; intros s c.
  - simpl. f_equal; lia.
  - rewrite bind_cons. cbn [foldl]. rewrite (fold_row (λ xx, g (xx, y))), IH.
    rewrite fmap_app, sumZ_app, length_app, Hrow, Hlen. f_equal; lia.
Qed.

(** ** The window of [blurMask] is the window of the specification *)

Lemma blur_tmp_lookup (w h : nat) (d : list Z) (i : nat) :
  Forall is_byte d → i < w * h →
  blur_tmp w h d !! i = Some (default 0%Z (d !! (i * 4 + 3))).
Proof.
  intros Hd Hi. unfold blur_tmp.
  rewrite list_lookup_fmap, lookup_seq_lt by done. simpl.
  by rewrite to_u32_byte by (by apply default_byte).
Qed.

Lemma window_sum_cnt_spec (w h r x y : nat) (d : list Z) :
  Forall is_byte d → x < w → y < h →
  window_sum_cnt [blur_tmp w h d] 0 w h r x y
  = (sumZ (alpha_of d w <$> window w h r x y),
     Z.of_nat (length (window w h r x y))).
Proof.
  intros Hd Hx Hy. unfold window_sum_cnt.
  rewrite <- !window_axis_upto by done.
  rewrite (foldl_ext_in _
    (λ acc yy, foldl (λ '(sum, cnt) xx, ((sum + alpha_of d w (xx, yy))%Z, (cnt + 1)%Z))
                     acc (window_axis w r x))).
  - rewrite fold_rows. unfold window. f_equal; lia.
  - intros acc yy Hyy%window_axis_bound.
    apply foldl_ext_in. intros [s c] xx Hxx%window_axis_bound.
    unfold alpha_of. simpl.
    rewrite (rd_lookup [blur_tmp w h d] 0 (blur_tmp w h d)) by done.
    rewrite blur_tmp_lookup by (try done; by apply pixel_index_lt). done.
Qed.

Lemma window_nonempty (w h r x y : nat) :
  x < w → y < h → 0 < length (window w h r x y).
Proof.
  intros Hx Hy. rewrite window_length.
  pose proof (window_axis_nonempty w r x Hx). pose proof (window_axis_nonempty h r y Hy).
  nia.
Qed.

Lemma window_alpha_bytes (w h r x y : nat) (d : list Z) :
  Forall is_byte d → Forall is_byte (alpha_of d w <$> window w h r x y).
Proof.
  intros Hd. apply Forall_fmap, Forall_forall. intros p _. by apply default_byte.
Qed.

(** The alpha byte that [blurMask] writes for the pixel [(x, y)]. *)
Lemma blurMask_alpha (imageData : ImageData) (r : nat) (σ : list (list Z)) (d : list Z)
    (x y : nat) :
  σ !! data imageData = Some d →
  is_pixels (width imageData) (height imageData) d →
  x < width imageData → y < height imageData →
  rd (blurMask imageData r σ).1 (data (blurMask imageData r σ).2)
     ((y * width imageData + x) * 4 + 3)
  = round_div (sumZ (alpha_of d (width imageData)
                       <$> window (width imageData) (height imageData) r x y))
              (Z.of_nat (length (window (width imageData) (height imageData) r x y))).
Proof.
  intros Hσ [Hlen Hd] Hx Hy. rewrite (blurMask_eq _ _ _ _ Hσ). simpl.
  erewrite rd_lookup; cycle 1.
  { rewrite lookup_app_r by lia. rewrite Nat.sub_diag. done. }
  rewrite blur_out_alpha by done. simpl.
  rewrite window_sum_cnt_spec by done. simpl.
  apply clamp8_byte, round_div_byte.
  - pose proof (window_nonempty _ _ r x y Hx Hy). lia.
  - rewrite <- (length_fmap (alpha_of d (width imageData))).
    apply sumZ_bytes. by apply window_alpha_bytes.
Qed.

(** ** Canvas bitmaps *)

Lemma lookup_bind_4 (f : nat → list Z) (n s i c : nat) :
  (∀ k, length (f k) = 4) → i < n → c < 4 →
  (seq s n ≫= f) !! (i * 4 + c) = f (s + i) !! c.
Proof.
  intros Hf. revert s i. induction n as [|n IH]; intros s i Hi Hc; [lia|].
  cbn [seq]. rewrite bind_cons. destruct i as [|i].
  - rewrite lookup_app_l by (rewrite Hf; lia). by rewrite Nat.add_0_r.
  - rewrite lookup_app_r by (rewrite Hf; lia). rewrite Hf.
    replace (S i * 4 + c - 4) with (i * 4 + c) by lia.
    rewrite IH by lia. f_equal. f_equal. lia.
Qed.

Lemma length_bind_4 (f : nat → list Z) (n s : nat) :
  (∀ k, length (f k) = 4) → length (seq s n ≫= f) = 4 * n.
Proof.
  intros Hf. revert s. induction n as [|n IH]; intros s; [done|].
  cbn [seq]. rewrite bind_cons, length_app, Hf, IH. lia.
Qed.

Lemma tabulate_px (w h : nat) (f : nat → nat → pixel) :
  px (tabulate w h f) = seq 0 (w * h) ≫= λ i, px_list (f (i mod w) (i / w)).
Proof. done. Qed.

Lemma px_list_length (p : pixel) : length (px_list p) = 4.
Proof. by destruct p as [[[r g] b] a]. Qed.

Lemma pixel_index_mod (w x y : nat) : x < w → (y * w + x) mod w = x.
Proof.
  intros Hx. rewrite Nat.add_comm, Nat.Div0.mod_add. by apply Nat.mod_small.
Qed.

Lemma pixel_index_div (w x y : nat) : x < w → (y * w + x) / w = y.
Proof.
  intros Hx. symmetry. apply (Nat.div_unique _ _ _ x); lia.
Qed.

Lemma px_at_tabulate (w h : nat) (f : nat → nat → pixel) (x y : nat) :
  x < w → y < h → px_at (tabulate w h f) x y = f x y.
Proof.
  intros Hx Hy. unfold px_at. rewrite tabulate_px. cbn [bw tabulate].
  pose proof (pixel_index_lt w h x y Hx Hy) as Hlt.
  replace ((y * w + x) * 4) with ((y * w + x) * 4 + 0) at 1 by lia.
  rewrite !(lookup_bind_4 _ _ 0) by (try lia; intros; apply px_list_length).
  cbn [Nat.add]. rewrite pixel_index_mod, pixel_index_div by done.
  by destruct (f x y) as [[[r g] b] a].
Qed.

Lemma tabulate_length (w h : nat) (f : nat → nat → pixel) :
  length (px (tabulate w h f)) = 4 * (w * h).
Proof. rewrite tabulate_px. apply length_bind_4. intros. apply px_list_length. Qed.

Lemma px_at_blank (w h x y : nat) : px_at (blank w h) x y = transparent.
Proof.
  unfold px_at, blank, transparent. cbn [px bw].
  assert (Hz : ∀ i, default 0%Z (replicate (4 * (w * h)) 0%Z !! i) = 0%Z).
  { intros i. destruct (replicate _ _ !! i) as [v|] eqn:Hv; [|done].
    apply lookup_replicate in Hv as [-> _]. done. }
  by rewrite !Hz.
Qed.

Lemma same_size_true (b : Bitmap) (w h : nat) :
  same_size b w h = true ↔ bw b = w ∧ bh b = h.
Proof.
  unfold same_size. rewrite andb_true_iff, !Nat.eqb_eq. done.
Qed.

Lemma inside_true (w h x y : nat) : x < w → y < h → inside w h x y = true.
Proof.
  intros Hx Hy. unfold inside. apply andb_true_iff. split; by apply Nat.ltb_lt.
Qed.

Lemma scaled_same (sampler : Sampler) (src : Bitmap) :
  scaled sampler src (bw src) (bh src) = src.
Proof.
  unfold scaled. by rewrite (proj2 (same_size_true src _ _)).
Qed.

Lemma scaled_same_size (sampler : Sampler) (src : Bitmap) (w h : nat) :
  bw src = w → bh src = h → scaled sampler src w h = src.
Proof. intros <- <-. apply scaled_same. Qed.

(** *** Source-over *)

Lemma round_div_half (c n : Z) : (0 < n)%Z → round_div (c * n) n = c.
Proof.
  intros Hn. pose proof (round_div_nearest (c * n) n Hn). nia.
Qed.

Lemma round_div_scale (k s n : Z) :
  (0 < k)%Z → (0 < n)%Z → round_div (k * s) (k * n) = round_div s n.
Proof.
  intros Hk Hn. unfold round_div.
  replace (2 * (k * s) + k * n)%Z with (k * (2 * s + n))%Z by lia.
  replace (2 * (k * n))%Z with (k * (2 * n))%Z by lia.
  apply Z.div_mul_cancel_l; lia.
Qed.

(** An opaque source replaces what it is drawn on. *)
Lemma source_over_opaque_src (r g b : Z) (d : pixel) :
  source_over (r, g, b, 255%Z) d = (r, g, b, 255%Z).
Proof.
  destruct d as [[[dr dg] db] da]. unfold source_over.
  replace (255 * 255 + da * (255 - 255))%Z with 65025%Z by lia.
  assert (Hmix : ∀ cs cd, round_div (255 * cs * 255 + cd * da * (255 - 255)) 65025 = cs).
  { intros cs cd. replace (255 * cs * 255 + cd * da * (255 - 255))%Z
      with (cs * 65025)%Z by lia. by apply round_div_half. }
  rewrite !Hmix. done.
Qed.

(** On an opaque backdrop the result is opaque and each colour channel
    is the interpolation of source and backdrop by the source alpha. *)
Lemma source_over_opaque_dst (sr sg sb sa dr dg db : Z) :
  source_over (sr, sg, sb, sa) (dr, dg, db, 255%Z)
  = (round_div (sr * sa + dr * (255 - sa)) 255,
     round_div (sg * sa + dg * (255 - sa)) 255,
     round_div (sb * sa + db * (255 - sa)) 255, 255%Z).
Proof.
  unfold source_over.
  replace (255 * sa + 255 * (255 - sa))%Z with (255 * 255)%Z by lia.
  assert (Hmix : ∀ cs cd, round_div (255 * cs * sa + cd * 255 * (255 - sa)) (255 * 255)
                          = round_div (cs * sa + cd * (255 - sa)) 255).
  { intros cs cd. rewrite <- (round_div_scale 255 _ 255) by lia. f_equal. lia. }
  rewrite !Hmix. done.
Qed.

(** *** Drawing on a canvas of the size of the drawn rectangle *)

Lemma px_at_ctx_drawImage (sampler : Sampler) (c src : Bitmap) (w h x y : nat) :
  bw c = w → bh c = h → x < w → y < h →
  px_at (ctx_drawImage sampler c src w h) x y
  = source_over (px_at (scaled sampler src w h) x y) (px_at c x y).
Proof.
  intros Hw Hh Hx Hy. unfold ctx_drawImage.
  rewrite px_at_tabulate by lia. by rewrite inside_true.
Qed.

Lemma px_at_ctx_fillRect (c : Bitmap) (colour : pixel) (w h x y : nat) :
  bw c = w → bh c = h → x < w → y < h →
  px_at (ctx_fillRect c colour w h) x y = source_over colour (px_at c x y).
Proof.
  intros Hw Hh Hx Hy. unfold ctx_fillRect.
  rewrite px_at_tabulate by lia. by rewrite inside_true.
Qed.

(** ** [composite] *)

Lemma fill_out_insert (σ : list (list Z)) (vd md out : nat) (a vda mda : list Z) (i : nat) :
  out < length σ → vd ≠ out → md ≠ out →
  σ !! vd = Some vda → σ !! md = Some mda →
  fill_out vd md out (<[out := a]> σ) i
  = <[out := apply_writes a (out_writes vda mda i)]> σ.
Proof.
  intros Hout Hvd Hmd Hvda Hmda. unfold fill_out.
  rewrite !wr_insert, !rd_insert_ne by done.
  by rewrite !(rd_lookup _ _ _ _ Hvda), !(rd_lookup _ _ _ _ Hmda).
Qed.

Lemma composite_eq (sampler : Sampler) (w h : nat) (bgImage : option Bitmap)
    (video : Bitmap) (finalMask : ImageData) (canvas : Bitmap) (σ : list (list Z))
    (md : list Z) :
  σ !! data finalMask = Some md →
  (composite sampler w h bgImage video finalMask canvas σ).2
  = ctx_drawImage sampler (bg_canvas sampler w h bgImage canvas)
      (mkBitmap w h (out_array w h (px (fg_canvas sampler w h video)) md)) w h.
Proof.
  intros Hmd. assert (Hl : data finalMask < length σ) by (by eapply lookup_lt_Some).
  unfold composite, ctx_getImageData, alloc_copy, alloc.
  fold (fg_canvas sampler w h video).
  assert (Hfg : same_size (fg_canvas sampler w h video) w h = true).
  { apply same_size_true. unfold fg_canvas, blank. done. }
  rewrite Hfg. cbn [data fst snd].
  set (vd := px (fg_canvas sampler w h video)).
  set (σ1 := (σ ++ [vd]) ++ [replicate (4 * (w * h)) 0%Z]).
  assert (Hlen1 : length (σ ++ [vd]) = S (length σ)) by (rewrite length_app; simpl; lia).
  rewrite Hlen1.
  assert (Ho : σ1 !! S (length σ) = Some (replicate (4 * (w * h)) 0%Z)).
  { unfold σ1. rewrite lookup_app_r by lia. rewrite Hlen1, Nat.sub_diag. done. }
  assert (Hv : σ1 !! length σ = Some vd).
  { unfold σ1. rewrite lookup_app_l by lia. rewrite lookup_app_r by lia.
    by rewrite Nat.sub_diag. }
  assert (Hm : σ1 !! data finalMask = Some md).
  { unfold σ1. rewrite <- app_assoc. by apply lookup_app_l_Some. }
  assert (Hlen : length σ1 = S (S (length σ))).
  { unfold σ1. rewrite length_app, Hlen1. simpl. lia. }
  rewrite <- (list_insert_id σ1 (S (length σ)) _ Ho).
  rewrite (foldl_local _ (λ i t, apply_writes t (out_writes vd md i)))
    by (try lia; intros a' i; apply fill_out_insert; (done || lia)).
  rewrite foldl_apply_writes. fold (out_array w h vd md).
  unfold ctx_putImageData. cbn [width height data].
  assert (Hbl : same_size (blank w h) w h = true) by (by apply same_size_true).
  rewrite Hbl, list_lookup_insert_eq by lia. simpl.
  reflexivity.
Qed.

Lemma out_array_lookup (w h : nat) (vd md : list Z) (i c : nat) :
  i < w * h → c < 4 →
  out_array w h vd md !! (i * 4 + c)
  = Some (clamp8 (default 0%Z ((if decide (c = 3) then md else vd) !! (i * 4 + c)))).
Proof.
  intros Hi Hc. unfold out_array. apply apply_writes_lookup.
  - rewrite length_replicate. lia.
  - intros v (i' & Hin & _)%list_elem_of_bind. unfold out_writes in Hin.
    rewrite !elem_of_cons, elem_of_nil in Hin.
    destruct Hin as [Hin|[Hin|[Hin|[Hin|[]]]]]; inversion Hin as [[Hk Hv]];
      assert (i' = i) as -> by lia.
    + assert (c = 0) as -> by lia. simpl. by rewrite Nat.add_0_r.
    + assert (c = 1) as -> by lia. done.
    + assert (c = 2) as -> by lia. done.
    + assert (c = 3) as -> by lia. done.
  - left. exists (clamp8 (default 0%Z ((if decide (c = 3) then md else vd) !! (i * 4 + c)))).
    apply list_elem_of_bind. exists i. split; [|apply elem_of_seq; lia].
    unfold out_writes. rewrite !elem_of_cons.
    destruct c as [|[|[|[|c]]]]; [| | | |lia]; simpl; rewrite ?Nat.add_0_r; tauto.
Qed.

(** The pixels of the image [out]: colours of the foreground, alpha of
    the mask. *)
Lemma px_at_out (w h : nat) (fg : Bitmap) (md : list Z) (x y : nat) :
  bw fg = w → x < w → y < h →
  px_at (mkBitmap w h (out_array w h (px fg) md)) x y
  = (clamp8 (red (px_at fg x y)), clamp8 (green (px_at fg x y)),
     clamp8 (blue (px_at fg x y)), clamp8 (alpha_of md w (x, y))).
Proof.
  intros Hw Hx Hy. pose proof (pixel_index_lt w h x y Hx Hy) as Hlt.
  unfold px_at at 1. cbn [bw px].
  replace ((y * w + x) * 4) with ((y * w + x) * 4 + 0) at 1 by lia.
  rewrite !out_array_lookup by lia. simpl.
  unfold px_at, red, green, blue, alpha_of. rewrite Hw. simpl.
  by rewrite Nat.add_0_r.
Qed.

Lemma px_at_bytes (b : Bitmap) (x y : nat) :
  wf_bitmap b →
  is_byte (red (px_at b x y)) ∧ is_byte (green (px_at b x y))
  ∧ is_byte (blue (px_at b x y)) ∧ is_byte (alpha (px_at b x y)).
Proof.
  intros [_ Hb]. unfold px_at, red, green, blue, alpha. simpl.
  repeat split; by apply default_byte.
Qed.

Lemma pixel_eta (p : pixel) : p = (red p, green p, blue p, alpha p).
Proof. by destruct p as [[[r g] b] a]. Qed.

(** Drawing an opaque image of the size of a transparent canvas copies
    it. *)
Lemma px_at_draw_opaque (sampler : Sampler) (c src : Bitmap) (w h x y : nat) :
  bw c = w → bh c = h → bw src = w → bh src = h → opaque src →
  x < w → y < h →
  px_at (ctx_drawImage sampler c src w h) x y = px_at src x y.
Proof.
  intros Hcw Hch Hsw Hsh Hop Hx Hy.
  rewrite px_at_ctx_drawImage by done. rewrite scaled_same_size by done.
  rewrite (pixel_eta (px_at src x y)).
  unfold alpha. rewrite (Hop x y) by lia. apply source_over_opaque_src.
Qed.

Lemma fg_canvas_pixel (sampler : Sampler) (w h : nat) (video : Bitmap) (x y : nat) :
  is_frame w h video → x < w → y < h →
  px_at (fg_canvas sampler w h video) x y = px_at video x y.
Proof.
  intros (Hw & Hh & _ & Hop) Hx Hy. unfold fg_canvas.
  by apply px_at_draw_opaque.
Qed.

Lemma bg_canvas_size (sampler : Sampler) (w h : nat) (bgImage : option Bitmap)
    (canvas : Bitmap) :
  bw (bg_canvas sampler w h bgImage canvas) = bw canvas
  ∧ bh (bg_canvas sampler w h bgImage canvas) = bh canvas.
Proof. by destruct bgImage. Qed.

Lemma bg_canvas_pixel (sampler : Sampler) (w h : nat) (bgImage : option Bitmap)
    (canvas : Bitmap) (x y : nat) :
  bw canvas = w → bh canvas = h → bg_fits w h bgImage → x < w → y < h →
  px_at (bg_canvas sampler w h bgImage canvas) x y = bg_pixel bgImage x y
  ∧ alpha (bg_pixel bgImage x y) = 255%Z.
Proof.
  intros Hw Hh Hbg Hx Hy. destruct bgImage as [img|]; simpl in *.
  - destruct Hbg as (Hiw & Hih & Hop). split.
    + by apply px_at_draw_opaque.
    + apply (Hop x y); lia.
  - split; [|done]. rewrite px_at_ctx_fillRect by done.
    apply source_over_opaque_src.
Qed.

(** Every pixel of the output of [composite] is the current video pixel,
    with the alpha of the mask, drawn over the background. *)
Lemma composite_pixel (sampler : Sampler) (w h : nat) (bgImage : option Bitmap)
    (video : Bitmap) (finalMask : ImageData) (canvas : Bitmap) (σ : list (list Z))
    (md : list Z) (x y : nat) :
  σ !! data finalMask = Some md → is_pixels w h md → is_frame w h video →
  bw canvas = w → bh canvas = h → x < w → y < h →
  px_at (composite sampler w h bgImage video finalMask canvas σ).2 x y
  = source_over (red (px_at video x y), green (px_at video x y),
                 blue (px_at video x y), alpha_of md w (x, y))
                (px_at (bg_canvas sampler w h bgImage canvas) x y).
Proof.
  intros Hσ [Hlen Hmd] Hfr Hw Hh Hx Hy.
  rewrite (composite_eq _ _ _ _ _ _ _ _ _ Hσ).
  pose proof (bg_canvas_size sampler w h bgImage canvas) as [Hbw Hbh].
  rewrite px_at_ctx_drawImage by congruence. f_equal.
  replace (scaled sampler _ w h)
    with (mkBitmap w h (out_array w h (px (fg_canvas sampler w h video)) md)).
  2:{ unfold scaled, same_size. cbn [bw bh]. by rewrite !Nat.eqb_refl. }
  rewrite px_at_out by done. rewrite fg_canvas_pixel by done.
  destruct Hfr as (_ & _ & Hwf & _).
  destruct (px_at_bytes video x y Hwf) as (Hr & Hg & Hb & _).
  rewrite !clamp8_byte by (done || by apply default_byte). done.
Qed.

(** ** [reconcile_mask] *)

Lemma reconcile_mask_eq (sampler : Sampler) (w h : nat) (maskImageData : ImageData)
    (σ : list (list Z)) (d : list Z) :
  σ !! data maskImageData = Some d →
  reconcile_mask sampler w h maskImageData σ
  = blurMask (mkImageData w h (length σ)) 1
      (σ ++ [reconcile_input sampler w h
               (mkBitmap (width maskImageData) (height maskImageData) d)]).
Proof.
  intros Hσ. destruct maskImageData as [mw mh l]. cbn [width height data] in *.
  unfold reconcile_mask, ctx_putImageData, reconcile_input. cbn [width height data].
  assert (Hbl : same_size (blank mw mh) mw mh = true) by (by apply same_size_true).
  rewrite Hbl, Hσ. cbn [default from_option id bw bh].
  unfold same_size at 1. cbn [bw bh].
  destruct (mw =? w) eqn:Hw; destruct (mh =? h) eqn:Hh; cbn [negb orb andb];
    unfold ctx_getImageData, alloc_copy.
  - apply Nat.eqb_eq in Hw, Hh. subst mw mh.
    assert (Hs : same_size (mkBitmap w h d) w h = true) by (by apply same_size_true).
    by rewrite Hs.
  - assert (Hs : same_size (ctx_drawImage sampler (blank w h) (mkBitmap mw mh d) w h) w h
                 = true) by (by apply same_size_true).
    by rewrite Hs.
  - assert (Hs : same_size (ctx_drawImage sampler (blank w h) (mkBitmap mw mh d) w h) w h
                 = true) by (by apply same_size_true).
    by rewrite Hs.
  - assert (Hs : same_size (ctx_drawImage sampler (blank w h) (mkBitmap mw mh d) w h) w h
                 = true) by (by apply same_size_true).
    by rewrite Hs.
Qed.

Lemma reconcile_input_length (sampler : Sampler) (w h : nat) (m : Bitmap) :
  wf_bitmap m → length (reconcile_input sampler w h m) = 4 * (w * h).
Proof.
  intros [Hlen _]. unfold reconcile_input.
  destruct (same_size m w h) eqn:Hs.
  - apply same_size_true in Hs as [<- <-]. done.
  - unfold ctx_drawImage. cbn [bw bh blank]. apply tabulate_length.
Qed.

Lemma sumZ_const (A : Type) (f : A → Z) (c : Z) (l : list A) :
  (∀ x, x ∈ l → f x = c) → sumZ (f <$> l) = (c * Z.of_nat (length l))%Z.
Proof.
  intros Hf. induction l as [|x l IH]; [simpl; lia|].
  rewrite fmap_cons. unfold sumZ in *. cbn [foldr length].
  rewrite IH by (intros x' Hx'; apply Hf; by right).
  rewrite (Hf x) by left. lia.
Qed.

(** ** A whole cycle *)

Lemma draw_cycle_eq (sampler : Sampler) (w h : nat) (bgImage : option Bitmap)
    (video m canvas : Bitmap) :
  draw_cycle sampler w h bgImage video m canvas
  = (composite sampler w h bgImage video (mkImageData w h 2) canvas
       [px m; reconcile_input sampler w h m;
        blur_out w h 1 (reconcile_input sampler w h m);
        blur_tmp w h (reconcile_input sampler w h m)]).2.
Proof.
  unfold draw_cycle, mask_image, alloc_copy. cbn [app length].
  rewrite (reconcile_mask_eq sampler w h _ [px m] (px m)) by done.
  cbn [width height length app].
  rewrite (blurMask_eq _ 1 _ (reconcile_input sampler w h
             (mkBitmap (bw m) (bh m) (px m)))) by done.
  cbn [width height length app]. by destruct m.
Qed.

Lemma blur_out_bytes (w h r : nat) (d : list Z) : Forall is_byte (blur_out w h r d).
Proof.
  unfold blur_out.
  set (ws := seq 0 h ≫= _).
  assert (Hws : ∀ kv, kv ∈ ws → is_byte kv.2).
  { intros [k v] (y & (x & Hin & _)%list_elem_of_bind & _)%list_elem_of_bind.
    unfold pix_writes in Hin. rewrite !elem_of_cons, elem_of_nil in Hin.
    destruct Hin as [Hin|[Hin|[Hin|[Hin|[]]]]]; inversion Hin; apply clamp8_is_byte. }
  assert (Hinit : Forall is_byte (replicate (length d) 0%Z)).
  { apply Forall_replicate. unfold is_byte. lia. }
  revert Hinit. generalize (replicate (length d) 0%Z). clearbody ws.
  induction ws as [|[k v] ws IH]; intros a Ha; [done|].
  change (Forall is_byte (apply_writes (<[k := v]> a) ws)). apply IH.
  - intros kv Hkv. apply Hws. by right.
  - apply Forall_insert; [done|]. apply (Hws (k, v)). by left.
Qed.

(** Every pixel a cycle draws: the current video pixel, with the blurred
    alpha of the mask, over the background. *)
Lemma draw_cycle_pixel (sampler : Sampler) (w h : nat) (bgImage : option Bitmap)
    (video m canvas : Bitmap) (x y : nat) :
  wf_bitmap m → is_frame w h video → bw canvas = w → bh canvas = h →
  x < w → y < h →
  px_at (draw_cycle sampler w h bgImage video m canvas) x y
  = source_over
      (red (px_at video x y), green (px_at video x y), blue (px_at video x y),
       alpha_of (blur_out w h 1 (reconcile_input sampler w h m)) w (x, y))
      (px_at (bg_canvas sampler w h bgImage canvas) x y).
Proof.
  intros Hm Hfr Hw Hh Hx Hy. rewrite draw_cycle_eq.
  apply composite_pixel; try done. split.
  - rewrite blur_out_length. by apply reconcile_input_length.
  - apply blur_out_bytes.
Qed.

(** Blurring a mask whose alpha is [c] everywhere leaves it so. *)
Lemma blur_out_const_alpha (w h r : nat) (d : list Z) (c : Z) (x y : nat) :
  is_pixels w h d →
  (∀ x y, x < w → y < h → alpha_of d w (x, y) = c) →
  x < w → y < h →
  alpha_of (blur_out w h r d) w (x, y) = c.
Proof.
  intros [Hlen Hd] Hc Hx Hy. unfold alpha_of at 1. cbn [fst snd].
  rewrite blur_out_alpha by done. cbn [default from_option id].
  rewrite window_sum_cnt_spec by done. cbn [fst snd].
  rewrite (sumZ_const _ _ c).
  - rewrite round_div_half by (pose proof (window_nonempty w h r x y Hx Hy); lia).
    apply clamp8_byte. rewrite <- (Hc x y Hx Hy). by apply default_byte.
  - intros [xx yy] [Hxx Hyy]%elem_of_window. by apply Hc.
Qed.

Lemma reconcile_input_same (sampler : Sampler) (w h : nat) (m : Bitmap) :
  bw m = w → bh m = h → reconcile_input sampler w h m = px m.
Proof.
  intros Hw Hh. unfold reconcile_input.
  by rewrite (proj2 (same_size_true m w h)).
Qed.

(** ** [enhanceGamma] *)

Lemma gamma_upto_lookup_ge (k : nat) (a : list Z) (j : nat) :
  4 * k ≤ j → gamma_upto k a !! j = a !! j.
Proof.
  intros Hj. unfold gamma_upto. rewrite list_lookup_imap.
  destruct (a !! j) as [v|]; [|done]. cbn [fmap option_fmap option_map].
  case_decide; [lia|done].
Qed.

Lemma gamma_px_step_upto (k : nat) (a : list Z) :
  gamma_px_step k (gamma_upto k a) = gamma_upto (S k) a.
Proof.
  unfold gamma_px_step.
  rewrite (list_lookup_insert_ne _ (4 * k + 1) (4 * k + 2)) by lia.
  rewrite (list_lookup_insert_ne _ (4 * k + 0) (4 * k + 2)) by lia.
  rewrite (list_lookup_insert_ne _ (4 * k + 0) (4 * k + 1)) by lia.
  rewrite !gamma_upto_lookup_ge by lia.
  assert (Hlen : length (gamma_upto k a) = length a) by apply length_imap.
  assert (Hm : ∀ c, c < 4 → (4 * k + c) mod 4 = c).
  { intros c Hc. rewrite Nat.add_comm, (Nat.mul_comm 4 k), Nat.Div0.mod_add.
    by apply Nat.mod_small. }
  pose proof (Hm 0 ltac:(lia)) as Hm0. pose proof (Hm 1 ltac:(lia)) as Hm1.
  pose proof (Hm 2 ltac:(lia)) as Hm2. pose proof (Hm 3 ltac:(lia)) as Hm3.
  apply list_eq. intros j.
  destruct (decide (j = 4 * k + 3)) as [->|Hj3].
  { rewrite !list_lookup_insert_ne by lia. unfold gamma_upto.
    rewrite !list_lookup_imap. destruct (a !! _); [|done].
    cbn [fmap option_fmap option_map].
    repeat case_decide; try done; lia. }
  rewrite !list_lookup_insert, !length_insert, Hlen.
  unfold gamma_upto. rewrite !list_lookup_imap.
  destruct (a !! j) as [v|] eqn:Hv.
  - apply lookup_lt_Some in Hv as Hlt. cbn [fmap option_fmap option_map].
    repeat case_decide; destruct_and?; subst; try done; try lia;
      rewrite ?Hv; try done; lia.
  - apply lookup_ge_None in Hv as Hge. cbn [fmap option_fmap option_map].
    repeat case_decide; destruct_and?; subst; try done; lia.
Qed.

Lemma gamma_loop (n : nat) (a : list Z) :
  foldl (λ t p, gamma_px_step p t) a (seq 0 n) = gamma_upto n a.
Proof.
  induction n as [|n IH].
  - simpl. unfold gamma_upto. apply list_eq. intros j. rewrite list_lookup_imap.
    destruct (a !! j); [|done]. cbn [fmap option_fmap option_map].
    case_decide; [lia|done].
  - rewrite seq_S, foldl_app, IH. simpl. apply gamma_px_step_upto.
Qed.

Lemma gamma_upto_all (a : list Z) :
  gamma_upto ((length a + 3) / 4) a = gamma_array a.
Proof.
  unfold gamma_upto, gamma_array. apply list_eq. intros j.
  rewrite !list_lookup_imap. destruct (a !! j) as [v|] eqn:Hv; [|done].
  cbn [fmap option_fmap option_map]. apply lookup_lt_Some in Hv.
  assert (j < 4 * ((length a + 3) / 4)).
  { pose proof (Nat.div_mod (length a + 3) 4 ltac:(lia)).
    pose proof (Nat.mod_upper_bound (length a + 3) 4 ltac:(lia)). lia. }
  repeat case_decide; try done; tauto.
Qed.

(** [enhanceGamma] rewrites the array of its argument in place and
    touches nothing else. *)
Lemma enhanceGamma_eq (imageData : ImageData) (σ : list (list Z)) (a : list Z) :
  σ !! data imageData = Some a →
  enhanceGamma imageData σ = (<[data imageData := gamma_array a]> σ, imageData).
Proof.
  intros Hσ. assert (Hl : data imageData < length σ) by (by eapply lookup_lt_Some).
  unfold enhanceGamma. f_equal. rewrite (len_lookup _ _ _ Hσ).
  rewrite <- (list_insert_id σ _ _ Hσ) at 1.
  rewrite (foldl_local _ gamma_px_step); [by rewrite gamma_loop, gamma_upto_all|done|].
  intros a' p. cbn [seq foldl].
  rewrite wr_insert, rd_insert_eq by done.
  rewrite wr_insert, rd_insert_eq by done.
  rewrite wr_insert, rd_insert_eq by done.
  done.
Qed.

Lemma enhance_offscreen_eq (off : Bitmap) (w h : nat) :
  bw off = w → bh off = h →
  enhance_offscreen off w h = mkBitmap w h (gamma_array (px off)).
Proof.
  intros Hw Hh. unfold enhance_offscreen, ctx_getImageData, alloc_copy.
  rewrite (proj2 (same_size_true off w h)) by done. cbn [app length].
  rewrite (enhanceGamma_eq _ _ (px off)) by done.
  unfold ctx_putImageData. cbn [width height data].
  by rewrite (proj2 (same_size_true off w h)) by done.
Qed.

Lemma gamma_array_lookup (a : list Z) (j : nat) :
  default 0%Z (gamma_array a !! j)
  = if decide (j mod 4 ≠ 3) then clamp8 (gamma_byte (default 0%Z (a !! j)))
    else default 0%Z (a !! j).
Proof.
  unfold gamma_array. rewrite list_lookup_imap.
  destruct (a !! j) as [v|]; cbn [fmap option_fmap option_map default from_option id];
    case_decide; done.
Qed.

(** Pixel by pixel: the colours of the working copy are the colours of
    the frame on the gamma curve. *)
Lemma px_at_gamma (w h : nat) (a : list Z) (x y : nat) :
  px_at (mkBitmap w h (gamma_array a)) x y
  = (clamp8 (gamma_byte (red (px_at (mkBitmap w h a) x y))),
     clamp8 (gamma_byte (green (px_at (mkBitmap w h a) x y))),
     clamp8 (gamma_byte (blue (px_at (mkBitmap w h a) x y))),
     alpha (px_at (mkBitmap w h a) x y)).
Proof.
  unfold px_at, red, green, blue, alpha. cbn [bw px fst snd].
  rewrite !gamma_array_lookup.
  set (i := y * w + x).
  assert (H0 : (i * 4) mod 4 = 0) by (by rewrite Nat.Div0.mod_mul).
  assert (H1 : (i * 4 + 1) mod 4 = 1)
    by (rewrite Nat.add_comm, Nat.Div0.mod_add; done).
  assert (H2 : (i * 4 + 2) mod 4 = 2)
    by (rewrite Nat.add_comm, Nat.Div0.mod_add; done).
  assert (H3 : (i * 4 + 3) mod 4 = 3)
    by (rewrite Nat.add_comm, Nat.Div0.mod_add; done).
  rewrite H0, H1, H2, H3. repeat case_decide; done.
Qed.

Lemma gamma_byte_is_byte (v : Z) : is_byte (gamma_byte v).
Proof.
  unfold gamma_byte, is_byte.
  pose proof (length_filter (λ k : nat, ((2 * Z.of_nat k + 1) ^ 3 <=? 2040 * v * v)%Z)
                            (seq 0 255)) as Hle.
  rewrite length_seq in Hle. lia.
Qed.

(** ** The component *)

Lemma processFrame_control (sampler : Sampler) (s : State) :
  control (processFrame sampler s) = control s.
Proof.
  unfold processFrame.
  destruct (negb (runningRef s)); [done|].
  destruct (negb (mounted s) || negb (segmenterRef s) || (bw (video s) =? 0)); [done|].
  done.
Qed.

Lemma processFrame_video (sampler : Sampler) (s : State) :
  video (processFrame sampler s) = video s
  ∧ bgImageRef (processFrame sampler s) = bgImageRef s
  ∧ enhanceRef (processFrame sampler s) = enhanceRef s
  ∧ console (processFrame sampler s) = console s.
Proof.
  unfold processFrame.
  destruct (negb (runningRef s)); [done|].
  destruct (negb (mounted s) || negb (segmenterRef s) || (bw (video s) =? 0)); [done|].
  done.
Qed.

Lemma processFrame_idle (sampler : Sampler) (s : State) :
  cycle_starts s = false → processFrame sampler s = s.
Proof.
  unfold cycle_starts, processFrame.
  destruct (runningRef s), (mounted s), (segmenterRef s), (bw (video s) =? 0); done.
Qed.

Lemma processFrame_starts (sampler : Sampler) (s : State) :
  cycle_starts s = true →
  canvas (processFrame sampler s) = blank (bw (video s)) (bh (video s))
  ∧ inflight (processFrame sampler s)
    = inflight s ++ [mkCycle (bw (video s)) (bh (video s))]
  ∧ offscreen (processFrame sampler s)
    = match enhanceRef s with
      | gamma => enhance_offscreen
                   (fg_canvas sampler (bw (video s)) (bh (video s)) (video s))
                   (bw (video s)) (bh (video s))
      | none => fg_canvas sampler (bw (video s)) (bh (video s)) (video s)
      end.
Proof.
  unfold cycle_starts, processFrame.
  destruct (runningRef s), (mounted s), (segmenterRef s), (bw (video s) =? 0); try done.
Qed.

Lemma run_cycle_control (sampler : Sampler) (cyc : Cycle) (o : Outcome) (s : State) :
  control (run_cycle sampler cyc o s).1 = control s
  ∧ video (run_cycle sampler cyc o s).1 = video s
  ∧ (run_cycle sampler cyc o s).2 = Normal.
Proof. unfold run_cycle. by destruct o. Qed.

Lemma loop_effect_rafPending (s : State) :
  rafPending (loop_effect s) = canRun (loop_effect s)
  ∧ modelStatus (loop_effect s) = modelStatus s
  ∧ running (loop_effect s) = running s
  ∧ runningRef (loop_effect s) = runningRef s
  ∧ videoReadyRef (loop_effect s) = videoReadyRef s
  ∧ mounted (loop_effect s) = mounted s.
Proof.
  unfold loop_effect, canRun.
  destruct (modelStatus s) eqn:Hm, (videoReadyRef s) eqn:Hv, (running s) eqn:Hr;
    cbn; rewrite ?Hm, ?Hv, ?Hr; cbn; rewrite ?Hm, ?Hv, ?Hr; done.
Qed.

Lemma loop_effect_eq (s : State) : loop_effect s = set_rafPending (canRun s) s.
Proof.
  unfold loop_effect, canRun.
  destruct (modelStatus s) eqn:Hm, (videoReadyRef s) eqn:Hv, (running s) eqn:Hr;
    cbn; rewrite ?Hm, ?Hv, ?Hr; cbn; rewrite ?Hm, ?Hv, ?Hr; done.
Qed.

(** The gate is true exactly when all three conditions hold. *)
Lemma canRun_true (s : State) :
  canRun s = true ↔ modelStatus s = ready ∧ videoReadyRef s = true ∧ running s = true.
Proof.
  unfold canRun.
  destruct (modelStatus s), (videoReadyRef s), (running s); cbn;
    split; try done; intros (? & ? & ?); done.
Qed.

Lemma step_inv (sampler : Sampler) (s : State) (e : Event) :
  loop_inv s → loop_inv (step sampler s e).1.
Proof.
  intros Hinv.
  assert (Hctl : ∀ s', control s' = control s → loop_inv s').
  { intros s' Hc. unfold control in Hc. inversion Hc as [[H1 H2 H3 H4 H5 H6 H7]].
    unfold loop_inv, canRun in *. rewrite H2, H3, H4, H5, H7. done. }
  destruct e; unfold step.
  10:{ (* AnimationFrame *)
    destruct (rafPending s); cbn [fst]; [|done].
    apply Hctl, processFrame_control. }
  10:{ (* Resolve *)
    destruct (inflight s !! k) as [cyc|]; [|done].
    apply Hctl.
    by destruct (run_cycle_control sampler cyc o (set_inflight (delete k (inflight s)) s))
      as (-> & _ & _). }
  all: destruct s as [s_mo s_ms s_r s_rr s_vr s_en s_sg s_bg s_v s_c s_o s_rp
                        s_inf s_con s_tf];
    unfold loop_inv, canRun, loop_effect in *; cbn in *;
    destruct s_mo, s_ms, s_r, s_rr, s_vr, s_rp; cbn in *;
    try (destruct (bw s_v =? 0); cbn); intuition congruence.
Qed.

Lemma initial_inv : loop_inv initial.
Proof. done. Qed.

Lemma run_inv (sampler : Sampler) (s : State) (tr : list Event) :
  loop_inv s → loop_inv (run sampler s tr).
Proof.
  revert s. induction tr as [|e tr IH]; intros s Hs; [done|].
  apply IH. by apply step_inv.
Qed.

(** What the settling of an in-flight cycle does to the output canvas. *)
Lemma resolve_canvas (sampler : Sampler) (s : State) (k : nat) (cyc : Cycle)
    (o : Outcome) :
  inflight s !! k = Some cyc →
  canvas (step sampler s (Resolve k o)).1
  = match o with
    | MaskData m =>
        draw_cycle sampler (cyc_width cyc) (cyc_height cyc) (bgImageRef s) (video s)
                   m (canvas s)
    | _ => canvas s
    end.
Proof.
  intros Hk. unfold step. rewrite Hk. unfold run_cycle. by destruct o.
Qed.

(** No event lets an exception or a rejected promise through. *)
Lemma step_completes (sampler : Sampler) (s : State) (e : Event) :
  (step sampler s e).2 = Normal.
Proof.
  destruct e; unfold step; try done; repeat case_match; try done.
  match goal with |- (run_cycle ?a ?b ?c ?d).2 = _ =>
    by destruct (run_cycle_control a b c d) as (_ & _ & ->) end.
Qed.
(** ** The gamma curve *)

Section gamma_curve.
Local Open Scope Z_scope.

Lemma cube_lt_mono (a b : Z) : a < b → a ^ 3 < b ^ 3.
Proof.
  intros H.
  assert (E : 4 * (b ^ 3 - a ^ 3) = (b - a) * ((2 * a + b) ^ 2 + 3 * b ^ 2)) by ring.
  assert (0 < (2 * a + b) ^ 2 + 3 * b ^ 2).
  { destruct (decide (b = 0)) as [->|Hb].
    - assert (0 < (2 * a) ^ 2) by nia. lia.
    - assert (0 < b ^ 2) by nia. assert (0 ≤ (2 * a + b) ^ 2) by nia. lia. }
  assert (0 < (b - a) * ((2 * a + b) ^ 2 + 3 * b ^ 2)) by (apply Z.mul_pos_pos; lia).
  lia.
Qed.

Lemma cube_le_mono (a b : Z) : a ≤ b → a ^ 3 ≤ b ^ 3.
Proof.
  intros H. destruct (decide (a = b)) as [->|]; [lia|].
  apply Z.lt_le_incl, cube_lt_mono. lia.
Qed.

End gamma_curve.

(** The number of naturals below [m] in a downward-closed set is the
    least natural outside the set, or [m]. *)
Lemma filter_prefix_length (P : nat → Prop) `{!∀ k, Decision (P k)} (m : nat) :
  (∀ i j, i ≤ j → P j → P i) →
  (∀ k, k < length (filter P (seq 0 m)) → P k)
  ∧ (∀ k, length (filter P (seq 0 m)) ≤ k → k < m → ¬ P k)
  ∧ length (filter P (seq 0 m)) ≤ m.
Proof.
  intros Hdown. induction m as [|m (IH1 & IH2 & IH3)].
  - simpl. repeat split; intros; lia.
  - rewrite seq_S, filter_app, length_app. simpl.
    rewrite filter_cons, filter_nil.
    destruct (decide (P m)) as [HP|HP]; simpl.
    + assert (length (filter P (seq 0 m)) = m) as Hn.
      { destruct (decide (length (filter P (seq 0 m)) = m)); [done|].
        exfalso. apply (IH2 (length (filter P (seq 0 m)))); [lia|lia|].
        apply (Hdown _ m); [lia|done]. }
      rewrite Hn. repeat split; intros; try lia.
      apply (Hdown _ m); [lia|done].
    + rewrite Nat.add_0_r. repeat split.
      * done.
      * intros k Hk Hkm. destruct (decide (k = m)) as [->|]; [done|].
        apply IH2; lia.
      * lia.
Qed.

(** [gamma_byte v] is within one half of the cube root of [255 * v^2]
    and needs no clamping. *)
Lemma gamma_byte_bounds (v : Z) :
  (0 ≤ v ≤ 255)%Z →
  ((2 * gamma_byte v - 1) ^ 3 ≤ 2040 * v * v < (2 * gamma_byte v + 1) ^ 3)%Z
  ∧ (0 ≤ gamma_byte v ≤ 255)%Z.
Proof.
  intros Hv. unfold gamma_byte.
  set (P := λ k : nat, Is_true ((2 * Z.of_nat k + 1) ^ 3 <=? 2040 * v * v)%Z).
  destruct (filter_prefix_length P 255) as (H1 & H2 & H3).
  { intros i j Hij. unfold P. rewrite !Is_true_true, !Z.leb_le. intros Hj.
    etrans; [|exact Hj]. apply cube_le_mono. lia. }
  set (n := length (filter P (seq 0 255))) in *.
  split; [|lia]. split.
  - destruct n as [|n'].
    + change ((2 * 0 - 1) ^ 3)%Z with (-1)%Z. nia.
    + specialize (H1 n' ltac:(lia)). unfold P in H1.
      rewrite Is_true_true, Z.leb_le in H1.
      replace (2 * Z.of_nat (S n') - 1)%Z with (2 * Z.of_nat n' + 1)%Z by lia. done.
  - destruct (decide (n = 255)) as [Hn|Hn].
    + rewrite Hn. change ((2 * Z.of_nat 255 + 1) ^ 3)%Z with 133432831%Z. nia.
    + specialize (H2 n ltac:(lia) ltac:(lia)). unfold P in H2.
      rewrite Is_true_true, Z.leb_le in H2. lia.
Qed.

Lemma gamma_byte_mono (u v : Z) :
  (0 ≤ u ≤ v)%Z → (v ≤ 255)%Z → (gamma_byte u ≤ gamma_byte v)%Z.
Proof.
  intros Hu Hv.
  destruct (gamma_byte_bounds u ltac:(lia)) as [[Hlo _] _].
  destruct (gamma_byte_bounds v ltac:(lia)) as [[_ Hhi] _].
  destruct (Z_lt_le_dec (gamma_byte v) (gamma_byte u)) as [Hlt|]; [exfalso|done].
  assert ((2 * gamma_byte v + 1) ^ 3 ≤ (2 * gamma_byte u - 1) ^ 3)%Z
    by (apply cube_le_mono; lia).
  nia.
Qed.

Lemma gamma_byte_ge (v : Z) : (0 ≤ v ≤ 255)%Z → (v ≤ gamma_byte v)%Z.
Proof.
  intros Hv. destruct (gamma_byte_bounds v Hv) as [[_ Hhi] _].
  destruct (Z_lt_le_dec (gamma_byte v) v) as [Hlt|]; [exfalso|done].
  assert ((2 * gamma_byte v + 1) ^ 3 ≤ (2 * v - 1) ^ 3)%Z by (apply cube_le_mono; lia).
  assert ((2 * v - 1) ^ 3 ≤ 2040 * v * v)%Z; [|lia].
  replace ((2 * v - 1) ^ 3)%Z with (8 * v * v * v - 12 * v * v + 6 * v - 1)%Z by ring.
  nia.
Qed.

Lemma gamma_byte_gt (v : Z) : (1 ≤ v ≤ 253)%Z → (v < gamma_byte v)%Z.
Proof.
  intros Hv. destruct (gamma_byte_bounds v ltac:(lia)) as [[Hlo Hhi] _].
  destruct (Z_lt_le_dec v (gamma_byte v)) as [|Hle]; [done|exfalso].
  assert ((2 * gamma_byte v - 1) ^ 3 ≤ (2 * v - 1) ^ 3)%Z by (apply cube_le_mono; lia).
  assert (2040 * v * v < (2 * v + 1) ^ 3)%Z.
  { eapply Z.lt_le_trans; [exact Hhi|]. apply cube_le_mono. lia. }
  assert ((2 * v + 1) ^ 3 ≤ 2040 * v * v)%Z; [|lia].
  replace ((2 * v + 1) ^ 3)%Z with (8 * v * v * v + 12 * v * v + 6 * v + 1)%Z by ring.
  nia.
Qed.
(** ** Means of bounded samples *)

Lemma sumZ_bounds (l : list Z) (lo hi : Z) :
  Forall (λ v, (lo ≤ v ≤ hi)%Z) l →
  (lo * Z.of_nat (length l) ≤ sumZ l ≤ hi * Z.of_nat (length l))%Z.
Proof.
  induction 1 as [|v l Hv _ IH]; [simpl; lia|].
  cbn [sumZ foldr length]. fold (sumZ l). lia.
Qed.

Lemma sumZ_le (A : Type) (f g : A → Z) (l : list A) :
  (∀ x, x ∈ l → (f x ≤ g x)%Z) → (sumZ (f <$> l) ≤ sumZ (g <$> l))%Z.
Proof.
  induction l as [|x l IH]; intros H; [done|].
  cbn [fmap list_fmap sumZ foldr].
  assert (f x ≤ g x)%Z by (apply H; left).
  assert (sumZ (f <$> l) ≤ sumZ (g <$> l))%Z by (apply IH; intros ??; apply H; by right).
  unfold sumZ in *. lia.
Qed.

Lemma round_div_between (s n lo hi : Z) :
  (0 < n)%Z → (lo * n ≤ s ≤ hi * n)%Z → (lo ≤ round_div s n ≤ hi)%Z.
Proof.
  intros Hn Hs. pose proof (round_div_nearest s n Hn). nia.
Qed.

Lemma round_div_mono (s t n : Z) :
  (0 < n)%Z → (s ≤ t)%Z → (round_div s n ≤ round_div t n)%Z.
Proof.
  intros Hn Hst. unfold round_div. apply Z.div_le_mono; lia.
Qed.

(** Membership in the window, in coordinates. *)
Lemma elem_of_window_coords (w h r x y xx yy : nat) :
  (xx, yy) ∈ window w h r x y
  ↔ xx < w ∧ yy < h ∧ x - r ≤ xx ≤ x + r ∧ y - r ≤ yy ≤ y + r.
Proof. rewrite elem_of_window_iff, !elem_of_window_axis. lia. Qed.

(** [blur_out] reads its input through the alpha channel only. *)
Lemma blur_out_alpha_only (w h r : nat) (d1 d2 : list Z) :
  length d1 = length d2 →
  (∀ p, p < w * h → d1 !! (p * 4 + 3) = d2 !! (p * 4 + 3)) →
  blur_out w h r d1 = blur_out w h r d2.
Proof.
  intros Hlen Ha. unfold blur_out. rewrite Hlen.
  assert (blur_tmp w h d1 = blur_tmp w h d2) as ->; [|done].
  unfold blur_tmp. apply list_fmap_ext. intros i p Hp.
  apply lookup_seq in Hp as [-> Hp]. simpl. by rewrite Ha.
Qed.

(** The blurred alpha of a pixel lies in the range of the alphas of its
    window. *)
Lemma blur_out_alpha_between (w h r : nat) (d : list Z) (lo hi : Z) (x y : nat) :
  is_pixels w h d → x < w → y < h →
  (∀ xx yy, xx < w → yy < h → x - r ≤ xx ≤ x + r → y - r ≤ yy ≤ y + r →
     (lo ≤ alpha_of d w (xx, yy) ≤ hi)%Z) →
  (lo ≤ alpha_of (blur_out w h r d) w (x, y) ≤ hi)%Z.
Proof.
  intros [Hlen Hd] Hx Hy Hwin. unfold alpha_of at 1 2. cbn [fst snd].
  rewrite blur_out_alpha by done. cbn [default from_option id].
  rewrite window_sum_cnt_spec by done. cbn [fst snd].
  pose proof (window_nonempty w h r x y Hx Hy) as Hne.
  assert (Hb : (lo ≤ round_div (sumZ (alpha_of d w <$> window w h r x y))
                       (Z.of_nat (length (window w h r x y))) ≤ hi)%Z).
  { apply round_div_between; [lia|].
    rewrite <- (length_fmap (alpha_of d w)).
    apply sumZ_bounds, Forall_fmap, Forall_forall. intros [xx yy] Hin.
    apply elem_of_window_coords in Hin as (Hxx & Hyy & Hrx & Hry).
    by apply Hwin. }
  rewrite clamp8_byte; [done|].
  apply round_div_byte; [lia|].
  rewrite <- (length_fmap (alpha_of d w)).
  pose proof (sumZ_bytes (alpha_of d w <$> window w h r x y)
                (window_alpha_bytes w h r x y d Hd)). lia.
Qed.
(** ** More on the component *)

Lemma run_snoc (sampler : Sampler) (s : State) (tr : list Event) (e : Event) :
  run sampler s (tr ++ [e]) = (step sampler (run sampler s tr) e).1.
Proof. unfold run. by rewrite foldl_app. Qed.

(** A property of the start state that every event keeps holds after
    every sequence of events. *)
Lemma run_invariant (sampler : Sampler) (P : State → Prop) (s : State) (tr : list Event) :
  P s → (∀ s e, P s → P (step sampler s e).1) → P (run sampler s tr).
Proof.
  intros Hs Hstep. revert s Hs. induction tr as [|e tr IH]; intros s Hs; [done|].
  apply IH. by apply Hstep.
Qed.

Lemma step_AnimationFrame (sampler : Sampler) (s : State) :
  (step sampler s AnimationFrame).1 = if rafPending s then processFrame sampler s else s.
Proof. unfold step. by destruct (rafPending s). Qed.

Lemma step_Resolve_None (sampler : Sampler) (s : State) (k : nat) (o : Outcome) :
  inflight s !! k = None → (step sampler s (Resolve k o)).1 = s.
Proof. intros Hk. unfold step. by rewrite Hk. Qed.

Lemma step_Resolve_fields (sampler : Sampler) (s : State) (k : nat) (cyc : Cycle)
    (o : Outcome) :
  inflight s !! k = Some cyc →
  inflight (step sampler s (Resolve k o)).1 = delete k (inflight s)
  ∧ tfScopes (step sampler s (Resolve k o)).1 = pred (tfScopes s)
  ∧ offscreen (step sampler s (Resolve k o)).1 = offscreen s
  ∧ control (step sampler s (Resolve k o)).1 = control s
  ∧ video (step sampler s (Resolve k o)).1 = video s
  ∧ bgImageRef (step sampler s (Resolve k o)).1 = bgImageRef s
  ∧ enhanceRef (step sampler s (Resolve k o)).1 = enhanceRef s.
Proof. intros Hk. unfold step. rewrite Hk. unfold run_cycle. by destruct o. Qed.

Lemma processFrame_scopes (sampler : Sampler) (s : State) :
  cycle_starts s = true → tfScopes (processFrame sampler s) = S (tfScopes s).
Proof.
  unfold cycle_starts, processFrame.
  destruct (runningRef s), (mounted s), (segmenterRef s), (bw (video s) =? 0); done.
Qed.

(** Events other than a frame callback and the settling of a cycle leave
    both canvases, the cycles in flight and the scopes alone. *)
Lemma step_quiet (sampler : Sampler) (s : State) (e : Event) :
  e ≠ AnimationFrame → (∀ k o, e ≠ Resolve k o) →
  canvas (step sampler s e).1 = canvas s
  ∧ offscreen (step sampler s e).1 = offscreen s
  ∧ inflight (step sampler s e).1 = inflight s
  ∧ tfScopes (step sampler s e).1 = tfScopes s.
Proof.
  intros Hraf Hres.
  destruct e; try done; try (by destruct (Hres k o));
    unfold step; repeat case_match; rewrite ?loop_effect_eq; done.
Qed.

Lemma draw_cycle_size (sampler : Sampler) (w h : nat) (bgImage : option Bitmap)
    (video m canvas : Bitmap) :
  bw (draw_cycle sampler w h bgImage video m canvas) = bw canvas
  ∧ bh (draw_cycle sampler w h bgImage video m canvas) = bh canvas.
Proof.
  rewrite draw_cycle_eq.
  erewrite composite_eq by reflexivity.
  unfold ctx_drawImage, tabulate. cbn [bw bh].
  apply bg_canvas_size.
Qed.

Lemma enhance_offscreen_size (off : Bitmap) (w h : nat) :
  bw off = w → bh off = h →
  bw (enhance_offscreen off w h) = w ∧ bh (enhance_offscreen off w h) = h.
Proof. intros Hw Hh. by rewrite enhance_offscreen_eq. Qed.

(** What a cycle draws where the mask is fully opaque: the pixel of the
    current video frame. *)
Lemma draw_cycle_full_mask (sampler : Sampler) (w h : nat) (bgImage : option Bitmap)
    (video m canvas : Bitmap) (x y : nat) :
  wf_bitmap m → bw m = w → bh m = h →
  (∀ x y, x < w → y < h → alpha (px_at m x y) = 255%Z) →
  is_frame w h video → bw canvas = w → bh canvas = h → x < w → y < h →
  px_at (draw_cycle sampler w h bgImage video m canvas) x y
  = (red (px_at video x y), green (px_at video x y), blue (px_at video x y), 255%Z).
Proof.
  intros Hm Hmw Hmh Hop Hfr Hw Hh Hx Hy.
  rewrite draw_cycle_pixel by done.
  rewrite reconcile_input_same by done.
  rewrite (blur_out_const_alpha w h 1 (px m) 255); try done.
  - apply source_over_opaque_src.
  - destruct Hm as [Hlen Hb]. split; [|done]. by rewrite <- Hmw, <- Hmh.
  - intros x' y' Hx' Hy'. rewrite <- Hmw. by apply (Hop x' y').
Qed.

(** Two bitmaps tabulated from functions that agree on the pixels are
    equal. *)
Lemma bind_ext_in {A B} (f g : A → list B) (l : list A) :
  (∀ x, x ∈ l → f x = g x) → l ≫= f = l ≫= g.
Proof.
  induction l as [|x l IH]; intros H; [done|].
  rewrite !bind_cons, (H x) by left. f_equal. apply IH. intros ??. apply H. by right.
Qed.

Lemma tabulate_ext (w h : nat) (f g : nat → nat → pixel) :
  (∀ x y, x < w → y < h → f x y = g x y) → tabulate w h f = tabulate w h g.
Proof.
  intros Hfg. unfold tabulate. f_equal. apply bind_ext_in.
  intros i [_ Hi]%elem_of_seq. cbn in Hi.
  assert (0 < w) by (destruct w; lia).
  rewrite Hfg; [done| |].
  - by apply Nat.mod_upper_bound; lia.
  - apply Nat.Div0.div_lt_upper_bound. lia.
Qed.

(** A cycle clears the rectangle it draws in, so on a canvas of the size
    of the cycle nothing of the previous content is left. *)
Lemma bg_canvas_overwrites (sampler : Sampler) (w h : nat) (bgImage : option Bitmap)
    (c1 c2 : Bitmap) :
  bw c1 = w → bh c1 = h → bw c2 = w → bh c2 = h →
  bg_canvas sampler w h bgImage c1 = bg_canvas sampler w h bgImage c2.
Proof.
  intros Hw1 Hh1 Hw2 Hh2.
  assert (Hclr : ctx_clearRect c1 w h = ctx_clearRect c2 w h).
  { unfold ctx_clearRect. rewrite Hw1, Hh1, Hw2, Hh2. apply tabulate_ext.
    intros x y Hx Hy. by rewrite inside_true. }
  unfold bg_canvas. by rewrite Hclr.
Qed.

(** The ways an event can act: a frame callback that starts a cycle, the
    settling of a cycle in flight, nothing at all, or one of the other
    events. *)
Lemma step_cases (sampler : Sampler) (s : State) (e : Event) :
  (e = AnimationFrame ∧ rafPending s = true ∧ cycle_starts s = true
   ∧ (step sampler s e).1 = processFrame sampler s)
  ∨ (∃ k cyc o, e = Resolve k o ∧ inflight s !! k = Some cyc)
  ∨ (step sampler s e).1 = s
  ∨ (e ≠ AnimationFrame ∧ ∀ k o, e ≠ Resolve k o).
Proof.
  destruct e; try (right; right; right; split; [done|intros; done]).
  - rewrite step_AnimationFrame.
    destruct (rafPending s); [|by right; right; left].
    destruct (cycle_starts s) eqn:Hst; [by left|].
    right; right; left. by apply processFrame_idle.
  - destruct (inflight s !! k) as [cyc|] eqn:Hk.
    + right; left. by exists k, cyc, o.
    + right; right; left. by apply step_Resolve_None.
Qed.

(** The model status after an event. *)
Lemma step_modelStatus (sampler : Sampler) (s : State) (e : Event) :
  modelStatus (step sampler s e).1
  = match e, mounted s, modelStatus s with
    | ModelInitStart, true, idle => loading
    | ModelInitOk, true, loading => ready
    | ModelInitFail, true, loading => error
    | _, _, st => st
    end.
Proof.
  destruct e; unfold step.
  10:{ destruct (rafPending s); cbn [fst].
       - pose proof (processFrame_control sampler s) as Hc. unfold control in Hc.
         inversion Hc as [[H1 H2 H3 H4 H5 H6 H7]]. by destruct (mounted s), (modelStatus s).
       - by destruct (mounted s), (modelStatus s). }
  10:{ destruct (inflight s !! k) as [cyc|]; cbn [fst].
       - destruct (run_cycle_control sampler cyc o (set_inflight (delete k (inflight s)) s))
           as (Hc & _ & _).
         unfold control in Hc. inversion Hc as [[H1 H2 H3 H4 H5 H6 H7]].
         by destruct (mounted s), (modelStatus s).
       - by destruct (mounted s), (modelStatus s). }
  all: destruct (mounted s) eqn:Hm, (modelStatus s) eqn:Hst; cbn;
    rewrite ?loop_effect_eq; cbn; rewrite ?Hst; try done; by repeat case_match.
Qed.

(** Once [ready] or [error], the status stays. *)
Lemma model_status_step (sampler : Sampler) (s : State) (e : Event) :
  match modelStatus s with
  | idle => modelStatus (step sampler s e).1 = idle ∨ modelStatus (step sampler s e).1 = loading
  | loading => True
  | ready => modelStatus (step sampler s e).1 = ready
  | error => modelStatus (step sampler s e).1 = error
  end.
Proof. rewrite step_modelStatus. destruct e, (mounted s), (modelStatus s); auto. Qed.


(** On a canvas of the size of the cycle, what a cycle draws does not
    depend on what the canvas held. *)
Lemma draw_cycle_overwrites (sampler : Sampler) (w h : nat) (bgImage : option Bitmap)
    (video m c1 c2 : Bitmap) :
  bw c1 = w → bh c1 = h → bw c2 = w → bh c2 = h →
  draw_cycle sampler w h bgImage video m c1 = draw_cycle sampler w h bgImage video m c2.
Proof.
  intros Hw1 Hh1 Hw2 Hh2. rewrite !draw_cycle_eq.
  erewrite !composite_eq by reflexivity.
  by rewrite (bg_canvas_overwrites sampler w h bgImage c1 c2).
Qed.

Lemma inside_false (w h x y : nat) : w ≤ x ∨ h ≤ y → inside w h x y = false.
Proof.
  intros H. unfold inside. apply andb_false_iff.
  destruct H; [left|right]; by apply Nat.ltb_ge.
Qed.

(** Outside the rectangle of the cycle the background step leaves the
    canvas as it was. *)
Lemma bg_canvas_outside (sampler : Sampler) (w h : nat) (bgImage : option Bitmap)
    (canvas : Bitmap) (x y : nat) :
  x < bw canvas → y < bh canvas → w ≤ x ∨ h ≤ y →
  px_at (bg_canvas sampler w h bgImage canvas) x y = px_at canvas x y.
Proof.
  intros Hx Hy Hout.
  assert (Hclr : px_at (ctx_clearRect canvas w h) x y = px_at canvas x y).
  { unfold ctx_clearRect. rewrite px_at_tabulate by done. by rewrite inside_false. }
  unfold bg_canvas. destruct bgImage as [img|].
  - unfold ctx_drawImage. rewrite px_at_tabulate by done. by rewrite inside_false.
  - unfold ctx_fillRect. rewrite px_at_tabulate by done. by rewrite inside_false.
Qed.

Lemma draw_cycle_outside (sampler : Sampler) (w h : nat) (bgImage : option Bitmap)
    (video m canvas : Bitmap) (x y : nat) :
  x < bw canvas → y < bh canvas → w ≤ x ∨ h ≤ y →
  px_at (draw_cycle sampler w h bgImage video m canvas) x y = px_at canvas x y.
Proof.
  intros Hx Hy Hout. rewrite draw_cycle_eq.
  erewrite composite_eq by reflexivity.
  destruct (bg_canvas_size sampler w h bgImage canvas) as [Hbw Hbh].
  unfold ctx_drawImage at 1. rewrite px_at_tabulate by lia.
  rewrite inside_false by done. by apply bg_canvas_outside.
Qed.

(** A frame callback on an armed loop whose guards pass keeps the loop
    armed and the guards passing. *)
Lemma processFrame_again (sampler : Sampler) (s : State) :
  rafPending s = true → cycle_starts s = true →
  rafPending (processFrame sampler s) = true
  ∧ cycle_starts (processFrame sampler s) = true.
Proof.
  intros Hp Hst.
  pose proof (processFrame_control sampler s) as Hc.
  destruct (processFrame_video sampler s) as (Hv & _).
  unfold control in Hc. inversion Hc as [[H1 H2 H3 H4 H5 H6 H7]].
  split; [congruence|]. unfold cycle_starts in *. by rewrite H1, H4, H6, Hv.
Qed.
(** ** The 2D context *)

Lemma Qlt_bool_nat (a b : nat) : Qlt_bool (Qnat a) (Qnat b) = (a <? b).
Proof.
  unfold Qlt_bool, Qnat, Qle_bool. cbn [Qnum Qden inject_Z].
  rewrite !Z.mul_1_r.
  destruct (Nat.ltb_spec a b); [apply negb_true_iff, Z.leb_gt|apply negb_false_iff, Z.leb_le];
    lia.
Qed.

Lemma Qlt_bool_ext (a a' b b' : Q) : a == a' → b == b' → Qlt_bool a b = Qlt_bool a' b'.
Proof.
  intros Ha Hb. unfold Qlt_bool. f_equal.
  destruct (Qle_bool b a) eqn:E1, (Qle_bool b' a') eqn:E2; try done.
  - apply Qle_bool_iff in E1. rewrite Ha, Hb in E1. apply Qle_bool_iff in E1. congruence.
  - apply Qle_bool_iff in E2. rewrite <- Ha, <- Hb in E2. apply Qle_bool_iff in E2.
    congruence.
Qed.

Lemma Qnat_succ (x : nat) : Qnat x + 1 == Qnat (S x).
Proof.
  unfold Qnat. rewrite Nat2Z.inj_succ, <- Z.add_1_r, inject_Z_plus. reflexivity.
Qed.

(** A rectangle from the origin reaches exactly the pixels inside it. *)
Lemma touches_stretch (w h x y : nat) : touches (stretch_rect w h) x y = inside w h x y.
Proof.
  unfold touches, stretch_rect, inside. cbn [rx ry rw rh].
  rewrite (Qlt_bool_ext 0 (Qnat 0) (Qnat x + 1) (Qnat (S x)))
    by (reflexivity || apply Qnat_succ).
  rewrite (Qlt_bool_ext 0 (Qnat 0) (Qnat y + 1) (Qnat (S y)))
    by (reflexivity || apply Qnat_succ).
  rewrite (Qlt_bool_ext (Qnat x) (Qnat x) (0 + inject_Z (Z.of_nat w)) (Qnat w))
    by (reflexivity || apply Qplus_0_l).
  rewrite (Qlt_bool_ext (Qnat y) (Qnat y) (0 + inject_Z (Z.of_nat h)) (Qnat h))
    by (reflexivity || apply Qplus_0_l).
  rewrite !Qlt_bool_nat. cbn. by rewrite andb_true_r.
Qed.

Lemma is_natural_stretch (src : Bitmap) (w h : nat) :
  bw src = w → bh src = h → is_natural src (stretch_rect w h) = true.
Proof.
  intros <- <-. unfold is_natural, stretch_rect, Qnat. cbn [rx ry rw rh].
  rewrite !Qeq_bool_refl. done.
Qed.

Lemma source_at_natural (ua : UserAgent) (src : Bitmap) (w h x y : nat) :
  bw src = w → bh src = h →
  source_at ua src (stretch_rect w h) x y = px_at src x y.
Proof. intros Hw Hh. unfold source_at. by rewrite is_natural_stretch. Qed.

Lemma drawImage_size (ua : UserAgent) (src : Bitmap) (r : Rect) (c : Context2D) :
  bw (cx_bitmap (drawImage ua src r c)) = bw (cx_bitmap c)
  ∧ bh (cx_bitmap (drawImage ua src r c)) = bh (cx_bitmap c)
  ∧ cx_state (drawImage ua src r c) = cx_state c
  ∧ cx_saved (drawImage ua src r c) = cx_saved c.
Proof. done. Qed.

Lemma px_at_drawImage (ua : UserAgent) (src : Bitmap) (r : Rect) (c : Context2D)
    (x y : nat) :
  x < bw (cx_bitmap c) → y < bh (cx_bitmap c) →
  px_at (cx_bitmap (drawImage ua src r c)) x y
  = paint (ds_operation (cx_state c)) (touches r x y)
      (apply_filter ua (ds_filter (cx_state c)) (source_at ua src r x y))
      (px_at (cx_bitmap c) x y).
Proof.
  intros Hx Hy. unfold drawImage, set_bitmap. cbn [cx_bitmap].
  by rewrite px_at_tabulate.
Qed.

Lemma fillRect_size (ua : UserAgent) (w h : nat) (c : Context2D) :
  bw (cx_bitmap (fillRect ua w h c)) = bw (cx_bitmap c)
  ∧ bh (cx_bitmap (fillRect ua w h c)) = bh (cx_bitmap c)
  ∧ cx_state (fillRect ua w h c) = cx_state c
  ∧ cx_saved (fillRect ua w h c) = cx_saved c.
Proof. done. Qed.

Lemma px_at_fillRect (ua : UserAgent) (w h : nat) (c : Context2D) (x y : nat) :
  x < bw (cx_bitmap c) → y < bh (cx_bitmap c) →
  px_at (cx_bitmap (fillRect ua w h c)) x y
  = paint (ds_operation (cx_state c)) (inside w h x y)
      (apply_filter ua (ds_filter (cx_state c)) (ds_fillStyle (cx_state c)))
      (px_at (cx_bitmap c) x y).
Proof.
  intros Hx Hy. unfold fillRect, set_bitmap. cbn [cx_bitmap].
  by rewrite px_at_tabulate.
Qed.

(** Drawing a canvas that has pixels. *)
Lemma drawCanvas_Normal (ua : UserAgent) (src : Bitmap) (c : Context2D) :
  0 < bw src → 0 < bh src →
  drawCanvas ua src c = (drawImage ua src (natural src) c, Normal).
Proof.
  intros Hw Hh. unfold drawCanvas.
  destruct (bw src); [lia|]. destruct (bh src); [lia|]. done.
Qed.

Lemma draw_cover_size (ua : UserAgent) (bgImg : Bitmap) (cw ch : nat) (c : Context2D) :
  bw (cx_bitmap (draw_cover ua bgImg cw ch c)) = bw (cx_bitmap c)
  ∧ bh (cx_bitmap (draw_cover ua bgImg cw ch c)) = bh (cx_bitmap c)
  ∧ cx_state (draw_cover ua bgImg cw ch c) = cx_state c
  ∧ cx_saved (draw_cover ua bgImg cw ch c) = cx_saved c.
Proof. unfold draw_cover. by destruct ((bw bgImg =? 0) || (bh bgImg =? 0)). Qed.

(** Source-in looks at the destination through its alpha only. *)
Lemma source_in_alpha (s d d' : pixel) :
  alpha d = alpha d' → source_in s d = source_in s d'.
Proof. intros H. unfold source_in. destruct s as [[[sr sg] sb] sa]. by rewrite H. Qed.

Lemma source_in_opaque (r g b : Z) (d : pixel) :
  alpha d = 255%Z → source_in (r, g, b, 255%Z) d = (r, g, b, 255%Z).
Proof. intros H. unfold source_in. by rewrite H. Qed.

(** White, blended with [difference] onto a pixel, inverts what the
    pixel shows of its colour and is opaque. *)
Lemma difference_white (r g b a : Z) :
  is_byte r → is_byte g → is_byte b → is_byte a →
  difference css_white (r, g, b, a)
  = (round_div (65025 - a * r) 255, round_div (65025 - a * g) 255,
     round_div (65025 - a * b) 255, 255%Z).
Proof.
  unfold is_byte, difference, css_white. intros Hr Hg Hb Ha.
  assert (Hmix : ∀ c, (0 ≤ c ≤ 255)%Z →
            round_div (255 * ((255 - a) * 255 + a * Z.abs (c - 255)) + (255 - 255) * a * c)
                      (255 * 255 + a * (255 - 255))
            = round_div (65025 - a * c) 255).
  { intros c Hc. rewrite Z.abs_neq by lia.
    replace (255 * ((255 - a) * 255 + a * - (c - 255)) + (255 - 255) * a * c)%Z
      with (255 * (65025 - a * c))%Z by ring.
    replace (255 * 255 + a * (255 - 255))%Z with (255 * 255)%Z by ring.
    apply round_div_scale; lia. }
  rewrite !Hmix by done.
  replace (255 * 255 + a * (255 - 255))%Z with (255 * 255)%Z by ring. done.
Qed.

(** Drawing on a transparent pixel keeps the source pixel, up to the
    colour of a pixel without alpha. *)
Lemma source_over_transparent (r g b a : Z) :
  is_byte r → is_byte g → is_byte b → is_byte a →
  source_over (r, g, b, a) transparent
  = if (a =? 0)%Z then transparent else (r, g, b, a).
Proof.
  unfold is_byte, source_over, transparent. intros Hr Hg Hb Ha.
  destruct (Z.eqb_spec a 0) as [->|Hne].
  { assert (Hz : ∀ n, round_div n 0 = 0%Z).
    { intros n. unfold round_div. by rewrite Z.mul_0_r, Z.div_0_r. }
    replace (255 * 0 + 0 * (255 - 0))%Z with 0%Z by ring. by rewrite !Hz. }
  replace (255 * a + 0 * (255 - a))%Z with (255 * a)%Z by ring.
  assert (Hmix : ∀ c, round_div (255 * c * a + 0 * 0 * (255 - a)) (255 * a) = c).
  { intros c. replace (255 * c * a + 0 * 0 * (255 - a))%Z with (c * (255 * a))%Z by ring.
    apply round_div_half. lia. }
  rewrite !Hmix. f_equal. replace (255 * a)%Z with (a * 255)%Z by ring.
  apply round_div_half. lia.
Qed.

Lemma touches_natural (src : Bitmap) (x y : nat) :
  x < bw src → y < bh src → touches (natural src) x y = true.
Proof. intros Hx Hy. unfold natural. rewrite touches_stretch. by apply inside_true. Qed.

Lemma source_at_own_size (ua : UserAgent) (src : Bitmap) (x y : nat) :
  source_at ua src (natural src) x y = px_at src x y.
Proof. by apply source_at_natural. Qed.

Lemma apply_filter_none (ua : UserAgent) (p : pixel) : apply_filter ua "none" p = p.
Proof. done. Qed.

(** A pixel of a well-formed bitmap after it is drawn, at the size of the
    bitmap, on a fresh canvas of that size. *)
Lemma px_at_first_draw (ua : UserAgent) (src : Bitmap) (w h x y : nat) :
  bw src = w → bh src = h → x < w → y < h →
  px_at (cx_bitmap (drawImage ua src (stretch_rect w h) (new_canvas w h))) x y
  = source_over (px_at src x y) transparent.
Proof.
  intros Hw Hh Hx Hy. rewrite px_at_drawImage by done.
  cbn [new_canvas cx_state cx_bitmap default_state ds_operation ds_filter].
  rewrite apply_filter_none, source_at_natural, touches_stretch, inside_true by done.
  cbn [paint]. by rewrite px_at_blank.
Qed.

(** The output canvas when [onResults] returns: it has the size of the
    video frame and its context is in the default state. *)
Lemma draw_results_Normal (ua : UserAgent) (mode : string) (video : Bitmap)
    (segmentationMask : option Bitmap) (ctx out : Context2D) :
  App.draw_results ua mode video segmentationMask ctx = (out, Normal) →
  bw (cx_bitmap out) = bw video ∧ bh (cx_bitmap out) = bh video
  ∧ cx_state out = default_state.
Proof.
  unfold App.draw_results.
  assert (Happ : ∀ c, App.applyEnhancement c mode = c) by (by intros [b st sv]).
  rewrite Happ. destruct segmentationMask as [mask|].
  - unfold drawCanvas. destruct (_ || _); [done|].
    intros [= <-]. done.
  - intros [= <-]. done.
Qed.

Lemma onResults_Normal (ua : UserAgent) (mode : string) (ctx : Context2D)
    (video : Bitmap) (segmentationMask : option Bitmap) (out : Context2D) :
  App.onResults ua mode (Some ctx) (Some video) segmentationMask = (Some out, Normal) →
  bw (cx_bitmap out) = bw video ∧ bh (cx_bitmap out) = bh video
  ∧ cx_state out = default_state.
Proof.
  unfold App.onResults.
  destruct (App.draw_results ua mode video segmentationMask ctx) as [o c] eqn:E.
  intros [= <- ->]. by eapply draw_results_Normal.
Qed.

(** ** The still-image component *)

Lemma backdrop_size (ua : UserAgent) (image : Bitmap) (bgImg : option Bitmap) :
  bw (cx_bitmap (Still.backdrop ua image bgImg)) = bw image
  ∧ bh (cx_bitmap (Still.backdrop ua image bgImg)) = bh image
  ∧ ds_filter (cx_state (Still.backdrop ua image bgImg)) = "none".
Proof.
  unfold Still.backdrop. destruct bgImg as [bg|]; [|done].
  by destruct (draw_cover_size ua bg (bw (cx_bitmap (new_canvas (bw image) (bh image))))
                 (bh (cx_bitmap (new_canvas (bw image) (bh image))))
                 (new_canvas (bw image) (bh image))) as (-> & -> & -> & _).
Qed.

Lemma px_at_backdrop_None (ua : UserAgent) (image : Bitmap) (x y : nat) :
  x < bw image → y < bh image →
  px_at (cx_bitmap (Still.backdrop ua image None)) x y = css_f0f0f0.
Proof.
  intros Hx Hy. unfold Still.backdrop. rewrite px_at_fillRect by done.
  cbn [set_fillStyle new_canvas cx_state cx_bitmap default_state ds_operation
       ds_filter ds_fillStyle blank bw bh].
  rewrite apply_filter_none, inside_true by done. cbn [paint].
  apply source_over_opaque_src.
Qed.

(** Every pixel of the canvas that [replaceBackground] resolves with:
    the image, over the mask where the mask reaches, with the alpha of
    the mask times that of the backdrop. *)
Lemma replaceBackground_pixel (ua : UserAgent) (image mask : Bitmap)
    (bgImg : option Bitmap) (x y : nat) :
  0 < bw mask → 0 < bh mask → x < bw image → y < bh image →
  (Still.replaceBackground ua image mask bgImg).2 = Normal
  ∧ bw (cx_bitmap (Still.replaceBackground ua image mask bgImg).1) = bw image
  ∧ bh (cx_bitmap (Still.replaceBackground ua image mask bgImg).1) = bh image
  ∧ px_at (cx_bitmap (Still.replaceBackground ua image mask bgImg).1) x y
    = source_over (px_at image x y)
        (paint SourceIn (touches (natural mask) x y) (px_at mask x y)
           (px_at (cx_bitmap (Still.backdrop ua image bgImg)) x y)).
Proof.
  intros Hmw Hmh Hx Hy. unfold Still.replaceBackground.
  destruct (backdrop_size ua image bgImg) as (Hw & Hh & Hf).
  set (c := Still.backdrop ua image bgImg) in *.
  rewrite (drawCanvas_Normal ua mask) by done.
  rewrite drawCanvas_Normal by lia. cbn [fst snd].
  split; [done|]. split; [done|]. split; [done|].
  rewrite px_at_drawImage by (cbn; lia).
  cbn [set_operation cx_state ds_operation ds_filter drawImage set_bitmap cx_bitmap].
  rewrite px_at_tabulate by lia.
  rewrite Hf, !apply_filter_none, !source_at_own_size, (touches_natural image) by done.
  done.
Qed.
(** ** Drawing inside a canvas of any size *)






(** ** What [reconcile_mask] hands to [blurMask] *)

Lemma tabulate_bytes (w h : nat) (f : nat → nat → pixel) :
  (∀ x y, Forall is_byte (px_list (f x y))) → Forall is_byte (px (tabulate w h f)).
Proof.
  intros Hf. rewrite tabulate_px. apply Forall_bind, Forall_forall.
  intros i _. apply Hf.
Qed.

Lemma clamp_px_bytes (p : pixel) :
  is_byte (red (clamp_px p)) ∧ is_byte (green (clamp_px p))
  ∧ is_byte (blue (clamp_px p)) ∧ is_byte (alpha (clamp_px p)).
Proof.
  destruct p as [[[r g] b] a]. unfold red, green, blue, alpha. cbn.
  repeat split; apply clamp8_is_byte.
Qed.

(** A resampled pixel drawn on a blank canvas keeps its alpha, and its
    four bytes are bytes. *)
Lemma source_over_blank (p : pixel) :
  alpha (source_over (clamp_px p) transparent) = clamp8 (alpha p)
  ∧ Forall is_byte (px_list (source_over (clamp_px p) transparent)).
Proof.
  destruct (clamp_px_bytes p) as (Hr & Hg & Hb & Ha).
  assert (Hal : alpha (clamp_px p) = clamp8 (alpha p)) by (by destruct p as [[[r g] b] a]).
  rewrite (pixel_eta (clamp_px p)), source_over_transparent by done.
  destruct (Z.eqb_spec (alpha (clamp_px p)) 0) as [Hz|Hnz].
  - split; [by rewrite <- Hal, Hz|]. unfold transparent. cbn. solve_bytes.
  - split; [done|]. cbn. do 4 (constructor; [done|]). constructor.
Qed.

Lemma reconcile_input_bytes (sampler : Sampler) (w h : nat) (m : Bitmap) :
  wf_bitmap m → is_pixels w h (reconcile_input sampler w h m).
Proof.
  intros Hm. split; [by apply reconcile_input_length|].
  unfold reconcile_input. destruct (same_size m w h) eqn:Hs; [by destruct Hm|].
  unfold ctx_drawImage. cbn [bw bh blank]. apply tabulate_bytes. intros x y.
  destruct (inside w h x y) eqn:Hin.
  - unfold scaled. rewrite Hs.
    apply andb_true_iff in Hin as [Hx%Nat.ltb_lt Hy%Nat.ltb_lt].
    rewrite px_at_tabulate, px_at_blank by done. apply source_over_blank.
  - rewrite px_at_blank. unfold transparent. cbn. solve_bytes.
Qed.

(** The alpha of the pixel [(x, y)] of what is blurred: the alpha of the
    mask itself when it has the size of the frame, the alpha of the
    resampled mask otherwise. *)
Lemma reconcile_input_alpha (sampler : Sampler) (w h : nat) (m : Bitmap) (x y : nat) :
  x < w → y < h →
  alpha_of (reconcile_input sampler w h m) w (x, y)
  = if same_size m w h then alpha_of (px m) w (x, y)
    else clamp8 (alpha (sampler m w h x y)).
Proof.
  intros Hx Hy. unfold reconcile_input.
  destruct (same_size m w h) eqn:Hs; [done|].
  change (alpha (px_at (ctx_drawImage sampler (blank w h) m w h) x y)
          = clamp8 (alpha (sampler m w h x y))).
  rewrite px_at_ctx_drawImage by done. rewrite px_at_blank.
  unfold scaled. rewrite Hs, px_at_tabulate by done.
  apply source_over_blank.
Qed.

Lemma sumZ_fmap_ext {A} (f g : A → Z) (l : list A) :
  (∀ a, a ∈ l → f a = g a) → sumZ (f <$> l) = sumZ (g <$> l).
Proof.
  intros Hfg. induction l as [|a l IH]; [done|].
  rewrite !fmap_cons. unfold sumZ in *. cbn [foldr].
  rewrite (Hfg a) by left. rewrite IH; [done|]. intros b Hb. apply Hfg. by right.
Qed.

(** ** Arming the loop *)

(** Only an event that changes [modelStatus] or [running] arms a loop
    that was not armed. *)
Lemma step_arms (sampler : Sampler) (s : State) (e : Event) :
  rafPending s = false → rafPending (step sampler s e).1 = true →
  modelStatus (step sampler s e).1 ≠ modelStatus s
  ∨ running (step sampler s e).1 ≠ running s.
Proof.
  intros Hoff Hon.
  assert (Hctl : ∀ s', control s' = control s → rafPending s' = true → False).
  { intros s' Hc Hp. unfold control in Hc. inversion Hc. congruence. }
  destruct e; unfold step in *.
  - destruct (mounted s), (modelStatus s) eqn:Hm; cbn [andb fst] in *; try congruence.
    left. rewrite loop_effect_eq. cbn. congruence.
  - destruct (mounted s), (modelStatus s) eqn:Hm; cbn [andb fst] in *; try congruence.
    left. rewrite loop_effect_eq. cbn. congruence.
  - destruct (mounted s), (modelStatus s) eqn:Hm; cbn [andb fst] in *; try congruence.
    left. rewrite loop_effect_eq. cbn. congruence.
  - destruct (mounted s); cbn in *; congruence.
  - destruct (mounted s && _); cbn in *; congruence.
  - cbn in *; congruence.
  - cbn in *; congruence.
  - destruct (mounted s); cbn in *; congruence.
  - destruct (mounted s), (modelStatus s) eqn:Hm; cbn [andb fst] in *; try congruence.
    right. rewrite loop_effect_eq. cbn. by destruct (running s).
  - rewrite Hoff in Hon. cbn in Hon. congruence.
  - destruct (inflight s !! k) as [cyc|]; cbn [fst] in *; [|congruence].
    exfalso.
    destruct (run_cycle_control sampler cyc o (set_inflight (delete k (inflight s)) s))
      as (Hc & _ & _).
    by apply (Hctl _ Hc).
  - destruct (mounted s); cbn in *; congruence.
Qed.

(** * Properties of the specification *)

(** ** C9 and C10: [blurMask] *)

(** C9.  For every image and every radius [r >= 0], the alpha byte that
    [blurMask] returns for a pixel is the unweighted mean, rounded to the
    nearest integer, of the alpha bytes of the in-bounds pixels of the
    window of side [2r+1] centred on it: the window holds exactly the
    pixels at distance at most [r] on both axes that lie inside the
    image, each once (no wrap-around, no padding), and the divisor is
    their number.  With radius 0 the alpha channel is returned
    unchanged. *)
Theorem blurMask_window_mean (imageData : ImageData) (r : nat) (σ : list (list Z))
    (d : list Z) (x y : nat) :
  σ !! data imageData = Some d →
  is_pixels (width imageData) (height imageData) d →
  x < width imageData → y < height imageData →
  let w := width imageData in
  let h := height imageData in
  let res := blurMask imageData r σ in
  let win := window w h r x y in
  let S := sumZ (alpha_of d w <$> win) in
  let N := Z.of_nat (length win) in
  let v := rd res.1 (data res.2) ((y * w + x) * 4 + 3) in
  NoDup win
  ∧ (∀ xx yy, (xx, yy) ∈ win ↔
       (xx < w ∧ yy < h)
       ∧ (Z.of_nat x - Z.of_nat r ≤ Z.of_nat xx ≤ Z.of_nat x + Z.of_nat r)%Z
       ∧ (Z.of_nat y - Z.of_nat r ≤ Z.of_nat yy ≤ Z.of_nat y + Z.of_nat r)%Z)
  ∧ (0 < N)%Z
  ∧ v = round_div S N
  ∧ (2 * N * v - N ≤ 2 * S < 2 * N * v + N)%Z
  ∧ (r = 0 → v = rd σ (data imageData) ((y * w + x) * 4 + 3)).
Proof.
  intros Hσ Hpx Hx Hy w h res win S N v.
  assert (HN : (0 < N)%Z).
  { unfold N, win. pose proof (window_nonempty w h r x y Hx Hy). lia. }
  assert (Hv : v = round_div S N).
  { unfold v, res, S, N, win, w, h. by apply blurMask_alpha. }
  split; [by apply NoDup_window|].
  split.
  { intros xx yy. unfold win. rewrite elem_of_window_iff, !elem_of_window_axis. tauto. }
  split; [done|]. split; [done|].
  split; [rewrite Hv; by apply round_div_nearest|].
  intros ->. rewrite Hv. unfold S, N, win.
  rewrite window_0 by done. simpl.
  rewrite (rd_lookup _ _ _ _ Hσ). unfold alpha_of, sumZ. simpl.
  rewrite Z.add_0_r. apply round_div_1.
Qed.

(** C10.  [blurMask] never mutates its input: every typed array that
    existed before the call, the input's among them, is unchanged after
    it, and the returned image is a freshly allocated buffer of the same
    width and height whose colour bytes are all zero. *)
Theorem blurMask_fresh_output (imageData : ImageData) (r : nat) (σ : list (list Z))
    (d : list Z) :
  σ !! data imageData = Some d →
  let res := blurMask imageData r σ in
  (∀ l a, σ !! l = Some a → res.1 !! l = Some a)
  ∧ res.1 !! data imageData = Some d
  ∧ σ !! data res.2 = None
  ∧ data res.2 ≠ data imageData
  ∧ width res.2 = width imageData
  ∧ height res.2 = height imageData
  ∧ len res.1 (data res.2) = length d
  ∧ (∀ j, j < length d → j mod 4 ≠ 3 → rd res.1 (data res.2) j = 0%Z).
Proof.
  intros Hσ res. unfold res. rewrite (blurMask_eq _ _ _ _ Hσ). simpl.
  assert (Hout : ∀ t, (σ ++ [blur_out (width imageData) (height imageData) r d; t])
                      !! length σ
                      = Some (blur_out (width imageData) (height imageData) r d)).
  { intros t. rewrite lookup_app_r by lia. by rewrite Nat.sub_diag. }
  split; [intros l a Hl; by apply lookup_app_l_Some|].
  split; [by apply lookup_app_l_Some|].
  split; [by apply lookup_ge_None_2|].
  split; [apply lookup_lt_Some in Hσ; lia|].
  split; [done|]. split; [done|].
  split.
  - erewrite len_lookup by apply Hout. apply blur_out_length.
  - intros j Hj Hmod. erewrite rd_lookup by apply Hout.
    by rewrite blur_out_rgb.
Qed.

Lemma blurMask_window_mean_witness :
  rd (blurMask (mkImageData 2 2 0) 1 [[1; 2; 3; 10; 1; 2; 3; 20; 1; 2; 3; 30; 1; 2; 3; 41]%Z]).1
     (data (blurMask (mkImageData 2 2 0) 1
              [[1; 2; 3; 10; 1; 2; 3; 20; 1; 2; 3; 30; 1; 2; 3; 41]%Z]).2) 3
  = 25%Z.
Proof.
  pose proof (blurMask_window_mean (mkImageData 2 2 0) 1
                [[1; 2; 3; 10; 1; 2; 3; 20; 1; 2; 3; 30; 1; 2; 3; 41]%Z]
                [1; 2; 3; 10; 1; 2; 3; 20; 1; 2; 3; 30; 1; 2; 3; 41]%Z 0 0) as H.
  simpl in H.
  destruct H as (_ & _ & _ & Hv & _).
  - reflexivity.
  - split; [reflexivity|]. solve_bytes.
  - lia.
  - lia.
  - exact Hv.
Defined.

Lemma blurMask_fresh_output_witness :
  (blurMask (mkImageData 1 1 0) 1 [[9; 8; 7; 200]%Z]).1 !! 0 = Some [9; 8; 7; 200]%Z.
Proof.
  pose proof (blurMask_fresh_output (mkImageData 1 1 0) 1 [[9; 8; 7; 200]%Z]
                [9; 8; 7; 200]%Z) as H.
  simpl in H. destruct H as (_ & Hin & _).
  - reflexivity.
  - exact Hin.
Defined.

(** ** C8: mask reconciliation *)

(** C8.  What [blurMask] receives is the mask itself exactly when its
    dimensions equal those of the frame, and otherwise the mask redrawn
    by the user agent at the size of the frame; in both cases [blurMask]
    with radius 1 is the last step.  So the alpha that the reconciled
    buffer holds for the pixel [(x, y)] is the mean, rounded to the
    nearest integer, over the in-bounds pixels at distance at most 1 on
    both axes, of the alpha bytes of the mask itself when the dimensions
    are equal (the smoothing filter of the user agent plays no part),
    and of the alpha bytes of the resampled mask otherwise.  The buffer
    has the dimensions of the frame, four bytes per pixel, and its
    colour bytes are zero.  The mask is an [ImageData], which has at
    least one pixel. *)
Theorem reconcile_mask_spec (sampler : Sampler) (w h : nat) (maskImageData : ImageData)
    (σ : list (list Z)) (d : list Z) (x y : nat) :
  σ !! data maskImageData = Some d →
  is_pixels (width maskImageData) (height maskImageData) d →
  0 < width maskImageData → 0 < height maskImageData →
  x < w → y < h →
  let m := mkBitmap (width maskImageData) (height maskImageData) d in
  let res := reconcile_mask sampler w h maskImageData σ in
  let same := width maskImageData = w ∧ height maskImageData = h in
  let win := window w h 1 x y in
  let N := Z.of_nat (length win) in
  let i := (y * w + x) * 4 in
  (∃ input,
      res = blurMask (mkImageData w h (length σ)) 1 (σ ++ [input])
      ∧ is_pixels w h input
      ∧ (same → ∀ xx yy, xx < w → yy < h →
                  alpha_of input w (xx, yy) = alpha_of d w (xx, yy))
      ∧ (¬ same → ∀ xx yy, xx < w → yy < h →
                    alpha_of input w (xx, yy) = clamp8 (alpha (sampler m w h xx yy))))
  ∧ width res.2 = w ∧ height res.2 = h
  ∧ len res.1 (data res.2) = 4 * (w * h)
  ∧ rd res.1 (data res.2) i = 0%Z
  ∧ rd res.1 (data res.2) (i + 1) = 0%Z
  ∧ rd res.1 (data res.2) (i + 2) = 0%Z
  ∧ (∀ xx yy, (xx, yy) ∈ win ↔
       xx < w ∧ yy < h ∧ x - 1 ≤ xx ≤ x + 1 ∧ y - 1 ≤ yy ≤ y + 1)
  ∧ (0 < N)%Z
  ∧ (same →
     rd res.1 (data res.2) (i + 3) = round_div (sumZ (alpha_of d w <$> win)) N)
  ∧ (¬ same →
     rd res.1 (data res.2) (i + 3)
     = round_div (sumZ ((λ p, clamp8 (alpha (sampler m w h p.1 p.2))) <$> win)) N).
Proof.
  intros Hσ Hpx _ _ Hx Hy m res same win N i.
  set (input := reconcile_input sampler w h m).
  assert (Hres : res = blurMask (mkImageData w h (length σ)) 1 (σ ++ [input])).
  { unfold res. by apply reconcile_mask_eq. }
  assert (Hin : (σ ++ [input]) !! length σ = Some input).
  { rewrite lookup_app_r by lia. by rewrite Nat.sub_diag. }
  assert (Hpi : is_pixels w h input) by (by apply reconcile_input_bytes).
  assert (Hsame : same → same_size m w h = true).
  { intros Hs. by apply same_size_true. }
  assert (Hdiff : ¬ same → same_size m w h = false).
  { intros Hs. destruct (same_size m w h) eqn:E; [|done].
    by apply same_size_true in E. }
  assert (Hv : rd res.1 (data res.2) (i + 3)
               = round_div (sumZ (alpha_of input w <$> win)) N).
  { rewrite Hres. by apply (blurMask_alpha (mkImageData w h (length σ)) 1 _ input x y). }
  assert (Hout : res.1 !! data res.2 = Some (blur_out w h 1 input)).
  { rewrite Hres, (blurMask_eq (mkImageData w h (length σ)) 1 _ _ Hin).
    cbn [fst snd width height data].
    rewrite lookup_app_r by (rewrite length_app; simpl; lia).
    rewrite length_app. cbn [length].
    by replace (length σ + 1 - (length σ + 1)) with 0 by lia. }
  assert (Hrgb : ∀ c, c < 3 → rd res.1 (data res.2) (i + c) = 0%Z).
  { intros c Hc. rewrite (rd_lookup _ _ _ _ Hout), blur_out_rgb; [done| |].
    - destruct Hpi as [-> _]. pose proof (pixel_index_lt w h x y Hx Hy). unfold i. lia.
    - unfold i. replace ((y * w + x) * 4 + c) with (c + (y * w + x) * 4) by lia.
      rewrite Nat.Div0.mod_add, Nat.mod_small; lia. }
  split.
  { exists input. split; [done|]. split; [done|]. split.
    - intros Hs xx yy Hxx Hyy. unfold input.
      by rewrite reconcile_input_alpha, (Hsame Hs).
    - intros Hs xx yy Hxx Hyy. unfold input.
      by rewrite reconcile_input_alpha, (Hdiff Hs). }
  split; [by rewrite Hres, (blurMask_eq (mkImageData w h (length σ)) 1 _ _ Hin)|].
  split; [by rewrite Hres, (blurMask_eq (mkImageData w h (length σ)) 1 _ _ Hin)|].
  split.
  { rewrite (len_lookup _ _ _ Hout), blur_out_length. by destruct Hpi. }
  split; [rewrite <- (Hrgb 0) by lia; f_equal; lia|].
  split; [apply Hrgb; lia|]. split; [apply Hrgb; lia|].
  split; [intros xx yy; apply elem_of_window_coords|].
  split.
  { unfold N, win. pose proof (window_nonempty w h 1 x y Hx Hy). lia. }
  split.
  - intros Hs. rewrite Hv. f_equal. apply sumZ_fmap_ext.
    intros [xx yy] [Hxx Hyy]%elem_of_window. unfold input.
    by rewrite reconcile_input_alpha, (Hsame Hs).
  - intros Hs. rewrite Hv. f_equal. apply sumZ_fmap_ext.
    intros [xx yy] [Hxx Hyy]%elem_of_window. unfold input.
    by rewrite reconcile_input_alpha, (Hdiff Hs).
Qed.

Lemma reconcile_mask_spec_witness :
  let σ := [[1; 2; 3; 10; 1; 2; 3; 20; 1; 2; 3; 30; 1; 2; 3; 41]%Z] in
  let τ := [[1; 2; 3; 200]%Z] in
  let same := reconcile_mask nearest 2 2 (mkImageData 2 2 0) σ in
  let other := reconcile_mask nearest 2 1 (mkImageData 1 1 0) τ in
  (rd same.1 (data same.2) 3 = 25%Z ∧ rd same.1 (data same.2) 0 = 0%Z)
  ∧ (rd other.1 (data other.2) 7 = 200%Z ∧ width other.2 = 2 ∧ height other.2 = 1).
Proof.
  intros σ τ same other. split.
  - pose proof (reconcile_mask_spec nearest 2 2 (mkImageData 2 2 0) σ
                  [1; 2; 3; 10; 1; 2; 3; 20; 1; 2; 3; 30; 1; 2; 3; 41]%Z 0 0) as H.
    destruct H as (_ & _ & _ & _ & H0 & _ & _ & _ & _ & Hv & _).
    + reflexivity.
    + split; [reflexivity|]. solve_bytes.
    + simpl; lia.
    + simpl; lia.
    + lia.
    + lia.
    + split; [|exact H0]. exact (Hv (conj eq_refl eq_refl)).
  - pose proof (reconcile_mask_spec nearest 2 1 (mkImageData 1 1 0) τ
                  [1; 2; 3; 200]%Z 1 0) as H.
    destruct H as (_ & Hw & Hh & _ & _ & _ & _ & _ & _ & _ & Hv).
    + reflexivity.
    + split; [reflexivity|]. solve_bytes.
    + simpl; lia.
    + simpl; lia.
    + lia.
    + lia.
    + split; [|by split]. apply Hv. cbn. lia.
Defined.

(** ** C5: alpha compositing *)




(** ** C7: the fallback fill *)

(** Without a background, a pixel whose mask alpha is 0 shows the fill
    colour of [processFrame]. *)
Lemma composite_fallback_pixel (sampler : Sampler) (w h : nat) (frame : Bitmap)
    (finalMask : ImageData) (canvas : Bitmap) (σ : list (list Z)) (md : list Z)
    (x y : nat) :
  is_frame w h frame →
  σ !! data finalMask = Some md → is_pixels w h md →
  bw canvas = w → bh canvas = h → x < w → y < h →
  alpha_of md w (x, y) = 0%Z →
  px_at (composite sampler w h None frame finalMask canvas σ).2 x y = css_green.
Proof.
  intros Hfr Hσ Hmd Hw Hh Hx Hy Ha.
  rewrite (composite_pixel _ _ _ _ _ _ _ _ md) by done.
  destruct (bg_canvas_pixel sampler w h None canvas x y Hw Hh I Hx Hy) as [-> _].
  rewrite Ha. cbn [bg_pixel]. unfold css_green. rewrite source_over_opaque_dst.
  rewrite !Z.mul_0_r, !Z.add_0_l, !Z.sub_0_r.
  by rewrite !round_div_half by lia.
Qed.

(** C7.  After a background load failure, where the mask has alpha 0,
    the output pixel of [processFrame] is CSS [green], [(0, 128, 0)],
    where [createBackground] and [replaceBackground] fill with
    [#f0f0f0], [(240, 240, 240)]. *)
Theorem fallback_fill_is_green :
  let frame := mkBitmap 1 1 [64; 64; 64; 255]%Z in
  let mask := mkBitmap 1 1 [0; 0; 0; 0]%Z in
  let s := run nearest initial
             [ModelInitStart; ModelInitOk; VideoLoadedData frame; BackgroundError;
              ClickStartStop; AnimationFrame; Resolve 0 (MaskData mask)] in
  bgImageRef s = None
  ∧ px_at (canvas s) 0 0 = (0, 128, 0, 255)%Z
  ∧ px_at (ctx_fillRect (blank 1 1) css_f0f0f0 1 1) 0 0 = (240, 240, 240, 255)%Z
  ∧ px_at (canvas s) 0 0 ≠ css_f0f0f0.
Proof. vm_compute. repeat split; discriminate. Qed.

(** ** C4: enhancement *)

(** C4, as the code has it.  With enhancement [gamma], a cycle applies
    the gamma curve to the offscreen working copy of the frame, which is
    what the segmenter receives, and leaves the video frame as it is; the
    foreground of compositing is the video frame, not the enhanced copy:
    when the mask has alpha 255 at every pixel, the output colours are
    those of the video frame, opaque, with no contribution of the
    background. *)
Theorem enhancement_feeds_segmenter_only (sampler : Sampler) (s : State) (m : Bitmap)
    (x y : nat) :
  cycle_starts s = true → enhanceRef s = gamma →
  is_frame (bw (video s)) (bh (video s)) (video s) →
  wf_bitmap m → bw m = bw (video s) → bh m = bh (video s) →
  (∀ x y, x < bw m → y < bh m → alpha (px_at m x y) = 255%Z) →
  x < bw (video s) → y < bh (video s) →
  let s1 := processFrame sampler s in
  let s2 := (step sampler s1 (Resolve (length (inflight s)) (MaskData m))).1 in
  let v := px_at (video s) x y in
  video s1 = video s
  ∧ px_at (offscreen s1) x y
    = (gamma_byte (red v), gamma_byte (green v), gamma_byte (blue v), alpha v)
  ∧ px_at (canvas s2) x y = (red v, green v, blue v, 255%Z).
Proof.
  intros Hst Hen Hfr Hm Hmw Hmh Hop Hx Hy s1 s2 v.
  set (w := bw (video s)) in *. set (h := bh (video s)) in *.
  destruct (processFrame_starts sampler s Hst) as (Hc & Hi & Ho).
  destruct (processFrame_video sampler s) as (Hv & Hbg & _).
  fold s1 in Hc, Hi, Ho, Hv, Hbg. fold w h in Hc, Hi, Ho.
  split; [done|]. split.
  - rewrite Ho, Hen. rewrite enhance_offscreen_eq by done.
    rewrite px_at_gamma.
    assert (Hfg : px_at (mkBitmap w h (px (fg_canvas sampler w h (video s)))) x y = v).
    { change (px_at (fg_canvas sampler w h (video s)) x y = v).
      by apply fg_canvas_pixel. }
    rewrite Hfg. by rewrite !clamp8_byte by apply gamma_byte_is_byte.
  - unfold s2. rewrite (resolve_canvas _ _ _ (mkCycle w h)); cycle 1.
    { rewrite Hi, lookup_app_r by lia. by rewrite Nat.sub_diag. }
    cbn [cyc_width cyc_height]. rewrite Hv, Hc.
    rewrite draw_cycle_pixel by done.
    rewrite reconcile_input_same by done.
    rewrite (blur_out_const_alpha w h 1 (px m) 255); try done.
    + apply source_over_opaque_src.
    + destruct Hm as [Hlen Hb]. split; [|done]. by rewrite <- Hmw, <- Hmh.
    + intros x' y' Hx' Hy'. rewrite <- Hmw.
      apply (Hop x' y'); [by rewrite Hmw|by rewrite Hmh].
Qed.

Lemma enhancement_feeds_segmenter_only_witness :
  let s := run nearest initial
             [ModelInitStart; ModelInitOk;
              VideoLoadedData (mkBitmap 1 1 [64; 64; 64; 255]%Z); ClickStartStop] in
  let v := px_at (video s) 0 0 in
  px_at (canvas (step nearest (processFrame nearest s)
                   (Resolve (length (inflight s))
                      (MaskData (mkBitmap 1 1 [0; 0; 0; 255]%Z)))).1) 0 0
  = (red v, green v, blue v, 255%Z).
Proof.
  intros s v.
  pose proof (enhancement_feeds_segmenter_only nearest s
                (mkBitmap 1 1 [0; 0; 0; 255]%Z) 0 0) as H.
  destruct H as (_ & _ & Hc).
  - reflexivity.
  - reflexivity.
  - split; [reflexivity|]. split; [reflexivity|]. split.
    + split; [reflexivity|]. solve_bytes.
    + intros [|x] [|y] Hx Hy; simpl in *; lia.
  - split; [reflexivity|]. solve_bytes.
  - reflexivity.
  - reflexivity.
  - intros [|x] [|y] Hx Hy; simpl in *; lia.
  - simpl; lia.
  - simpl; lia.
  - exact Hc.
Defined.

(** C4 as the specification states it fails: after a cycle with enhancement [gamma] and a
    mask of alpha 255, the output pixel is the pixel of the video frame,
    while the enhanced copy holds another colour. *)
Lemma enhanced_copy_is_not_composited :
  let frame := mkBitmap 1 1 [64; 64; 64; 255]%Z in
  let mask := mkBitmap 1 1 [0; 0; 0; 255]%Z in
  let s := run nearest initial
             [ModelInitStart; ModelInitOk; VideoLoadedData frame; ClickStartStop;
              AnimationFrame; Resolve 0 (MaskData mask)] in
  enhanceRef s = gamma
  ∧ px_at (offscreen s) 0 0 = (101, 101, 101, 255)%Z
  ∧ px_at (enhance_offscreen frame 1 1) 0 0 = (101, 101, 101, 255)%Z
  ∧ px_at (canvas s) 0 0 = (64, 64, 64, 255)%Z
  ∧ px_at (canvas s) 0 0 ≠ px_at (enhance_offscreen frame 1 1) 0 0.
Proof. vm_compute. repeat split; discriminate. Qed.

(** ** C1: the gate of the frame loop *)

(** C1, as the code has it.  In every reachable state: the loop is armed
    only if [modelStatus = ready], the camera is ready and a run is
    requested; while one of the three is false a frame callback does
    nothing, so the loop stops with the event that turns the gate false;
    a new cycle starts only from a frame callback and only with the gate
    true.  The gate is evaluated again when [modelStatus] or [running]
    changes, and after such a change the loop is armed exactly when the
    gate holds; it is not evaluated when the camera becomes ready, which
    leaves the loop as it was, and a loop that is not armed stays so
    until an event changes [modelStatus] or [running]. *)
Theorem loop_gate (sampler : Sampler) (tr : list Event) :
  let s := run sampler initial tr in
  (rafPending s = true → canRun s = true)
  ∧ (canRun s = false → step sampler s AnimationFrame = (s, Normal))
  ∧ (∀ e, length (inflight s) < length (inflight (step sampler s e).1) →
          e = AnimationFrame ∧ canRun s = true)
  ∧ (∀ e, modelStatus (step sampler s e).1 ≠ modelStatus s
          ∨ running (step sampler s e).1 ≠ running s →
          rafPending (step sampler s e).1 = canRun (step sampler s e).1)
  ∧ (∀ frame, rafPending (step sampler s (VideoLoadedData frame)).1 = rafPending s)
  ∧ (∀ e, rafPending s = false → rafPending (step sampler s e).1 = true →
          modelStatus (step sampler s e).1 ≠ modelStatus s
          ∨ running (step sampler s e).1 ≠ running s).
Proof.
  intros s. destruct (run_inv sampler initial tr initial_inv) as (Hraf & Href & Hrun).
  fold s in Hraf, Href, Hrun.
  assert (Hctl : ∀ s', control s' = control s →
                       modelStatus s' = modelStatus s ∧ running s' = running s).
  { intros s' Hc. unfold control in Hc. by inversion Hc. }
  split; [exact Hraf|]. split.
  { intros Hcr. unfold step. destruct (rafPending s) eqn:Hp; [|done].
    specialize (Hraf eq_refl). congruence. }
  split.
  { intros e Hlen. destruct e; unfold step in Hlen;
      try (exfalso; repeat case_match; rewrite ?loop_effect_eq in Hlen;
           cbn in Hlen; lia).
    - split; [done|]. destruct (rafPending s) eqn:Hp; [by apply Hraf|].
      cbn in Hlen. lia.
    - exfalso. destruct (inflight s !! k) as [cyc|] eqn:Hk; [|cbn in Hlen; lia].
      unfold run_cycle in Hlen.
      pose proof (length_delete (inflight s) k (mk_is_Some _ _ Hk)) as Hdel.
      destruct o; cbn in Hlen; lia. }
  split.
  { intros e Hch.
    assert (Hsame : ∀ s', modelStatus s' = modelStatus s → running s' = running s →
                          (modelStatus s' ≠ modelStatus s ∨ running s' ≠ running s) →
                          False).
    { intros s' E1 E2 [E|E]; by apply E. }
    destruct e; unfold step in *.
    - destruct (mounted s && _); [|exfalso; by eapply Hsame].
      cbn [fst]. apply loop_effect_rafPending.
    - destruct (mounted s && _); [|exfalso; by eapply Hsame].
      cbn [fst]. apply loop_effect_rafPending.
    - destruct (mounted s && _); [|exfalso; by eapply Hsame].
      cbn [fst]. apply loop_effect_rafPending.
    - exfalso. destruct (mounted s); by eapply Hsame.
    - exfalso. destruct (mounted s && _); by eapply Hsame.
    - exfalso. by eapply Hsame.
    - exfalso. by eapply Hsame.
    - exfalso. destruct (mounted s); by eapply Hsame.
    - destruct (mounted s && _); [|exfalso; by eapply Hsame].
      cbn [fst]. apply loop_effect_rafPending.
    - exfalso. destruct (rafPending s); cbn [fst] in Hch; [|by eapply Hsame].
      destruct (Hctl _ (processFrame_control sampler s)). by eapply Hsame.
    - exfalso. destruct (inflight s !! k) as [cyc|]; cbn [fst] in Hch;
        [|by eapply Hsame].
      destruct (run_cycle_control sampler cyc o (set_inflight (delete k (inflight s)) s))
        as (Hc & _ & _).
      destruct (Hctl _ Hc). by eapply Hsame.
    - exfalso. destruct (mounted s); by eapply Hsame. }
  split; [intros frame; unfold step; by destruct (mounted s)|].
  intros e. apply step_arms.
Qed.

(** C1 as the specification states it fails: when the camera becomes ready after the run was
    requested, all three conditions hold and the loop is not armed; frame
    callbacks start no cycle. *)
Lemma gate_open_loop_not_armed :
  let frame := mkBitmap 1 1 [64; 64; 64; 255]%Z in
  let s := run nearest initial
             [ModelInitStart; ModelInitOk; ClickStartStop; VideoLoadedData frame] in
  modelStatus s = ready ∧ videoReadyRef s = true ∧ running s = true
  ∧ canRun s = true
  ∧ rafPending s = false
  ∧ inflight (step nearest s AnimationFrame).1 = []
  ∧ inflight (run nearest s [AnimationFrame; AnimationFrame]) = [].
Proof. repeat split. Qed.

(** ** C2: a cycle in flight when the gate closes *)

(** C2, as the code has it.  The liveness flag is read once, where
    [processFrame] begins: while it is false no cycle starts and the
    canvas is not touched.  A cycle already in flight is not asked again:
    when its mask arrives it draws on the output canvas, whatever the
    gate is by then. *)
Theorem inflight_cycle_draws (sampler : Sampler) (s : State) (k : nat) (cyc : Cycle)
    (m : Bitmap) :
  inflight s !! k = Some cyc →
  canvas (step sampler s (Resolve k (MaskData m))).1
  = draw_cycle sampler (cyc_width cyc) (cyc_height cyc) (bgImageRef s) (video s) m
               (canvas s)
  ∧ (runningRef s = false → processFrame sampler s = s).
Proof.
  intros Hk. split.
  - by rewrite (resolve_canvas _ _ _ cyc).
  - intros Hr. apply processFrame_idle. unfold cycle_starts. by rewrite Hr.
Qed.

Lemma inflight_cycle_draws_witness :
  let s := run nearest initial
             [ModelInitStart; ModelInitOk;
              VideoLoadedData (mkBitmap 1 1 [64; 64; 64; 255]%Z);
              ClickStartStop; AnimationFrame; ClickStartStop] in
  let m := mkBitmap 1 1 [0; 0; 0; 255]%Z in
  canvas (step nearest s (Resolve 0 (MaskData m))).1
  = draw_cycle nearest 1 1 (bgImageRef s) (video s) m (canvas s).
Proof.
  intros s m.
  pose proof (inflight_cycle_draws nearest s 0 (mkCycle 1 1) m) as H.
  destruct H as (Hc & _).
  - reflexivity.
  - exact Hc.
Defined.

(** C2 as the specification states it fails: the run is stopped while a cycle is in flight;
    the gate and the liveness flag are false when the mask arrives, and
    the cycle still draws its frame on the output canvas. *)
Lemma stopped_cycle_still_draws :
  let frame := mkBitmap 1 1 [64; 64; 64; 255]%Z in
  let mask := mkBitmap 1 1 [0; 0; 0; 255]%Z in
  let s := run nearest initial
             [ModelInitStart; ModelInitOk; VideoLoadedData frame; ClickStartStop;
              AnimationFrame; ClickStartStop] in
  let s' := (step nearest s (Resolve 0 (MaskData mask))).1 in
  canRun s = false ∧ runningRef s = false ∧ rafPending s = false
  ∧ inflight s = [mkCycle 1 1]
  ∧ canvas s = mkBitmap 1 1 [0; 0; 0; 0]%Z
  ∧ canvas s' = mkBitmap 1 1 [64; 64; 64; 255]%Z
  ∧ canvas s' ≠ canvas s.
Proof. vm_compute. repeat split; discriminate. Qed.

(** ** C3: a failed cycle *)

(** C3, as the code has it.  When the segmenter throws, or delivers no
    segmentation or no mask, nothing is thrown further: an exception of
    the segmenter is caught and written to the console (line 298), a
    missing segmentation or mask makes the cycle return without a word
    (lines 218 and 238), and the console is what it was.  The settling
    of the cycle draws nothing, the output canvas is what it was just
    before; the loop and the guards of [processFrame] are untouched, so
    the next frame callback runs as before.  The canvas the cycle leaves
    is the one its own start made: every cycle that starts resets the
    output canvas to transparent black. *)
Theorem failed_cycle_is_skipped (sampler : Sampler) (s : State) (k : nat) (cyc : Cycle)
    (o : Outcome) :
  inflight s !! k = Some cyc →
  (∀ m, o ≠ MaskData m) →
  (step sampler s (Resolve k o)).2 = Normal
  ∧ canvas (step sampler s (Resolve k o)).1 = canvas s
  ∧ control (step sampler s (Resolve k o)).1 = control s
  ∧ video (step sampler s (Resolve k o)).1 = video s
  ∧ (o = InferenceThrows →
     console (step sampler s (Resolve k o)).1 = SegmentationError :: console s)
  ∧ (o ≠ InferenceThrows → console (step sampler s (Resolve k o)).1 = console s)
  ∧ (cycle_starts s = true →
     canvas (processFrame sampler s) = blank (bw (video s)) (bh (video s))).
Proof.
  intros Hk Ho.
  split; [apply step_completes|].
  split.
  { rewrite (resolve_canvas _ _ _ cyc) by done.
    destruct o as [| | |m]; try done. by destruct (Ho m). }
  split; [|split].
  - unfold step. rewrite Hk. by destruct (run_cycle_control sampler cyc o
      (set_inflight (delete k (inflight s)) s)) as (-> & _ & _).
  - unfold step. rewrite Hk. by destruct (run_cycle_control sampler cyc o
      (set_inflight (delete k (inflight s)) s)) as (_ & -> & _).
  - split; [|split].
    + intros ->. unfold step. rewrite Hk. done.
    + intros Hne. unfold step. rewrite Hk. by destruct o.
    + intros Hst. by destruct (processFrame_starts sampler s Hst) as (-> & _).
Qed.

Lemma failed_cycle_is_skipped_witness :
  let s := run nearest initial
             [ModelInitStart; ModelInitOk;
              VideoLoadedData (mkBitmap 1 1 [64; 64; 64; 255]%Z);
              ClickStartStop; AnimationFrame] in
  canvas (step nearest s (Resolve 0 NoMask)).1 = canvas s
  ∧ console (step nearest s (Resolve 0 NoMask)).1 = console s.
Proof.
  intros s.
  pose proof (failed_cycle_is_skipped nearest s 0 (mkCycle 1 1) NoMask) as H.
  destruct H as (_ & Hc & _ & _ & _ & Hq & _).
  - reflexivity.
  - intros m. discriminate.
  - split; [exact Hc|]. apply Hq. discriminate.
Defined.

(** C3 as the specification states it fails: a composited frame is on display, the next
    cycle starts and ends without a mask, and the canvas is transparent
    black, not the frame that was displayed. *)
Lemma failed_cycle_clears_canvas :
  let frame := mkBitmap 1 1 [64; 64; 64; 255]%Z in
  let mask := mkBitmap 1 1 [0; 0; 0; 255]%Z in
  let s := run nearest initial
             [ModelInitStart; ModelInitOk; VideoLoadedData frame; ClickStartStop;
              AnimationFrame; Resolve 0 (MaskData mask)] in
  let s' := run nearest s [AnimationFrame; Resolve 0 NoMask] in
  canvas s = mkBitmap 1 1 [64; 64; 64; 255]%Z
  ∧ canvas s' = mkBitmap 1 1 [0; 0; 0; 0]%Z
  ∧ canvas s' ≠ canvas s
  ∧ rafPending s' = true.
Proof. vm_compute. repeat split; discriminate. Qed.

(** ** C6: placement of the background *)

Section cover.
Local Open Scope Q_scope.

(** [createBackground] and [replaceBackground] place the background with
    cover semantics: one magnification on both axes, the canvas fully
    covered, the image centred, the overflow cut evenly on both sides. *)
Lemma cover_rect_spec (cw ch bgw bgh : Q) :
  0 < cw → 0 < ch → 0 < bgw → 0 < bgh →
  let c := cover_rect cw ch bgw bgh in
  scale_x c bgw == Qmax (cw / bgw) (ch / bgh)
  ∧ scale_y c bgh == Qmax (cw / bgw) (ch / bgh)
  ∧ cw <= rw c ∧ ch <= rh c
  ∧ rx c + rw c / 2 == cw / 2
  ∧ ry c + rh c / 2 == ch / 2
  ∧ rx c <= 0 ∧ ry c <= 0.
Proof.
  intros Hcw Hch Hbw Hbh c. unfold c, cover_rect, scale_x, scale_y. cbn [rx ry rw rh].
  set (k := Qmax (cw / bgw) (ch / bgh)).
  assert (Hkw : cw / bgw <= k) by apply Q.le_max_l.
  assert (Hkh : ch / bgh <= k) by apply Q.le_max_r.
  assert (Hbw0 : ¬ bgw == 0) by (intros H0; rewrite H0 in Hbw; by apply Qlt_irrefl in Hbw).
  assert (Hbh0 : ¬ bgh == 0) by (intros H0; rewrite H0 in Hbh; by apply Qlt_irrefl in Hbh).
  assert (Ew : bgw * (cw / bgw) == cw) by (by field).
  assert (Eh : bgh * (ch / bgh) == ch) by (by field).
  assert (Hw : cw <= bgw * k).
  { apply Qle_trans with (bgw * (cw / bgw)).
    - rewrite Ew. apply Qle_refl.
    - by apply Qmult_le_l. }
  assert (Hh : ch <= bgh * k).
  { apply Qle_trans with (bgh * (ch / bgh)).
    - rewrite Eh. apply Qle_refl.
    - by apply Qmult_le_l. }
  assert (Hlin : ∀ a z : Q, a <= z → (a - z) / 2 <= 0).
  { intros a z Haz. apply Qle_shift_div_r; [reflexivity|]. lra. }
  repeat split; try done; try (by field); by apply Hlin.
Qed.

(** C6.  On a canvas of 1280 by 720 a background of 640 by 640 is drawn
    by [processFrame] into the whole canvas, magnified by 2 across and
    by 9/8 down, where the cover placement of [createBackground] and
    [replaceBackground] magnifies by 2 on both axes and centres a
    rectangle of 1280 by 1280 that overflows by 280 above and below. *)
Theorem background_is_stretched :
  let r := stretch_rect 1280 720 in
  let c := cover_rect 1280 720 640 640 in
  (rx r == 0 ∧ ry r == 0 ∧ rw r == 1280 ∧ rh r == 720)
  ∧ scale_x r 640 == 2 ∧ scale_y r 640 == 9 # 8
  ∧ ¬ scale_x r 640 == scale_y r 640
  ∧ (rx c == 0 ∧ ry c == -280 ∧ rw c == 1280 ∧ rh c == 1280)
  ∧ scale_x c 640 == 2 ∧ scale_y c 640 == 2.
Proof. vm_compute. repeat split; discriminate. Qed.

End cover.
(** * Further properties of the code *)

(** ** [enhanceGamma] *)

(** X1.  For a byte [v], the byte that [enhanceGamma] stores is the
    integer nearest to [255 * (v / 255) ^ (1 / 1.5)], the cube root of
    [255 * v^2]: it is the only integer [n] with
    [(n - 1/2)^3 <= 255 * v^2 < (n + 1/2)^3].  It never exceeds 255, so
    the [Math.min(255, ...)] of the source only matters for [v = 255]. *)
Theorem gamma_byte_nearest (v n : Z) :
  (0 ≤ v ≤ 255)%Z →
  ((2 * n - 1) ^ 3 ≤ 8 * (255 * v ^ 2) < (2 * n + 1) ^ 3)%Z ↔ n = gamma_byte v.
Proof.
  intros Hv. destruct (gamma_byte_bounds v Hv) as [[Hlo Hhi] _].
  replace (8 * (255 * v ^ 2))%Z with (2040 * v * v)%Z by ring.
  split; [|by intros ->].
  intros [Hnlo Hnhi].
  destruct (Z.lt_trichotomy n (gamma_byte v)) as [Hlt|[->|Hgt]]; [|done|]; exfalso.
  - assert ((2 * n + 1) ^ 3 ≤ (2 * gamma_byte v - 1) ^ 3)%Z by (apply cube_le_mono; lia).
    lia.
  - assert ((2 * gamma_byte v + 1) ^ 3 ≤ (2 * n - 1) ^ 3)%Z by (apply cube_le_mono; lia).
    lia.
Qed.

Lemma gamma_byte_nearest_witness : 101%Z = gamma_byte 64.
Proof.
  apply (gamma_byte_nearest 64 101); [lia|].
  split; [vm_compute; discriminate|reflexivity].
Defined.

(** X2.  [enhanceGamma] works in place: it returns the object it was
    given, allocates no array and leaves every other array as it was;
    the array of the image keeps its length and its alpha bytes, and
    every colour byte is replaced by its image under the gamma curve. *)
Theorem enhanceGamma_in_place (imageData : ImageData) (σ : list (list Z)) (a : list Z) :
  σ !! data imageData = Some a →
  let res := enhanceGamma imageData σ in
  res.2 = imageData
  ∧ length res.1 = length σ
  ∧ (∀ l, l ≠ data imageData → res.1 !! l = σ !! l)
  ∧ len res.1 (data imageData) = length a
  ∧ (∀ j, j < length a → j mod 4 = 3 →
       rd res.1 (data imageData) j = rd σ (data imageData) j)
  ∧ (∀ j, j < length a → j mod 4 ≠ 3 →
       rd res.1 (data imageData) j = gamma_byte (rd σ (data imageData) j)).
Proof.
  intros Hσ res. unfold res. rewrite (enhanceGamma_eq _ _ _ Hσ). cbn [fst snd].
  assert (Hl : data imageData < length σ) by by eapply lookup_lt_Some.
  split; [done|]. split; [by rewrite length_insert|].
  split; [intros l Hne; by rewrite list_lookup_insert_ne|].
  split.
  { unfold len. rewrite list_lookup_insert_eq by done. simpl.
    unfold gamma_array. by rewrite length_imap. }
  split; intros j Hj Hmod.
  - rewrite rd_insert_eq, gamma_array_lookup by done.
    rewrite (rd_lookup _ _ _ _ Hσ). by rewrite decide_False by lia.
  - rewrite rd_insert_eq, gamma_array_lookup by done.
    rewrite (rd_lookup _ _ _ _ Hσ). rewrite decide_True by done.
    apply clamp8_byte, gamma_byte_is_byte.
Qed.

Lemma enhanceGamma_in_place_witness :
  rd (enhanceGamma (mkImageData 1 1 0) [[64; 0; 255; 200]%Z]).1 0 3
  = rd [[64; 0; 255; 200]%Z] 0 3.
Proof.
  pose proof (enhanceGamma_in_place (mkImageData 1 1 0) [[64; 0; 255; 200]%Z]
                [64; 0; 255; 200]%Z) as H.
  destruct H as (_ & _ & _ & _ & Ha & _).
  - reflexivity.
  - apply (Ha 3); [simpl; lia|reflexivity].
Defined.

(** X3.  [enhanceGamma] never darkens: every colour byte of the image
    is at least what it was, and strictly greater unless it was 0, 254
    or 255; black stays black and white stays white. *)
Theorem enhanceGamma_brightens (imageData : ImageData) (σ : list (list Z)) (a : list Z)
    (j : nat) :
  σ !! data imageData = Some a → Forall is_byte a →
  j < length a → j mod 4 ≠ 3 →
  let v := rd σ (data imageData) j in
  let v' := rd (enhanceGamma imageData σ).1 (data imageData) j in
  (v ≤ v' ≤ 255)%Z
  ∧ (v = 0%Z → v' = 0%Z)
  ∧ (v = 255%Z → v' = 255%Z)
  ∧ ((1 ≤ v ≤ 253)%Z → (v < v')%Z).
Proof.
  intros Hσ Ha Hj Hmod v v'.
  assert (Hv' : v' = gamma_byte v).
  { unfold v', v. rewrite (enhanceGamma_eq _ _ _ Hσ). cbn [fst].
    rewrite rd_insert_eq, gamma_array_lookup by by eapply lookup_lt_Some.
    rewrite (rd_lookup _ _ _ _ Hσ). rewrite decide_True by done.
    apply clamp8_byte, gamma_byte_is_byte. }
  assert (Hv : (0 ≤ v ≤ 255)%Z).
  { unfold v. rewrite (rd_lookup _ _ _ _ Hσ). by apply default_byte. }
  rewrite Hv'. pose proof (gamma_byte_ge v Hv). pose proof (gamma_byte_is_byte v) as Hb.
  unfold is_byte in Hb.
  split; [lia|]. split; [by intros ->|]. split; [by intros ->|].
  apply gamma_byte_gt.
Qed.

Lemma enhanceGamma_brightens_witness :
  (rd [[64; 0; 255; 200]%Z] 0 0
   ≤ rd (enhanceGamma (mkImageData 1 1 0) [[64; 0; 255; 200]%Z]).1 0 0 ≤ 255)%Z.
Proof.
  pose proof (enhanceGamma_brightens (mkImageData 1 1 0) [[64; 0; 255; 200]%Z]
                [64; 0; 255; 200]%Z 0) as H.
  destruct H as (Hb & _).
  - reflexivity.
  - solve_bytes.
  - simpl; lia.
  - simpl; lia.
  - exact Hb.
Defined.

(** X4.  [enhanceGamma] keeps the order of intensities: of two colour
    bytes of the image, the one that was not greater before the call is
    not greater after it. *)
Theorem enhanceGamma_monotone (imageData : ImageData) (σ : list (list Z)) (a : list Z)
    (i j : nat) :
  σ !! data imageData = Some a → Forall is_byte a →
  i < length a → i mod 4 ≠ 3 → j < length a → j mod 4 ≠ 3 →
  (rd σ (data imageData) i ≤ rd σ (data imageData) j)%Z →
  (rd (enhanceGamma imageData σ).1 (data imageData) i
   ≤ rd (enhanceGamma imageData σ).1 (data imageData) j)%Z.
Proof.
  intros Hσ Ha Hi Himod Hj Hjmod Hle.
  rewrite (enhanceGamma_eq _ _ _ Hσ). cbn [fst].
  rewrite !rd_insert_eq, !gamma_array_lookup by by eapply lookup_lt_Some.
  rewrite !decide_True by done.
  rewrite !clamp8_byte by apply gamma_byte_is_byte.
  rewrite !(rd_lookup _ _ _ _ Hσ) in Hle.
  pose proof (default_byte a i Ha) as Hbi. pose proof (default_byte a j Ha) as Hbj.
  unfold is_byte in Hbi, Hbj.
  apply gamma_byte_mono; lia.
Qed.

Lemma enhanceGamma_monotone_witness :
  (rd (enhanceGamma (mkImageData 1 1 0) [[64; 0; 255; 200]%Z]).1 0 1
   ≤ rd (enhanceGamma (mkImageData 1 1 0) [[64; 0; 255; 200]%Z]).1 0 0)%Z.
Proof.
  apply (enhanceGamma_monotone (mkImageData 1 1 0) [[64; 0; 255; 200]%Z]
           [64; 0; 255; 200]%Z 1 0).
  - reflexivity.
  - solve_bytes.
  - simpl; lia.
  - simpl; lia.
  - simpl; lia.
  - simpl; lia.
  - vm_compute; discriminate.
Defined.
(** ** [blurMask] *)

(** X5.  The blur stays within the range of what it averages: when the
    alpha bytes of all in-bounds pixels at distance at most [r] from
    [(x, y)] lie between [lo] and [hi], so does the alpha byte returned
    for [(x, y)].  A pixel whose whole neighbourhood is foreground (or
    background) keeps its alpha; only pixels within [r] of an edge of the
    mask are softened. *)
Theorem blurMask_alpha_bounds (imageData : ImageData) (r : nat) (σ : list (list Z))
    (d : list Z) (x y : nat) (lo hi : Z) :
  σ !! data imageData = Some d →
  is_pixels (width imageData) (height imageData) d →
  x < width imageData → y < height imageData →
  (∀ xx yy, xx < width imageData → yy < height imageData →
     x - r ≤ xx ≤ x + r → y - r ≤ yy ≤ y + r →
     (lo ≤ rd σ (data imageData) ((yy * width imageData + xx) * 4 + 3) ≤ hi)%Z) →
  (lo ≤ rd (blurMask imageData r σ).1 (data (blurMask imageData r σ).2)
          ((y * width imageData + x) * 4 + 3) ≤ hi)%Z.
Proof.
  intros Hσ Hpx Hx Hy Hwin.
  rewrite (blurMask_alpha _ _ _ d) by done.
  pose proof (window_nonempty (width imageData) (height imageData) r x y Hx Hy) as Hne.
  apply round_div_between; [lia|].
  rewrite <- (length_fmap (alpha_of d (width imageData))).
  apply sumZ_bounds, Forall_fmap, Forall_forall. intros [xx yy] Hin.
  apply elem_of_window_coords in Hin as (Hxx & Hyy & Hrx & Hry).
  specialize (Hwin xx yy Hxx Hyy Hrx Hry).
  rewrite (rd_lookup _ _ _ _ Hσ) in Hwin. exact Hwin.
Qed.

Lemma blurMask_alpha_bounds_witness :
  (255 ≤ rd (blurMask (mkImageData 2 1 0) 1 [[0; 0; 0; 255; 9; 9; 9; 255]%Z]).1
            (data (blurMask (mkImageData 2 1 0) 1 [[0; 0; 0; 255; 9; 9; 9; 255]%Z]).2)
            ((0 * width (mkImageData 2 1 0) + 0) * 4 + 3) ≤ 255)%Z.
Proof.
  apply (blurMask_alpha_bounds (mkImageData 2 1 0) 1 [[0; 0; 0; 255; 9; 9; 9; 255]%Z]
           [0; 0; 0; 255; 9; 9; 9; 255]%Z 0 0 255 255).
  - reflexivity.
  - split; [reflexivity|]. solve_bytes.
  - simpl; lia.
  - simpl; lia.
  - intros [|[|xx]] [|yy] Hxx Hyy _ _; simpl in *; try lia; vm_compute; split; discriminate.
Defined.

(** X6.  The blur is monotone: of two masks of the same size, if one has
    at most the alpha of the other at every pixel of the neighbourhood
    of [(x, y)], its blurred alpha at [(x, y)] is at most the other's. *)
Theorem blurMask_monotone (i1 i2 : ImageData) (r : nat) (σ1 σ2 : list (list Z))
    (d1 d2 : list Z) (x y : nat) :
  σ1 !! data i1 = Some d1 → σ2 !! data i2 = Some d2 →
  width i1 = width i2 → height i1 = height i2 →
  is_pixels (width i1) (height i1) d1 → is_pixels (width i2) (height i2) d2 →
  x < width i1 → y < height i1 →
  (∀ xx yy, xx < width i1 → yy < height i1 →
     x - r ≤ xx ≤ x + r → y - r ≤ yy ≤ y + r →
     (rd σ1 (data i1) ((yy * width i1 + xx) * 4 + 3)
      ≤ rd σ2 (data i2) ((yy * width i1 + xx) * 4 + 3))%Z) →
  (rd (blurMask i1 r σ1).1 (data (blurMask i1 r σ1).2) ((y * width i1 + x) * 4 + 3)
   ≤ rd (blurMask i2 r σ2).1 (data (blurMask i2 r σ2).2) ((y * width i1 + x) * 4 + 3))%Z.
Proof.
  intros Hσ1 Hσ2 Hw Hh Hpx1 Hpx2 Hx Hy Hle.
  pose proof (blurMask_alpha i1 r σ1 d1 x y Hσ1 Hpx1 Hx Hy) as E1.
  pose proof (blurMask_alpha i2 r σ2 d2 x y Hσ2 Hpx2 ltac:(lia) ltac:(lia)) as E2.
  rewrite <- Hw, <- Hh in E2. rewrite E1, E2.
  pose proof (window_nonempty (width i1) (height i1) r x y Hx Hy) as Hne.
  apply round_div_mono; [lia|].
  apply sumZ_le. intros [xx yy] Hin.
  apply elem_of_window_coords in Hin as (Hxx & Hyy & Hrx & Hry).
  specialize (Hle xx yy Hxx Hyy Hrx Hry).
  by rewrite (rd_lookup _ _ _ _ Hσ1), (rd_lookup _ _ _ _ Hσ2) in Hle.
Qed.

Lemma blurMask_monotone_witness :
  (rd (blurMask (mkImageData 1 1 0) 1 [[0; 0; 0; 10]%Z]).1
      (data (blurMask (mkImageData 1 1 0) 1 [[0; 0; 0; 10]%Z]).2)
      ((0 * width (mkImageData 1 1 0) + 0) * 4 + 3)
   ≤ rd (blurMask (mkImageData 1 1 0) 1 [[0; 0; 0; 20]%Z]).1
        (data (blurMask (mkImageData 1 1 0) 1 [[0; 0; 0; 20]%Z]).2)
        ((0 * width (mkImageData 1 1 0) + 0) * 4 + 3))%Z.
Proof.
  apply (blurMask_monotone (mkImageData 1 1 0) (mkImageData 1 1 0) 1
           [[0; 0; 0; 10]%Z] [[0; 0; 0; 20]%Z] [0; 0; 0; 10]%Z [0; 0; 0; 20]%Z 0 0).
  - reflexivity.
  - reflexivity.
  - reflexivity.
  - reflexivity.
  - split; [reflexivity|]. solve_bytes.
  - split; [reflexivity|]. solve_bytes.
  - simpl; lia.
  - simpl; lia.
  - intros [|xx] [|yy] Hxx Hyy _ _; simpl in *; try lia. vm_compute; discriminate.
Defined.

(** X7.  [blurMask] reads nothing but the alpha channel: two images of
    the same size whose alpha bytes agree give the same output array,
    whatever their colour bytes are. *)
Theorem blurMask_reads_alpha_only (i1 i2 : ImageData) (r : nat) (σ1 σ2 : list (list Z))
    (d1 d2 : list Z) :
  σ1 !! data i1 = Some d1 → σ2 !! data i2 = Some d2 →
  width i1 = width i2 → height i1 = height i2 → length d1 = length d2 →
  (∀ p, p < width i1 * height i1 →
     rd σ1 (data i1) (p * 4 + 3) = rd σ2 (data i2) (p * 4 + 3)) →
  (blurMask i1 r σ1).1 !! data (blurMask i1 r σ1).2
  = (blurMask i2 r σ2).1 !! data (blurMask i2 r σ2).2.
Proof.
  intros Hσ1 Hσ2 Hw Hh Hlen Ha.
  rewrite (blurMask_eq _ _ _ _ Hσ1), (blurMask_eq _ _ _ _ Hσ2). cbn [fst snd data].
  rewrite !lookup_app_r, !Nat.sub_diag by lia. cbn [lookup list_lookup].
  rewrite <- Hw, <- Hh. f_equal.
  apply blur_out_alpha_only; [done|].
  intros p Hp. specialize (Ha p Hp).
  rewrite (rd_lookup _ _ _ _ Hσ1), (rd_lookup _ _ _ _ Hσ2) in Ha.
  destruct (d1 !! (p * 4 + 3)) as [v1|] eqn:E1, (d2 !! (p * 4 + 3)) as [v2|] eqn:E2;
    simpl in Ha; subst; try done.
  - apply lookup_lt_Some in E1. apply lookup_ge_None in E2. lia.
  - apply lookup_lt_Some in E2. apply lookup_ge_None in E1. lia.
Qed.

Lemma blurMask_reads_alpha_only_witness :
  (blurMask (mkImageData 1 1 0) 1 [[1; 2; 3; 200]%Z]).1
    !! data (blurMask (mkImageData 1 1 0) 1 [[1; 2; 3; 200]%Z]).2
  = (blurMask (mkImageData 1 1 0) 1 [[7; 8; 9; 200]%Z]).1
      !! data (blurMask (mkImageData 1 1 0) 1 [[7; 8; 9; 200]%Z]).2.
Proof.
  apply (blurMask_reads_alpha_only (mkImageData 1 1 0) (mkImageData 1 1 0) 1
           [[1; 2; 3; 200]%Z] [[7; 8; 9; 200]%Z] [1; 2; 3; 200]%Z [7; 8; 9; 200]%Z).
  - reflexivity.
  - reflexivity.
  - reflexivity.
  - reflexivity.
  - reflexivity.
  - intros [|p] Hp; simpl in *; [reflexivity|lia].
Defined.
(** ** The component [SegmentationTF] *)

(** X8.  The scopes of the tensor engine are balanced: in every reachable
    state the number of open scopes is the number of cycles in flight.
    A cycle opens one scope when it starts and its [finally] closes one
    when it settles, with a mask, without one, or with an exception. *)
Theorem tf_scopes_balanced (sampler : Sampler) (tr : list Event) :
  tfScopes (run sampler initial tr) = length (inflight (run sampler initial tr)).
Proof.
  apply (run_invariant sampler (λ s, tfScopes s = length (inflight s))); [done|].
  intros s e Hs.
  destruct (step_cases sampler s e)
    as [(-> & _ & Hst & ->)|[(k & cyc & o & -> & Hk)|[->|[Hraf Hres]]]]; [| | done |].
  - destruct (processFrame_starts sampler s Hst) as (_ & -> & _).
    rewrite processFrame_scopes, length_app by done. simpl. lia.
  - destruct (step_Resolve_fields sampler s k cyc o Hk) as (-> & -> & _).
    rewrite length_delete by done. lia.
  - destruct (step_quiet sampler s e Hraf Hres) as (_ & _ & -> & ->). done.
Qed.

(** X9.  The model status only moves forward: from [idle] to [loading],
    from [loading] to [ready] or [error].  No event changes it once it
    is [ready] or [error]; a failed initialisation is never retried. *)
Theorem model_status_progress (sampler : Sampler) (s : State) (e : Event) :
  let st := modelStatus s in
  let st' := modelStatus (step sampler s e).1 in
  match st with
  | idle => st' = idle ∨ st' = loading
  | loading => st' = loading ∨ st' = ready ∨ st' = error
  | ready => st' = ready
  | error => st' = error
  end.
Proof.
  intros st st'. unfold st', st. rewrite step_modelStatus.
  destruct e, (mounted s), (modelStatus s); auto.
Qed.

(** X10.  In every reachable state a segmenter is stored exactly when the
    component is mounted and the status is [ready]: the status never
    reads [ready] without a segmenter behind it, and no segmenter
    outlives the component. *)
Theorem segmenter_iff_ready (sampler : Sampler) (tr : list Event) :
  let s := run sampler initial tr in
  segmenterRef s = true ↔ mounted s = true ∧ modelStatus s = ready.
Proof.
  apply (run_invariant sampler
           (λ s, segmenterRef s = true ↔ mounted s = true ∧ modelStatus s = ready)).
  { cbn. split; [done|]. by intros [_ ?]. }
  intros s e Hs.
  assert (Hctl : ∀ s', control s' = control s →
            segmenterRef s' = true ↔ mounted s' = true ∧ modelStatus s' = ready).
  { intros s' Hc. unfold control in Hc. inversion Hc as [[H1 H2 H3 H4 H5 H6 H7]].
    by rewrite H1, H2, H6. }
  destruct (step_cases sampler s e)
    as [(-> & _ & _ & ->)|[(k & cyc & o & -> & Hk)|[->|[Hraf Hres]]]]; [| | done |].
  - apply Hctl, processFrame_control.
  - apply Hctl. by destruct (step_Resolve_fields sampler s k cyc o Hk) as (_ & _ & _ & -> & _).
  - destruct e; try done; try (by destruct (Hres k o));
      destruct s as [s_mo s_ms s_r s_rr s_vr s_en s_sg s_bg s_v s_c s_o s_rp
                       s_inf s_con s_tf];
      unfold step, loop_effect in *; cbn in *;
      destruct s_mo, s_ms, s_sg; cbn in *;
      try (destruct (bw s_v =? 0); cbn); repeat case_match; cbn; intuition congruence.
Qed.

(** X11.  Nothing happens before the model is ready: in every reachable
    state whose status is not [ready] (the model is still loading, or
    its initialisation failed) no run is requested, the loop is not
    armed, no cycle is in flight and both canvases are as they were
    mounted, 1280 by 720 and transparent. *)
Theorem idle_until_ready (sampler : Sampler) (tr : list Event) :
  let s := run sampler initial tr in
  modelStatus s ≠ ready →
  running s = false ∧ runningRef s = false ∧ rafPending s = false
  ∧ inflight s = []
  ∧ canvas s = blank 1280 720 ∧ offscreen s = blank 1280 720.
Proof.
  apply (run_invariant sampler
           (λ s, modelStatus s ≠ ready →
                 running s = false ∧ runningRef s = false ∧ rafPending s = false
                 ∧ inflight s = []
                 ∧ canvas s = blank 1280 720 ∧ offscreen s = blank 1280 720)).
  { done. }
  intros s e Hs Hst'.
  assert (Hst : modelStatus s ≠ ready).
  { intros Hr. apply Hst'. pose proof (model_status_step sampler s e) as H.
    by rewrite Hr in H. }
  destruct (Hs Hst) as (Hr & Hrr & Hp & Hin & Hc & Ho).
  destruct (step_cases sampler s e)
    as [(_ & Hp' & _)|[(k & cyc & o & _ & Hk)|[->|[Hraf Hres]]]]; [congruence| |done|].
  { by rewrite Hin in Hk. }
  destruct (step_quiet sampler s e Hraf Hres) as (-> & -> & -> & _).
  repeat split; try done; clear Hs Hc Ho Hin;
    (destruct e; try done; try (by destruct (Hres k o));
     destruct s as [s_mo s_ms s_r s_rr s_vr s_en s_sg s_bg s_v s_c s_o s_rp
                      s_inf s_con s_tf];
     unfold step, loop_effect in *; cbn in *; subst;
     destruct s_mo, s_ms; cbn in *;
     try (destruct (bw s_v =? 0); cbn); repeat case_match; cbn in *; congruence).
Qed.

Lemma idle_until_ready_witness :
  let s := run nearest initial
             [ModelInitStart; ModelInitFail; ClickStartStop; AnimationFrame] in
  running s = false ∧ runningRef s = false ∧ rafPending s = false
  ∧ inflight s = []
  ∧ canvas s = blank 1280 720 ∧ offscreen s = blank 1280 720.
Proof.
  intros s.
  apply (idle_until_ready nearest
           [ModelInitStart; ModelInitFail; ClickStartStop; AnimationFrame]).
  lazy. discriminate.
Defined.

(** X12.  Unmounting is final: after the component is unmounted the loop
    is never armed again, the camera is not reported ready, no segmenter
    is stored, no new cycle starts (the cycles in flight can only
    settle) and neither the status, the run request nor the working copy
    changes, whatever events follow. *)
Theorem unmount_is_final (sampler : Sampler) (s : State) (tr : list Event) :
  mounted s = true →
  let s' := run sampler (step sampler s Unmount).1 tr in
  mounted s' = false ∧ rafPending s' = false
  ∧ videoReadyRef s' = false ∧ segmenterRef s' = false
  ∧ length (inflight s') ≤ length (inflight s)
  ∧ offscreen s' = offscreen s
  ∧ modelStatus s' = modelStatus s ∧ running s' = running s.
Proof.
  intros Hm.
  apply (run_invariant sampler
           (λ s', mounted s' = false ∧ rafPending s' = false
                  ∧ videoReadyRef s' = false ∧ segmenterRef s' = false
                  ∧ length (inflight s') ≤ length (inflight s)
                  ∧ offscreen s' = offscreen s
                  ∧ modelStatus s' = modelStatus s ∧ running s' = running s)).
  { unfold step. rewrite Hm. cbn. repeat split; done. }
  clear Hm. intros s1 e (Hm & Hp & Hv & Hsg & Hlen & Ho & Hst & Hr).
  destruct (step_cases sampler s1 e)
    as [(_ & Hp' & _)|[(k & cyc & o & -> & Hk)|[->|[Hraf Hres]]]];
    [congruence| |done|].
  - destruct (step_Resolve_fields sampler s1 k cyc o Hk) as (-> & _ & -> & Hc & _).
    unfold control in Hc. inversion Hc as [[H1 H2 H3 H4 H5 H6 H7]].
    rewrite length_delete by done. repeat split; try congruence; lia.
  - destruct (step_quiet sampler s1 e Hraf Hres) as (_ & -> & -> & _).
    destruct e; try done; try (by destruct (Hres k o));
      unfold step; rewrite ?Hm; cbn; done.
Qed.

Lemma unmount_is_final_witness :
  let s := run nearest initial
             [ModelInitStart; ModelInitOk;
              VideoLoadedData (mkBitmap 1 1 [64; 64; 64; 255]%Z); ClickStartStop;
              AnimationFrame] in
  let s' := run nearest (step nearest s Unmount).1
              [ClickStartStop; AnimationFrame; Resolve 0 NoMask; ModelInitOk] in
  mounted s' = false ∧ rafPending s' = false
  ∧ videoReadyRef s' = false ∧ segmenterRef s' = false
  ∧ length (inflight s') ≤ length (inflight s)
  ∧ offscreen s' = offscreen s
  ∧ modelStatus s' = modelStatus s ∧ running s' = running s.
Proof.
  intros s.
  apply (unmount_is_final nearest s
           [ClickStartStop; AnimationFrame; Resolve 0 NoMask; ModelInitOk]).
  reflexivity.
Defined.

(** X13.  In every reachable state the output canvas and the working copy
    have the same dimensions, and every cycle in flight was started on a
    frame of non-zero width. *)
Theorem canvases_stay_in_step (sampler : Sampler) (tr : list Event) :
  let s := run sampler initial tr in
  bw (canvas s) = bw (offscreen s) ∧ bh (canvas s) = bh (offscreen s)
  ∧ Forall (λ cyc, 0 < cyc_width cyc) (inflight s).
Proof.
  apply (run_invariant sampler
           (λ s, bw (canvas s) = bw (offscreen s) ∧ bh (canvas s) = bh (offscreen s)
                 ∧ Forall (λ cyc, 0 < cyc_width cyc) (inflight s))).
  { repeat split. constructor. }
  intros s e (Hw & Hh & Hin).
  destruct (step_cases sampler s e)
    as [(-> & _ & Hst & ->)|[(k & cyc & o & -> & Hk)|[->|[Hraf Hres]]]]; [| |done|].
  - destruct (processFrame_starts sampler s Hst) as (-> & -> & ->).
    assert (Hv : 0 < bw (video s)).
    { unfold cycle_starts in Hst.
      destruct (bw (video s)); [by rewrite !andb_false_r in Hst|lia]. }
    split; [|split].
    + destruct (enhanceRef s); [done|].
      symmetry. by apply enhance_offscreen_size.
    + destruct (enhanceRef s); [done|].
      symmetry. by apply enhance_offscreen_size.
    + apply Forall_app. split; [done|]. by repeat constructor.
  - destruct (step_Resolve_fields sampler s k cyc o Hk) as (-> & _ & -> & _).
    rewrite (resolve_canvas _ _ _ cyc) by done.
    split; [|split].
    + destruct o; try done. by rewrite (proj1 (draw_cycle_size _ _ _ _ _ _ _)).
    + destruct o; try done. by rewrite (proj2 (draw_cycle_size _ _ _ _ _ _ _)).
    + by apply Forall_delete.
  - by destruct (step_quiet sampler s e Hraf Hres) as (-> & -> & -> & _).
Qed.

(** X14.  Only cycles draw: an event changes the output canvas or the
    working copy only if it is a frame callback that starts a cycle, or
    the settling of a cycle in flight with a mask.  Selecting a
    background or an enhancement, stopping, unmounting, a new video
    frame and a failed cycle leave both as they are. *)
Theorem only_cycles_draw (sampler : Sampler) (s : State) (e : Event) :
  canvas (step sampler s e).1 ≠ canvas s ∨ offscreen (step sampler s e).1 ≠ offscreen s →
  (e = AnimationFrame ∧ rafPending s = true ∧ cycle_starts s = true)
  ∨ (∃ k m, e = Resolve k (MaskData m) ∧ is_Some (inflight s !! k)).
Proof.
  intros Hch.
  destruct (step_cases sampler s e)
    as [(-> & Hp & Hst & _)|[(k & cyc & o & -> & Hk)|[Hs|[Hraf Hres]]]].
  - by left.
  - right. destruct (step_Resolve_fields sampler s k cyc o Hk) as (_ & _ & Ho & _).
    pose proof (resolve_canvas sampler s k cyc o Hk) as Hc.
    destruct o as [| | |m]; try (exfalso; destruct Hch as [Hch|Hch]; by apply Hch).
    by exists k, m.
  - exfalso. rewrite Hs in Hch. by destruct Hch.
  - exfalso. destruct (step_quiet sampler s e Hraf Hres) as (Hc & Ho & _).
    destruct Hch as [Hch|Hch]; by apply Hch.
Qed.

Lemma only_cycles_draw_witness :
  let s := run nearest initial
             [ModelInitStart; ModelInitOk;
              VideoLoadedData (mkBitmap 1 1 [64; 64; 64; 255]%Z); ClickStartStop] in
  (AnimationFrame = AnimationFrame ∧ rafPending s = true ∧ cycle_starts s = true)
  ∨ (∃ k m, AnimationFrame = Resolve k (MaskData m) ∧ is_Some (inflight s !! k)).
Proof.
  intros s. apply (only_cycles_draw nearest s AnimationFrame).
  left. intros H. apply (f_equal bw) in H. lazy in H. discriminate H.
Defined.

(** X15.  With enhancement [none] the working copy handed to the segmenter
    has the size and the pixels of the video frame. *)
Theorem unenhanced_copy_is_frame (sampler : Sampler) (s : State) (x y : nat) :
  cycle_starts s = true → enhanceRef s = none →
  is_frame (bw (video s)) (bh (video s)) (video s) →
  x < bw (video s) → y < bh (video s) →
  let s1 := processFrame sampler s in
  bw (offscreen s1) = bw (video s) ∧ bh (offscreen s1) = bh (video s)
  ∧ px_at (offscreen s1) x y = px_at (video s) x y.
Proof.
  intros Hst Hen Hfr Hx Hy s1. unfold s1.
  destruct (processFrame_starts sampler s Hst) as (_ & _ & ->). rewrite Hen.
  split; [done|]. split; [done|]. by apply fg_canvas_pixel.
Qed.

Lemma unenhanced_copy_is_frame_witness :
  let s := run nearest initial
             [ModelInitStart; ModelInitOk; SelectEnhance none;
              VideoLoadedData (mkBitmap 1 1 [64; 64; 64; 255]%Z); ClickStartStop] in
  let s1 := processFrame nearest s in
  bw (offscreen s1) = bw (video s) ∧ bh (offscreen s1) = bh (video s)
  ∧ px_at (offscreen s1) 0 0 = px_at (video s) 0 0.
Proof.
  intros s.
  apply (unenhanced_copy_is_frame nearest s 0 0).
  - reflexivity.
  - reflexivity.
  - split; [reflexivity|]. split; [reflexivity|]. split.
    + split; [reflexivity|]. solve_bytes.
    + intros [|x] [|y] Hx Hy; simpl in *; lia.
  - simpl; lia.
  - simpl; lia.
Defined.

(** X16.  A cycle composites the frame that is current when its mask
    arrives, not the frame the mask was computed from: if the camera
    delivers a new frame while the cycle is in flight, a mask that is
    opaque everywhere makes the cycle draw the pixels of the new
    frame. *)
Theorem cycle_composites_latest_frame (sampler : Sampler) (s : State) (k : nat)
    (cyc : Cycle) (f2 m : Bitmap) (x y : nat) :
  inflight s !! k = Some cyc → mounted s = true → bw (video s) ≠ 0 →
  is_frame (cyc_width cyc) (cyc_height cyc) f2 →
  wf_bitmap m → bw m = cyc_width cyc → bh m = cyc_height cyc →
  (∀ x y, x < cyc_width cyc → y < cyc_height cyc → alpha (px_at m x y) = 255%Z) →
  bw (canvas s) = cyc_width cyc → bh (canvas s) = cyc_height cyc →
  x < cyc_width cyc → y < cyc_height cyc →
  let s1 := (step sampler s (VideoFrame f2)).1 in
  let s2 := (step sampler s1 (Resolve k (MaskData m))).1 in
  video s1 = f2
  ∧ px_at (canvas s2) x y
    = (red (px_at f2 x y), green (px_at f2 x y), blue (px_at f2 x y), 255%Z).
Proof.
  intros Hk Hm Hv Hfr Hwf Hmw Hmh Hop Hcw Hch Hx Hy s1 s2.
  assert (Hs1 : s1 = set_video f2 s).
  { unfold s1, step. rewrite Hm. by destruct (bw (video s)). }
  split; [by rewrite Hs1|].
  unfold s2. rewrite (resolve_canvas _ _ _ cyc) by by rewrite Hs1.
  rewrite Hs1. cbn [video canvas bgImageRef set_video].
  by apply draw_cycle_full_mask.
Qed.

Lemma cycle_composites_latest_frame_witness :
  let s := run nearest initial
             [ModelInitStart; ModelInitOk;
              VideoLoadedData (mkBitmap 1 1 [64; 64; 64; 255]%Z); ClickStartStop;
              AnimationFrame] in
  let f2 := mkBitmap 1 1 [10; 20; 30; 255]%Z in
  let m := mkBitmap 1 1 [0; 0; 0; 255]%Z in
  let s1 := (step nearest s (VideoFrame f2)).1 in
  let s2 := (step nearest s1 (Resolve 0 (MaskData m))).1 in
  video s1 = f2
  ∧ px_at (canvas s2) 0 0
    = (red (px_at f2 0 0), green (px_at f2 0 0), blue (px_at f2 0 0), 255%Z).
Proof.
  intros s f2 m.
  apply (cycle_composites_latest_frame nearest s 0 (mkCycle 1 1) f2 m 0 0).
  - reflexivity.
  - reflexivity.
  - simpl; lia.
  - split; [reflexivity|]. split; [reflexivity|]. split.
    + split; [reflexivity|]. solve_bytes.
    + intros [|x] [|y] Hx Hy; simpl in *; lia.
  - split; [reflexivity|]. solve_bytes.
  - reflexivity.
  - reflexivity.
  - intros [|x] [|y] Hx Hy; simpl in *; lia.
  - reflexivity.
  - reflexivity.
  - simpl; lia.
  - simpl; lia.
Defined.

(** X17.  Cycles settle in any order and the one that settles last owns
    the canvas: on a canvas of the size of the cycles, when a newer
    cycle settles before an older one, the canvas ends up as what the
    older cycle draws, with nothing left of the composite of the newer
    one. *)
Theorem last_settled_cycle_wins (sampler : Sampler) (s : State) (c0 c1 : Cycle)
    (m0 m1 : Bitmap) :
  inflight s !! 0 = Some c0 → inflight s !! 1 = Some c1 →
  bw (canvas s) = cyc_width c0 → bh (canvas s) = cyc_height c0 →
  let s' := run sampler s [Resolve 1 (MaskData m1); Resolve 0 (MaskData m0)] in
  canvas s'
  = draw_cycle sampler (cyc_width c0) (cyc_height c0) (bgImageRef s) (video s) m0
               (canvas s)
  ∧ canvas s' = canvas (step sampler s (Resolve 0 (MaskData m0))).1.
Proof.
  intros H0 H1 Hw Hh s'.
  assert (Hc : canvas s'
               = draw_cycle sampler (cyc_width c0) (cyc_height c0) (bgImageRef s)
                   (video s) m0 (canvas s)).
  { unfold s', run. cbn [foldl].
    destruct (step_Resolve_fields sampler s 1 c1 (MaskData m1) H1)
      as (Hin & _ & _ & _ & Hv & Hbg & _).
    rewrite (resolve_canvas _ _ _ c0); cycle 1.
    { rewrite Hin. destruct (inflight s) as [|a [|b l]]; try done. }
    rewrite Hv, Hbg. rewrite (resolve_canvas _ _ _ c1) by done.
    apply draw_cycle_overwrites; try done.
    - by rewrite (proj1 (draw_cycle_size _ _ _ _ _ _ _)).
    - by rewrite (proj2 (draw_cycle_size _ _ _ _ _ _ _)). }
  split; [done|]. by rewrite Hc, (resolve_canvas _ _ _ c0).
Qed.

Lemma last_settled_cycle_wins_witness :
  let s := run nearest initial
             [ModelInitStart; ModelInitOk;
              VideoLoadedData (mkBitmap 1 1 [64; 64; 64; 255]%Z); ClickStartStop;
              AnimationFrame; AnimationFrame] in
  let m0 := mkBitmap 1 1 [0; 0; 0; 255]%Z in
  let m1 := mkBitmap 1 1 [0; 0; 0; 0]%Z in
  let s' := run nearest s [Resolve 1 (MaskData m1); Resolve 0 (MaskData m0)] in
  canvas s'
  = draw_cycle nearest (cyc_width (mkCycle 1 1)) (cyc_height (mkCycle 1 1))
      (bgImageRef s) (video s) m0 (canvas s)
  ∧ canvas s' = canvas (step nearest s (Resolve 0 (MaskData m0))).1.
Proof.
  intros s m0 m1.
  apply (last_settled_cycle_wins nearest s (mkCycle 1 1) (mkCycle 1 1) m0 m1).
  - reflexivity.
  - reflexivity.
  - reflexivity.
  - reflexivity.
Defined.

(** X18.  The feathering of the mask is local.  Where the mask delivered
    to a cycle has alpha 255 at a pixel and at all its in-bounds
    neighbours, the cycle draws the pixel of the video frame; where it
    has alpha 0 at the pixel and at all its neighbours, the cycle draws
    the background (the image, or the fallback fill) untouched.  Only
    pixels next to an edge of the mask are blended. *)
Theorem feathering_is_local (sampler : Sampler) (w h : nat) (bgImage : option Bitmap)
    (video m canvas : Bitmap) (x y : nat) (a : Z) :
  wf_bitmap m → bw m = w → bh m = h → is_frame w h video → bg_fits w h bgImage →
  bw canvas = w → bh canvas = h → x < w → y < h →
  (∀ xx yy, xx < w → yy < h → x - 1 ≤ xx ≤ x + 1 → y - 1 ≤ yy ≤ y + 1 →
     alpha (px_at m xx yy) = a) →
  let out := px_at (draw_cycle sampler w h bgImage video m canvas) x y in
  let v := px_at video x y in
  (a = 255%Z → out = (red v, green v, blue v, 255%Z))
  ∧ (a = 0%Z → out = bg_pixel bgImage x y).
Proof.
  intros Hm Hmw Hmh Hfr Hbg Hcw Hch Hx Hy Hwin out v.
  assert (Hout : out = source_over (red v, green v, blue v, a)
                         (bg_pixel bgImage x y)
                 ∧ alpha (bg_pixel bgImage x y) = 255%Z).
  { unfold out. rewrite draw_cycle_pixel by done.
    rewrite reconcile_input_same by done.
    destruct (bg_canvas_pixel sampler w h bgImage canvas x y Hcw Hch Hbg Hx Hy)
      as [-> Hba].
    split; [|done]. do 2 f_equal.
    assert (a ≤ alpha_of (blur_out w h 1 (px m)) w (x, y) ≤ a)%Z; [|lia].
    apply blur_out_alpha_between; try done.
    - destruct Hm as [Hlen Hb]. split; [|done]. by rewrite <- Hmw, <- Hmh.
    - intros xx yy Hxx Hyy Hrx Hry. specialize (Hwin xx yy Hxx Hyy Hrx Hry).
      unfold alpha_of. cbn [fst snd]. rewrite <- Hmw.
      unfold alpha, px_at in Hwin. cbn [snd] in Hwin. lia. }
  destruct Hout as [-> Hba]. split; intros ->.
  - apply source_over_opaque_src.
  - rewrite (pixel_eta (bg_pixel bgImage x y)), Hba.
    rewrite source_over_opaque_dst.
    rewrite !Z.mul_0_r, !Z.add_0_l, !Z.sub_0_r.
    by rewrite !round_div_half by lia.
Qed.

Lemma feathering_is_local_witness :
  let video := mkBitmap 1 1 [64; 64; 64; 255]%Z in
  let m := mkBitmap 1 1 [0; 0; 0; 0]%Z in
  let out := px_at (draw_cycle nearest 1 1 None video m (blank 1 1)) 0 0 in
  let v := px_at video 0 0 in
  (0%Z = 255%Z → out = (red v, green v, blue v, 255%Z))
  ∧ (0%Z = 0%Z → out = bg_pixel None 0 0).
Proof.
  intros video m.
  apply (feathering_is_local nearest 1 1 None video m (blank 1 1) 0 0 0).
  - split; [reflexivity|]. solve_bytes.
  - reflexivity.
  - reflexivity.
  - split; [reflexivity|]. split; [reflexivity|]. split.
    + split; [reflexivity|]. solve_bytes.
    + intros [|x] [|y] Hx Hy; simpl in *; lia.
  - exact I.
  - reflexivity.
  - reflexivity.
  - simpl; lia.
  - simpl; lia.
  - intros [|xx] [|yy] Hxx Hyy _ _; simpl in *; lia.
Defined.

(** X19.  The loop does not wait for a cycle to settle before it starts
    the next one: on an armed loop whose guards pass, [n] frame
    callbacks in a row start [n] cycles, all of them in flight at once
    with a scope open for each, and the loop is still armed. *)
Theorem cycles_pile_up (sampler : Sampler) (s : State) (n : nat) :
  rafPending s = true → cycle_starts s = true →
  let s' := run sampler s (replicate n AnimationFrame) in
  inflight s' = inflight s ++ replicate n (mkCycle (bw (video s)) (bh (video s)))
  ∧ tfScopes s' = tfScopes s + n
  ∧ rafPending s' = true.
Proof.
  revert s. induction n as [|n IH]; intros s Hp Hst.
  { cbn. rewrite app_nil_r. repeat split; [lia|done]. }
  cbn [replicate run foldl]. fold (run sampler (step sampler s AnimationFrame).1
                                     (replicate n AnimationFrame)).
  rewrite step_AnimationFrame, Hp.
  destruct (processFrame_again sampler s Hp Hst) as [Hp' Hst'].
  destruct (IH _ Hp' Hst') as (Hin & Hsc & Hraf).
  destruct (processFrame_starts sampler s Hst) as (_ & Hin1 & _).
  destruct (processFrame_video sampler s) as (Hv & _).
  rewrite Hin, Hsc, Hin1, Hv, processFrame_scopes by done.
  rewrite <- app_assoc. repeat split; [lia|done].
Qed.

Lemma cycles_pile_up_witness :
  let s := run nearest initial
             [ModelInitStart; ModelInitOk;
              VideoLoadedData (mkBitmap 1 1 [64; 64; 64; 255]%Z); ClickStartStop] in
  let s' := run nearest s (replicate 3 AnimationFrame) in
  inflight s' = inflight s ++ replicate 3 (mkCycle (bw (video s)) (bh (video s)))
  ∧ tfScopes s' = tfScopes s + 3
  ∧ rafPending s' = true.
Proof.
  intros s.
  apply (cycles_pile_up nearest s 3); reflexivity.
Defined.

(** X20.  A cycle never draws outside the rectangle of the frame it was
    started on: when it settles on a canvas that a later cycle has
    resized, the pixels of the canvas to the right of or below that
    rectangle are left as they are. *)
Theorem cycle_draws_inside_its_frame (sampler : Sampler) (s : State) (k : nat)
    (cyc : Cycle) (o : Outcome) (x y : nat) :
  inflight s !! k = Some cyc →
  x < bw (canvas s) → y < bh (canvas s) →
  cyc_width cyc ≤ x ∨ cyc_height cyc ≤ y →
  px_at (canvas (step sampler s (Resolve k o)).1) x y = px_at (canvas s) x y.
Proof.
  intros Hk Hx Hy Hout. rewrite (resolve_canvas _ _ _ cyc) by done.
  destruct o; try done. by apply draw_cycle_outside.
Qed.

Lemma cycle_draws_inside_its_frame_witness :
  let s := run nearest initial
             [ModelInitStart; ModelInitOk;
              VideoLoadedData (mkBitmap 1 1 [64; 64; 64; 255]%Z); ClickStartStop;
              AnimationFrame;
              VideoFrame (mkBitmap 2 1 [1; 2; 3; 255; 4; 5; 6; 255]%Z);
              AnimationFrame] in
  px_at (canvas (step nearest s
                   (Resolve 0 (MaskData (mkBitmap 1 1 [0; 0; 0; 255]%Z)))).1) 1 0
  = px_at (canvas s) 1 0.
Proof.
  intros s.
  apply (cycle_draws_inside_its_frame nearest s 0 (mkCycle 1 1)
           (MaskData (mkBitmap 1 1 [0; 0; 0; 255]%Z)) 1 0).
  - reflexivity.
  - simpl; lia.
  - simpl; lia.
  - left. simpl; lia.
Defined.
(** ** [App.tsx] *)

(** X21.  [applyEnhancement] of [App.tsx] has no effect: the filter is
    assigned between [save] and [restore] and nothing is drawn in
    between, so the context it returns is the one it was given, and what
    [onResults] draws does not depend on the enhancement mode. *)
Theorem applyEnhancement_has_no_effect (ua : UserAgent) (mode mode' : string)
    (ctx : Context2D) (canvasRef : option Context2D) (videoRef : option Bitmap)
    (segmentationMask : option Bitmap) :
  App.applyEnhancement ctx mode = ctx
  ∧ App.onResults ua mode canvasRef videoRef segmentationMask
    = App.onResults ua mode' canvasRef videoRef segmentationMask.
Proof.
  assert (H : ∀ c m, App.applyEnhancement c m = c) by (by intros [b st sv] m).
  split; [apply H|].
  by destruct canvasRef, videoRef.
Qed.

(** X22.  When a segmentation mask of the size of the frame is delivered,
    [onResults] leaves nothing of the video frame on the canvas: the
    mask is inverted by the [difference] fill with white, which makes it
    opaque, and drawn with [source-in] over the frame, which keeps the
    colours of the source.  Every pixel of the canvas is then the
    inverted mask pixel, fully opaque, whatever the frame shows. *)
Theorem onResults_shows_inverted_mask (ua : UserAgent) (mode : string)
    (ctx : Context2D) (video mask : Bitmap) (x y : nat) :
  opaque video → wf_bitmap mask → bw mask = bw video → bh mask = bh video →
  x < bw video → y < bh video →
  let m := px_at mask x y in
  ∃ out,
    App.onResults ua mode (Some ctx) (Some video) (Some mask) = (Some out, Normal)
    ∧ bw (cx_bitmap out) = bw video ∧ bh (cx_bitmap out) = bh video
    ∧ px_at (cx_bitmap out) x y
      = (round_div (65025 - alpha m * red m) 255,
         round_div (65025 - alpha m * green m) 255,
         round_div (65025 - alpha m * blue m) 255, 255%Z).
Proof.
  intros Hop Hwf Hmw Hmh Hx Hy m.
  set (w := bw video) in *. set (h := bh video) in *.
  unfold App.onResults, App.draw_results.
  cbn [set_width set_height cx_bitmap blank bw bh].
  fold w h. fold (new_canvas w h).
  assert (Happ : ∀ c, App.applyEnhancement c mode = c) by (by intros [b st sv]).
  rewrite Happ.
  set (maskCtx := fillRect ua w h _).
  set (frameCtx := set_operation SourceIn _).
  assert (Hmsize : bw (cx_bitmap maskCtx) = w ∧ bh (cx_bitmap maskCtx) = h) by done.
  destruct Hmsize as [Hmw' Hmh'].
  rewrite drawCanvas_Normal by lia.
  eexists. split; [reflexivity|]. split; [done|]. split; [done|].
  cbn [set_operation cx_bitmap].
  rewrite px_at_drawImage by done.
  rewrite source_at_own_size, touches_natural by lia.
  assert (Hmpx : px_at (cx_bitmap maskCtx) x y
                 = (round_div (65025 - alpha m * red m) 255,
                    round_div (65025 - alpha m * green m) 255,
                    round_div (65025 - alpha m * blue m) 255, 255%Z)).
  { unfold maskCtx. rewrite px_at_fillRect by done.
    cbn [set_fillStyle set_operation cx_state cx_bitmap ds_operation ds_filter
         ds_fillStyle].
    rewrite inside_true by done. cbn [paint].
    rewrite px_at_first_draw by done.
    destruct (px_at_bytes mask x y Hwf) as (Hr & Hg & Hb & Ha).
    unfold m. destruct (px_at mask x y) as [[[r g] b] a].
    cbn [red green blue alpha fst snd] in *.
    rewrite source_over_transparent by done.
    destruct (Z.eqb_spec a 0) as [->|_].
    - unfold transparent. rewrite difference_white by (unfold is_byte; lia).
      by rewrite !Z.mul_0_l.
    - by rewrite difference_white. }
  assert (Hfpx : alpha (px_at (cx_bitmap frameCtx) x y) = 255%Z).
  { unfold frameCtx. cbn [set_operation cx_bitmap].
    rewrite px_at_first_draw by done.
    specialize (Hop x y Hx Hy). rewrite (pixel_eta (px_at video x y)).
    unfold alpha in Hop |- *. rewrite Hop. by rewrite source_over_opaque_src. }
  rewrite Hmpx.
  assert (Hst : cx_state frameCtx = mkDrawingState "none" (0, 0, 0, 255)%Z SourceIn)
    by done.
  rewrite Hst. cbn [ds_operation ds_filter paint].
  rewrite apply_filter_none. by apply source_in_opaque.
Qed.

Lemma onResults_shows_inverted_mask_witness :
  let m := px_at (mkBitmap 1 1 [255; 0; 100; 255]%Z) 0 0 in
  ∃ out,
    App.onResults plain_ua "auto" (Some (new_canvas 3 3))
      (Some (mkBitmap 1 1 [64; 64; 64; 255]%Z))
      (Some (mkBitmap 1 1 [255; 0; 100; 255]%Z)) = (Some out, Normal)
    ∧ bw (cx_bitmap out) = bw (mkBitmap 1 1 [64; 64; 64; 255]%Z)
    ∧ bh (cx_bitmap out) = bh (mkBitmap 1 1 [64; 64; 64; 255]%Z)
    ∧ px_at (cx_bitmap out) 0 0
      = (round_div (65025 - alpha m * red m) 255,
         round_div (65025 - alpha m * green m) 255,
         round_div (65025 - alpha m * blue m) 255, 255%Z).
Proof.
  apply (onResults_shows_inverted_mask plain_ua "auto" (new_canvas 3 3)
           (mkBitmap 1 1 [64; 64; 64; 255]%Z) (mkBitmap 1 1 [255; 0; 100; 255]%Z) 0 0).
  - intros [|x] [|y] Hx Hy; simpl in *; lia.
  - split; [reflexivity|]. solve_bytes.
  - reflexivity.
  - reflexivity.
  - simpl; lia.
  - simpl; lia.
Defined.

(** X23.  When the background fails to load, its handler paints the whole
    output canvas with ['#f0f0f0']: whatever [onResults] had drawn, the
    frame or the mask, is covered. *)
Theorem background_error_paints_canvas (ua : UserAgent) (mode : string)
    (ctx out : Context2D) (video : Bitmap) (segmentationMask : option Bitmap)
    (x y : nat) :
  App.onResults ua mode (Some ctx) (Some video) segmentationMask = (Some out, Normal) →
  x < bw video → y < bh video →
  let res := App.bgImg_onerror ua (App.createBackground out) out in
  res.2 = Normal ∧ px_at (cx_bitmap res.1.2) x y = (240, 240, 240, 255)%Z.
Proof.
  intros Hres Hx Hy res.
  destruct (onResults_Normal _ _ _ _ _ _ Hres) as (Hw & Hh & Hst).
  unfold res, App.bgImg_onerror, App.createBackground.
  rewrite Hw, Hh.
  set (bgCtx := fillRect ua _ _ _).
  assert (Hbsize : bw (cx_bitmap bgCtx) = bw video ∧ bh (cx_bitmap bgCtx) = bh video)
    by done.
  destruct Hbsize as [Hbw Hbh].
  rewrite drawCanvas_Normal by lia. cbn [fst snd]. split; [done|].
  rewrite px_at_drawImage by lia.
  rewrite Hst. cbn [default_state ds_operation ds_filter].
  rewrite apply_filter_none, source_at_own_size, touches_natural by lia.
  cbn [paint].
  assert (Hb : px_at (cx_bitmap bgCtx) x y = (240, 240, 240, 255)%Z).
  { unfold bgCtx. rewrite px_at_fillRect by done.
    cbn [set_fillStyle new_canvas cx_state cx_bitmap default_state ds_operation
         ds_filter ds_fillStyle].
    rewrite apply_filter_none, inside_true by done. cbn [paint].
    apply source_over_opaque_src. }
  rewrite Hb. apply source_over_opaque_src.
Qed.

Lemma background_error_paints_canvas_witness :
  let out := mkContext2D (mkBitmap 1 1 [64; 64; 64; 255]%Z) default_state [] in
  let res := App.bgImg_onerror plain_ua (App.createBackground out) out in
  res.2 = Normal ∧ px_at (cx_bitmap res.1.2) 0 0 = (240, 240, 240, 255)%Z.
Proof.
  apply (background_error_paints_canvas plain_ua "auto" (new_canvas 3 3)
           (mkContext2D (mkBitmap 1 1 [64; 64; 64; 255]%Z) default_state [])
           (mkBitmap 1 1 [64; 64; 64; 255]%Z) None 0 0).
  - reflexivity.
  - simpl; lia.
  - simpl; lia.
Defined.

(** X24.  When the background loads, its handler draws the background
    canvas over the output canvas.  The background canvas depends on the
    image and on the size of the output canvas only, and wherever it is
    opaque the output canvas shows it: the frame and the mask that
    [onResults] had drawn there are covered. *)
Theorem background_load_covers_canvas (ua : UserAgent) (mode : string)
    (ctx out : Context2D) (video bgImg : Bitmap) (segmentationMask : option Bitmap)
    (x y : nat) :
  App.onResults ua mode (Some ctx) (Some video) segmentationMask = (Some out, Normal) →
  x < bw video → y < bh video →
  let res := App.bgImg_onload ua bgImg (App.createBackground out) out in
  res.2 = Normal
  ∧ res.1.1 = draw_cover ua bgImg (bw video) (bh video)
                (new_canvas (bw video) (bh video))
  ∧ (alpha (px_at (cx_bitmap res.1.1) x y) = 255%Z →
     px_at (cx_bitmap res.1.2) x y = px_at (cx_bitmap res.1.1) x y).
Proof.
  intros Hres Hx Hy res.
  destruct (onResults_Normal _ _ _ _ _ _ Hres) as (Hw & Hh & Hst).
  unfold res, App.bgImg_onload, App.createBackground.
  rewrite Hw, Hh.
  set (bgCtx := draw_cover ua _ _ _ _).
  destruct (draw_cover_size ua bgImg (bw video) (bh video)
              (new_canvas (bw video) (bh video))) as (Hbw & Hbh & _).
  fold bgCtx in Hbw, Hbh. cbn [new_canvas cx_bitmap blank bw bh] in Hbw, Hbh.
  rewrite drawCanvas_Normal by lia. cbn [fst snd].
  split; [done|]. split; [done|]. intros Ha.
  rewrite px_at_drawImage by lia.
  rewrite Hst. cbn [default_state ds_operation ds_filter].
  rewrite apply_filter_none, source_at_own_size, touches_natural by lia.
  cbn [paint]. rewrite (pixel_eta (px_at (cx_bitmap bgCtx) x y)).
  unfold alpha in Ha |- *. rewrite Ha. apply source_over_opaque_src.
Qed.

Lemma background_load_covers_canvas_witness :
  let out := mkContext2D (mkBitmap 1 1 [64; 64; 64; 255]%Z) default_state [] in
  let bgImg := mkBitmap 2 2 [9; 8; 7; 255; 9; 8; 7; 255; 9; 8; 7; 255; 9; 8; 7; 255]%Z in
  let res := App.bgImg_onload plain_ua bgImg (App.createBackground out) out in
  px_at (cx_bitmap res.1.2) 0 0 = px_at (cx_bitmap res.1.1) 0 0.
Proof.
  intros out bgImg res.
  apply (background_load_covers_canvas plain_ua "auto" (new_canvas 3 3) out
           (mkBitmap 1 1 [64; 64; 64; 255]%Z) bgImg None 0 0).
  - reflexivity.
  - simpl; lia.
  - simpl; lia.
  - reflexivity.
Defined.

(** X25.  [onResults] does not check that the video has a frame: when
    the video has no width or no height and a mask is delivered, the
    mask canvas has no pixels, [drawImage] refuses it and [onResults]
    throws, leaving the context in [source-in] mode. *)
Theorem onResults_throws_without_frame (ua : UserAgent) (mode : string)
    (ctx : Context2D) (video mask : Bitmap) :
  bw video = 0 ∨ bh video = 0 →
  ∃ out,
    App.onResults ua mode (Some ctx) (Some video) (Some mask) = (Some out, Throws)
    ∧ ds_operation (cx_state out) = SourceIn.
Proof.
  intros Hz. unfold App.onResults, App.draw_results.
  assert (Happ : ∀ c, App.applyEnhancement c mode = c) by (by intros [b st sv]).
  rewrite Happ.
  cbn [set_width set_height cx_bitmap blank bw bh].
  unfold drawCanvas.
  assert ((bw (cx_bitmap (fillRect ua (bw video) (bh video)
             (set_fillStyle css_white (set_operation Difference
                (drawImage ua mask (stretch_rect (bw video) (bh video))
                   (new_canvas (bw video) (bh video))))))) =? 0)
          || (bh (cx_bitmap (fillRect ua (bw video) (bh video)
             (set_fillStyle css_white (set_operation Difference
                (drawImage ua mask (stretch_rect (bw video) (bh video))
                   (new_canvas (bw video) (bh video))))))) =? 0) = true) as ->.
  { cbn [fillRect set_bitmap cx_bitmap tabulate bw bh set_fillStyle set_operation
         drawImage new_canvas blank].
    destruct Hz as [-> | ->]; [done|]. by rewrite orb_true_r. }
  eexists. split; [reflexivity|]. done.
Qed.

Lemma onResults_throws_without_frame_witness :
  ∃ out,
    App.onResults plain_ua "auto" (Some (new_canvas 3 3)) (Some (blank 0 0))
      (Some (mkBitmap 1 1 [255; 255; 255; 255]%Z)) = (Some out, Throws)
    ∧ ds_operation (cx_state out) = SourceIn.
Proof.
  apply (onResults_throws_without_frame plain_ua "auto" (new_canvas 3 3) (blank 0 0)
           (mkBitmap 1 1 [255; 255; 255; 255]%Z)).
  left. reflexivity.
Defined.
(** ** The still-image component *)

(** X26.  [replaceBackground] returns an opaque image unchanged: the
    image is drawn last, with [source-over], on a canvas of its own
    size, so wherever the image is opaque the result shows the image,
    whatever the mask and the background are, loaded or not. *)
Theorem replaceBackground_keeps_opaque_image (ua : UserAgent) (image mask : Bitmap)
    (bgImg : option Bitmap) (x y : nat) :
  0 < bw mask → 0 < bh mask → x < bw image → y < bh image →
  alpha (px_at image x y) = 255%Z →
  let res := Still.replaceBackground ua image mask bgImg in
  res.2 = Normal
  ∧ bw (cx_bitmap res.1) = bw image ∧ bh (cx_bitmap res.1) = bh image
  ∧ px_at (cx_bitmap res.1) x y = px_at image x y.
Proof.
  intros Hmw Hmh Hx Hy Ha res. unfold res.
  destruct (replaceBackground_pixel ua image mask bgImg x y Hmw Hmh Hx Hy)
    as (-> & -> & -> & ->).
  repeat split.
  rewrite (pixel_eta (px_at image x y)). unfold alpha in Ha |- *. rewrite Ha.
  apply source_over_opaque_src.
Qed.

Lemma replaceBackground_keeps_opaque_image_witness :
  let image := mkBitmap 1 1 [10; 20; 30; 255]%Z in
  let mask := mkBitmap 1 1 [0; 0; 0; 255]%Z in
  let res := Still.replaceBackground plain_ua image mask
               (Some (mkBitmap 1 1 [200; 100; 50; 255]%Z)) in
  res.2 = Normal
  ∧ bw (cx_bitmap res.1) = bw image ∧ bh (cx_bitmap res.1) = bh image
  ∧ px_at (cx_bitmap res.1) 0 0 = px_at image 0 0.
Proof.
  intros image mask.
  apply (replaceBackground_keeps_opaque_image plain_ua image mask
           (Some (mkBitmap 1 1 [200; 100; 50; 255]%Z)) 0 0).
  - simpl; lia.
  - simpl; lia.
  - simpl; lia.
  - simpl; lia.
  - reflexivity.
Defined.

(** X27.  No colour of the background reaches the result of
    [replaceBackground]: drawing the mask with [source-in] replaces the
    colours of the background by those of the mask and keeps its alpha
    only.  At a pixel that the loaded background covers opaquely, the
    result is what it is when the background fails to load. *)
Theorem replaceBackground_hides_background (ua : UserAgent) (image mask bgImg : Bitmap)
    (x y : nat) :
  0 < bw mask → 0 < bh mask → x < bw image → y < bh image →
  alpha (px_at (cx_bitmap (Still.backdrop ua image (Some bgImg))) x y) = 255%Z →
  (Still.replaceBackground ua image mask (Some bgImg)).2 = Normal
  ∧ px_at (cx_bitmap (Still.replaceBackground ua image mask (Some bgImg)).1) x y
    = px_at (cx_bitmap (Still.replaceBackground ua image mask None).1) x y.
Proof.
  intros Hmw Hmh Hx Hy Ha.
  destruct (replaceBackground_pixel ua image mask (Some bgImg) x y Hmw Hmh Hx Hy)
    as (-> & _ & _ & ->).
  destruct (replaceBackground_pixel ua image mask None x y Hmw Hmh Hx Hy)
    as (_ & _ & _ & ->).
  split; [done|]. f_equal.
  destruct (touches (natural mask) x y); [|done]. cbn [paint].
  apply source_in_alpha. rewrite px_at_backdrop_None by done. exact Ha.
Qed.

Lemma replaceBackground_hides_background_witness :
  let image := mkBitmap 1 1 [10; 20; 30; 100]%Z in
  let mask := mkBitmap 1 1 [255; 255; 255; 255]%Z in
  let bgImg := mkBitmap 2 2 [9; 8; 7; 255; 9; 8; 7; 255; 9; 8; 7; 255; 9; 8; 7; 255]%Z in
  (Still.replaceBackground plain_ua image mask (Some bgImg)).2 = Normal
  ∧ px_at (cx_bitmap (Still.replaceBackground plain_ua image mask (Some bgImg)).1) 0 0
    = px_at (cx_bitmap (Still.replaceBackground plain_ua image mask None).1) 0 0.
Proof.
  intros image mask bgImg.
  apply (replaceBackground_hides_background plain_ua image mask bgImg 0 0).
  - simpl; lia.
  - simpl; lia.
  - simpl; lia.
  - simpl; lia.
  - reflexivity.
Defined.

(** X28.  [applyEnhancement] of the still-image component draws the image
    twice, first as it is and then through the filter of the mode, and
    leaves the filter at ['none'].  The result has the size of the
    image.  Where the filtered pixel is opaque the second drawing covers
    the first and the result is the filtered pixel; so for an opaque
    pixel and a mode that is none of the four known ones the result is
    the pixel of the image itself.  Of a pixel that is not opaque, which
    is drawn twice over itself, nothing is stated. *)
Theorem still_enhancement_opaque_pixels (ua : UserAgent) (image : Bitmap) (mode : string)
    (x y : nat) :
  x < bw image → y < bh image →
  let out := Still.applyEnhancement ua image mode in
  let p := px_at image x y in
  let q := apply_filter ua (filter_of_mode mode) p in
  bw (cx_bitmap out) = bw image ∧ bh (cx_bitmap out) = bh image
  ∧ ds_filter (cx_state out) = "none"
  ∧ (alpha q = 255%Z → px_at (cx_bitmap out) x y = q)
  ∧ (filter_of_mode mode = "none" → alpha p = 255%Z → px_at (cx_bitmap out) x y = p).
Proof.
  intros Hx Hy out p q.
  assert (Hpx : px_at (cx_bitmap out) x y = source_over q (source_over p transparent)).
  { unfold out, Still.applyEnhancement. cbn [set_filter cx_bitmap].
    rewrite px_at_drawImage by done.
    cbn [set_filter cx_state cx_bitmap ds_operation ds_filter drawImage set_bitmap
         new_canvas default_state].
    rewrite px_at_tabulate by done.
    rewrite !source_at_own_size, !touches_natural, apply_filter_none by done.
    cbn [paint]. by rewrite px_at_blank. }
  split; [done|]. split; [done|]. split; [done|]. split.
  - intros Ha. rewrite Hpx, (pixel_eta q). unfold alpha in Ha |- *. rewrite Ha.
    apply source_over_opaque_src.
  - intros Hnone Ha. rewrite Hpx. unfold q. rewrite Hnone, apply_filter_none.
    rewrite (pixel_eta p). unfold alpha in Ha |- *. rewrite Ha.
    apply source_over_opaque_src.
Qed.

Lemma still_enhancement_opaque_pixels_witness :
  let image := mkBitmap 1 1 [10; 20; 30; 255]%Z in
  let out := Still.applyEnhancement plain_ua image "sepia" in
  let p := px_at image 0 0 in
  let q := apply_filter plain_ua (filter_of_mode "sepia") p in
  bw (cx_bitmap out) = bw image ∧ bh (cx_bitmap out) = bh image
  ∧ ds_filter (cx_state out) = "none"
  ∧ (alpha q = 255%Z → px_at (cx_bitmap out) 0 0 = q)
  ∧ (filter_of_mode "sepia" = "none" → alpha p = 255%Z → px_at (cx_bitmap out) 0 0 = p).
Proof.
  intros image.
  apply (still_enhancement_opaque_pixels plain_ua image "sepia" 0 0); simpl; lia.
Defined.
(** ** Placement of the background by [createBackground] and
    [replaceBackground] *)

Section cover_integer.
Local Open Scope Q_scope.

(** X29.  When the canvas is an integer number [k] of times as wide as the
    image, and [k] times the height of the image is at least the height
    of the canvas, the cover placement magnifies the image [k] times: it
    spans the width of the canvas, is [k] times as high as the image and
    is centred vertically, half of the excess height being cut at the
    top.  The same holds with the two axes exchanged; with [k = 1] and
    equal sizes the rectangle is the canvas.  The sizes are those that a
    double holds exactly: every intermediate value of the computation
    is then an integer or half an integer and the quotient that is not
    taken is at most [k], so the arithmetic of the code and the exact
    one agree. *)
Theorem cover_rect_integer_scale (cw ch bgw bgh k : nat) :
  (0 < bgw)%nat → (0 < bgh)%nat →
  (Z.of_nat (k * bgw) ≤ 2 ^ 53)%Z → (Z.of_nat (k * bgh) ≤ 2 ^ 53)%Z →
  let c := cover_rect (Qnat cw) (Qnat ch) (Qnat bgw) (Qnat bgh) in
  (cw = (k * bgw)%nat → (ch ≤ k * bgh)%nat →
   rx c == 0 ∧ rw c == Qnat cw ∧ rh c == Qnat (k * bgh)
   ∧ ry c == - (Qnat (k * bgh - ch) / 2))
  ∧ (ch = (k * bgh)%nat → (cw ≤ k * bgw)%nat →
     ry c == 0 ∧ rh c == Qnat ch ∧ rw c == Qnat (k * bgw)
     ∧ rx c == - (Qnat (k * bgw - cw) / 2)).
Proof.
  intros Hbw Hbh _ _ c. unfold c, cover_rect. cbn [rx ry rw rh].
  assert (Hqw : 0 < Qnat bgw) by (unfold Qnat, Qlt; simpl; lia).
  assert (Hqh : 0 < Qnat bgh) by (unfold Qnat, Qlt; simpl; lia).
  assert (Hbw0 : ¬ Qnat bgw == 0) by (intros H0; rewrite H0 in Hqw; by apply Qlt_irrefl in Hqw).
  assert (Hbh0 : ¬ Qnat bgh == 0) by (intros H0; rewrite H0 in Hqh; by apply Qlt_irrefl in Hqh).
  assert (Hmul : ∀ a b : nat, Qnat (a * b) == Qnat a * Qnat b).
  { intros a b. unfold Qnat. rewrite Nat2Z.inj_mul, inject_Z_mult. reflexivity. }
  assert (Hle : ∀ a b : nat, (a ≤ b)%nat → Qnat a <= Qnat b).
  { intros a b Hab. unfold Qnat. rewrite <- Zle_Qle. lia. }
  assert (Hsub : ∀ a b : nat, (a ≤ b)%nat → Qnat (b - a) == Qnat b - Qnat a).
  { intros a b Hab. unfold Qnat. rewrite Nat2Z.inj_sub by done.
    unfold Z.sub. rewrite inject_Z_plus, inject_Z_opp. reflexivity. }
  split.
  - intros Hcw Hch.
    assert (Ek : Qnat cw / Qnat bgw == Qnat k).
    { rewrite Hcw, Hmul. by field. }
    assert (Hmax : Qmax (Qnat cw / Qnat bgw) (Qnat ch / Qnat bgh) == Qnat k).
    { rewrite Ek. apply Q.max_l. apply Qle_shift_div_r; [done|].
      rewrite <- Hmul. by apply Hle. }
    rewrite !Hmax, (Hsub ch (k * bgh)%nat Hch), Hcw, !Hmul.
    repeat split; field.
  - intros Hch Hcw.
    assert (Ek : Qnat ch / Qnat bgh == Qnat k).
    { rewrite Hch, Hmul. by field. }
    assert (Hmax : Qmax (Qnat cw / Qnat bgw) (Qnat ch / Qnat bgh) == Qnat k).
    { rewrite Ek. apply Q.max_r. apply Qle_shift_div_r; [done|].
      rewrite <- Hmul. by apply Hle. }
    rewrite !Hmax, (Hsub cw (k * bgw)%nat Hcw), Hch, !Hmul.
    repeat split; field.
Qed.

Lemma cover_rect_integer_scale_witness :
  let c := cover_rect (Qnat 1280) (Qnat 720) (Qnat 640) (Qnat 640) in
  rx c == 0 ∧ rw c == Qnat 1280 ∧ rh c == Qnat (2 * 640)
  ∧ ry c == - (Qnat (2 * 640 - 720) / 2).
Proof.
  intros c.
  pose proof (cover_rect_integer_scale 1280 720 640 640 2) as H.
  destruct H as [H _].
  - apply Nat.lt_0_succ.
  - apply Nat.lt_0_succ.
  - discriminate.
  - discriminate.
  - apply H.
    + reflexivity.
    + apply Nat.leb_le. reflexivity.
Defined.

End cover_integer.
(** ** The user interface of [App.tsx] *)

(** X30.  In every state that [App] reaches: the camera is active only if
    the model has loaded and a segmenter is stored; the background and the
    enhancement keep their initial values until the camera has been
    started; an error message, once set by a failed model load or a
    refused camera, is never cleared by a later event, not even by a
    camera start that succeeds. *)
Theorem app_ui_invariants (tr tr' : list AppUI.Event) :
  let s := AppUI.run AppUI.initial tr in
  (AppUI.isCameraActive s = true →
   AppUI.modelLoaded s = true ∧ AppUI.segmenterRef s = true)
  ∧ (AppUI.modelLoaded s = false →
     AppUI.selectedBackground s = "beach.jpg" ∧ AppUI.enhancementMode s = "auto")
  ∧ (AppUI.error (AppUI.processingState s) ≠ None →
     AppUI.error (AppUI.processingState (AppUI.run s tr')) ≠ None).
Proof.
  intros s.
  assert (Hinv : ∀ tr s0,
            ((AppUI.isCameraActive s0 = true →
              AppUI.modelLoaded s0 = true ∧ AppUI.segmenterRef s0 = true)
             ∧ AppUI.modelLoaded s0 = AppUI.segmenterRef s0
             ∧ (AppUI.modelLoaded s0 = false →
                AppUI.selectedBackground s0 = "beach.jpg"
                ∧ AppUI.enhancementMode s0 = "auto")) →
            let s1 := AppUI.run s0 tr in
            (AppUI.isCameraActive s1 = true →
              AppUI.modelLoaded s1 = true ∧ AppUI.segmenterRef s1 = true)
             ∧ AppUI.modelLoaded s1 = AppUI.segmenterRef s1
             ∧ (AppUI.modelLoaded s1 = false →
                AppUI.selectedBackground s1 = "beach.jpg"
                ∧ AppUI.enhancementMode s1 = "auto")).
  { clear. induction tr as [|e tr IH]; intros s0 H; [done|].
    apply IH. clear IH. destruct H as (Hc & Hml & Hsel).
    destruct s0 as [bg en cam ps ml dk sg]. cbn in *.
    destruct e as [[|]|[|]| | | | |]; cbn; unfold AppUI.startCamera; cbn;
      destruct cam, sg; cbn in *; subst; try done;
      try (by destruct (Hc eq_refl));
      try (destruct (AppUI.resultImage ps); cbn; done). }
  assert (Herr : ∀ tr s0, AppUI.error (AppUI.processingState s0) ≠ None →
                          AppUI.error (AppUI.processingState (AppUI.run s0 tr)) ≠ None).
  { clear. induction tr as [|e tr IH]; intros s0 H; [done|].
    apply IH. clear IH.
    destruct s0 as [bg en cam [ip pr er ri] ml dk sg]. cbn in *.
    destruct e as [[|]|[|]| | | | |]; cbn; unfold AppUI.startCamera; cbn;
      destruct cam, sg, ri; cbn; done. }
  destruct (Hinv tr AppUI.initial) as (H1 & _ & H4).
  { cbn. repeat split; done. }
  split; [done|]. split; [done|]. apply Herr.
Qed.
